(** * Macro regime classifier: rule labeller, random forest, backtest

    A shallow embedding of the learning and simulation engine of
    [src/app/regime/page.tsx] (the forest code is shared verbatim with the
    older module [src/unnamed/part_000]).

    Conventions of the embedding.
    - A JavaScript number is a [number]: an exact rational ([Finite q]) or
      [NaN].  IEEE rounding and the infinities are idealised away, so an
      equation between numbers is an equation between rationals.
    - A parsed CSV row is a [gmap string number]; an absent key stands for
      both [null] and [undefined].  Every read of a cell in the source is
      guarded by [?? 0], [== null] or [!= null], which do not tell the two
      apart.  A text cell that is not a number behaves as [NaN] in the
      forest code.
    - [Math.random()] is an oracle [rand : nat -> Q] read through a counter
      that is threaded through the training code.
    - [Array.prototype.sort] is a stable insertion sort.  The language
      leaves the algorithm open; what is proved of the random shuffle only
      uses that sorting permutes its input.
    - Date keys are the [YYYY-MM-DD] texts of [normDate]; on those,
      comparing [Date] objects is comparing the texts.
    - Depths and counts are natural numbers. *)

From Stdlib Require Import QArith Qround Qabs OrdersEx Sorted Lqa.
From stdpp Require Import gmap strings list.
From Equations Require Import Equations.

Open Scope string_scope.
Open Scope nat_scope.
Open Scope list_scope.

(** ** JavaScript numbers *)

Inductive number :=
| Finite (q : Q)
| NaN.

Definition num_le (a b : number) : bool :=
  match a, b with
  | Finite x, Finite y => Qle_bool x y
  | _, _ => false
  end.

Definition num_lt (a b : number) : bool :=
  match a, b with
  | Finite x, Finite y => negb (Qle_bool y x)
  | _, _ => false
  end.

Definition num_ge (a b : number) : bool := num_le b a.
Definition num_gt (a b : number) : bool := num_lt b a.

Definition num_add (a b : number) : number :=
  match a, b with
  | Finite x, Finite y => Finite (x + y)
  | _, _ => NaN
  end.

Definition num_sub (a b : number) : number :=
  match a, b with
  | Finite x, Finite y => Finite (x - y)
  | _, _ => NaN
  end.

Definition isNaN (v : number) : bool :=
  match v with
  | Finite _ => false
  | NaN => true
  end.

Definition num_of_nat (n : nat) : number := Finite (inject_Z (Z.of_nat n)).

Declare Scope num_scope.
Delimit Scope num_scope with num.
Bind Scope num_scope with number.
Infix "<=?" := num_le : num_scope.
Infix "<?" := num_lt : num_scope.
Infix ">=?" := num_ge (at level 70) : num_scope.
Infix ">?" := num_gt (at level 70) : num_scope.
Infix "+" := num_add : num_scope.
Infix "-" := num_sub : num_scope.

(** ** Rows *)

Abbreviation Row := (gmap string number).

(** [v ?? d] of the source. *)
Definition nullish (v : option number) (d : number) : number := default d v.
Infix "??" := nullish (at level 40, left associativity) : num_scope.

(** ** RF / LABEL LOGIC: labelRegimes *)

(** The callback of [data.map] in [labelRegimes], up to the computed id. *)
Definition labelRegime (row : Row) : nat :=
  let R_z := (row !! "spx_ret_3w_z" ?? Finite 0)%num in
  let V_z := (row !! "vix_z" ?? Finite 0)%num in
  let G_z := (row !! "pmi_z" ?? Finite 0)%num in
  let I_z := (row !! "breakeven10_z" ?? Finite 0)%num in
  let vol_stress :=
    ((row !! "vvix_z" ?? Finite 0) + (row !! "rv_3w_z" ?? Finite 0))%num in
  let growth_momentum :=
    ((row !! "ip_yoy_z" ?? Finite 0) - (row !! "unemp_z" ?? Finite 0))%num in
  (* Stagflation *)
  if (G_z <=? Finite 0)%num && (I_z >=? Finite 0.75)%num
     && (V_z >=? Finite 0)%num then 2
  (* Overheating *)
  else if (R_z >=? Finite 0.5)%num && (V_z <=? Finite (-0.5))%num
          && (vol_stress <? Finite (-0.3))%num then 3
  (* Slowdown *)
  else if (R_z <=? Finite (-0.5))%num && (G_z <=? Finite 0)%num
          && (V_z >=? Finite 0)%num then 1
  (* Goldilocks *)
  else if (R_z >=? Finite 0.5)%num && (V_z <=? Finite 0)%num
          && (G_z >=? Finite 0)%num
          && (I_z >=? Finite (-0.5))%num && (I_z <=? Finite 0.75)%num then 0
  (* Fallback logic *)
  else if (R_z >? Finite 0)%num && (V_z <? Finite 0)%num
          && (growth_momentum >? Finite 0)%num then 0
  else if (R_z <? Finite 0)%num && (V_z >? Finite 0)%num then 1
  else if (I_z >? Finite 0.5)%num
          || ((row !! "cpi_yoy_z" ?? Finite 0) >? Finite 0.75)%num then 2
  else 3.

(** [{ ...row, regime }] *)
Definition labelRegimes (data : list Row) : list Row :=
  (λ row, <["regime" := num_of_nat (labelRegime row)]> row) <$> data.

(** *** The rule table of the specification (section 4.1)

    The decision fields, with nulls read as 0, and the ordered list of
    (predicate, regime) pairs; the first matching pair wins. *)

Module RuleTable.

Definition returns_z (row : Row) := (row !! "spx_ret_3w_z" ?? Finite 0)%num.
Definition volatility_z (row : Row) := (row !! "vix_z" ?? Finite 0)%num.
Definition growth_z (row : Row) := (row !! "pmi_z" ?? Finite 0)%num.
Definition inflation_z (row : Row) := (row !! "breakeven10_z" ?? Finite 0)%num.
Definition vvix_z (row : Row) := (row !! "vvix_z" ?? Finite 0)%num.
Definition realized_vol_z (row : Row) := (row !! "rv_3w_z" ?? Finite 0)%num.
Definition industrial_production_z (row : Row) := (row !! "ip_yoy_z" ?? Finite 0)%num.
Definition unemployment_z (row : Row) := (row !! "unemp_z" ?? Finite 0)%num.
Definition cpi_yoy_z (row : Row) := (row !! "cpi_yoy_z" ?? Finite 0)%num.

Definition Goldilocks := 0.
Definition Slowdown := 1.
Definition Stagflation := 2.
Definition Overheating := 3.

Definition stagflation (row : Row) : bool :=
  (growth_z row <=? Finite 0)%num && (inflation_z row >=? Finite 0.75)%num
  && (volatility_z row >=? Finite 0)%num.

Definition overheating (row : Row) : bool :=
  (returns_z row >=? Finite 0.5)%num && (volatility_z row <=? Finite (-0.5))%num
  && (vvix_z row + realized_vol_z row <? Finite (-0.3))%num.

Definition slowdown (row : Row) : bool :=
  (returns_z row <=? Finite (-0.5))%num && (growth_z row <=? Finite 0)%num
  && (volatility_z row >=? Finite 0)%num.

Definition goldilocks (row : Row) : bool :=
  (returns_z row >=? Finite 0.5)%num && (volatility_z row <=? Finite 0)%num
  && (growth_z row >=? Finite 0)%num
  && ((Finite (-0.5) <=? inflation_z row)%num && (inflation_z row <=? Finite 0.75)%num).

Definition cascade_goldilocks (row : Row) : bool :=
  (returns_z row >? Finite 0)%num && (volatility_z row <? Finite 0)%num
  && (industrial_production_z row - unemployment_z row >? Finite 0)%num.

Definition cascade_slowdown (row : Row) : bool :=
  (returns_z row <? Finite 0)%num && (volatility_z row >? Finite 0)%num.

Definition cascade_stagflation (row : Row) : bool :=
  (inflation_z row >? Finite 0.5)%num || (cpi_yoy_z row >? Finite 0.75)%num.

Definition rules : list ((Row → bool) * nat) :=
  [ (stagflation, Stagflation);
    (overheating, Overheating);
    (slowdown, Slowdown);
    (goldilocks, Goldilocks);
    (cascade_goldilocks, Goldilocks);
    (cascade_slowdown, Slowdown);
    (cascade_stagflation, Stagflation) ].

Fixpoint first_match (rs : list ((Row → bool) * nat)) (otherwise : nat)
    (row : Row) : nat :=
  match rs with
  | [] => otherwise
  | (applies, regime) :: rs' =>
      if applies row then regime else first_match rs' otherwise row
  end.

Definition label (row : Row) : nat := first_match rules Overheating row.

End RuleTable.

(** ** RF: class counts, Gini impurity *)

(** The key under which [counts[v]] reads or writes an array slot: a
    non-negative integer.  Any other value names a property outside the
    indexed slots. *)
Definition arrayIndex (v : option number) : option nat :=
  match v with
  | Some (Finite q) =>
      if Qeq_bool q (inject_Z (Qfloor q)) && (0 <=? Qfloor q)%Z
      then Some (Z.to_nat (Qfloor q)) else None
  | _ => None
  end.

(** [counts[v]++] on the four class counters.  The labels are regime ids
    written by [labelRegimes], hence below 4 ([labelRegime_range]).  An
    index of 4 or more is outside the model: the JavaScript array would
    grow by a slot holding [NaN], [Math.max] would then be [NaN] and
    [indexOf] give -1, whereas here the counters are left unchanged.  The
    statements that depend on the counters are therefore made for tables
    whose target cells are class ids 0..3 ([regimeLabelled], [allOfClass]). *)
Definition increment (counts : list nat) (v : option number) : list nat :=
  match arrayIndex v with
  | Some k => alter S k counts
  | None => counts
  end.

(** [const counts = [0, 0, 0, 0]; data.forEach((d) => counts[d[target]]++)] *)
Definition classCounts (data : list Row) (target : string) : list nat :=
  foldl (λ counts d, increment counts (d !! target)) [0; 0; 0; 0] data.

(** [Math.max(...counts)] on counters. *)
Definition Math_max (counts : list nat) : nat := foldr Nat.max 0 counts.

(** [counts.indexOf(x)]: the first index holding [x]. *)
Fixpoint indexOf (counts : list nat) (x : nat) : option nat :=
  match counts with
  | [] => None
  | c :: rest => if (c =? x)%nat then Some 0 else S <$> indexOf rest x
  end.

(** [counts.indexOf(Math.max(...counts))]; the maximum is always found
    ([indexOf_Math_max]), so the default is never taken. *)
Definition majorityClass (data : list Row) (target : string) : nat :=
  let counts := classCounts data target in
  default 0 (indexOf counts (Math_max counts)).

Definition Qnat (n : nat) : Q := inject_Z (Z.of_nat n).

Definition calcGini (data : list Row) (target : string) : Q :=
  let counts := classCounts data target in
  foldl (λ gini c,
           if (0 <? length data)%nat
           then (gini - (Qnat c / Qnat (length data)) ^ 2)%Q
           else gini)
        1%Q counts.

(** ** RF: decision trees *)

(** The object literals built by [trainDecisionTree]:
    [{ leaf: true, prediction }] and
    [{ leaf: false, feature, threshold, left, right }]. *)
Inductive tree :=
| Leaf (prediction : nat)
| Node (feature : string) (threshold : Q) (left right : tree).

Definition leaf (t : tree) : bool :=
  match t with Leaf _ => true | Node _ _ _ _ => false end.

(** [tree.prediction]: an internal node has no such property. *)
Definition prediction (t : tree) : option nat :=
  match t with Leaf p => Some p | Node _ _ _ _ => None end.

(** [Array.prototype.sort] with a pure comparator: a stable insertion sort;
    [cmp a b > 0] moves [b] before [a]. *)
Fixpoint insertBy {A} (cmp : A → A → Q) (x : A) (sorted : list A) : list A :=
  match sorted with
  | [] => [x]
  | y :: rest =>
      if negb (Qle_bool (cmp y x) 0) then x :: y :: rest
      else y :: insertBy cmp x rest
  end.

Definition sortBy {A} (cmp : A → A → Q) (l : list A) : list A :=
  foldl (λ sorted x, insertBy cmp x sorted) [] l.

(** [d[feature] != null && d[feature] <= threshold] and its [>] twin. *)
Definition cell_le (v : option number) (threshold : Q) : bool :=
  match v with
  | Some x => num_le x (Finite threshold)
  | None => false
  end.

Definition cell_gt (v : option number) (threshold : Q) : bool :=
  match v with
  | Some x => num_gt x (Finite threshold)
  | None => false
  end.

(** [v != null && !isNaN(v)] as a partial map to the numeric values. *)
Definition numeric (v : option number) : option Q :=
  match v with
  | Some (Finite q) => Some q
  | _ => None
  end.

Definition splitLeft (data : list Row) (feature : string) (threshold : Q) :=
  List.filter (λ d : Row, cell_le (d !! feature) threshold) data.

Definition splitRight (data : list Row) (feature : string) (threshold : Q) :=
  List.filter (λ d : Row, cell_gt (d !! feature) threshold) data.

(** The running best split: [bestFeature], [bestThreshold], [bestGini];
    [bestGini = None] is the initial [Infinity]. *)
Record best := Best {
  bestFeature : string;
  bestThreshold : Q;
  bestGini : option Q
}.

(** [gini < bestGini] *)
Definition improves (gini : Q) (b : best) : bool :=
  match bestGini b with
  | None => true
  | Some g => negb (Qle_bool g gini)
  end.

(** The body of [[0.25, 0.5, 0.75].forEach((pct) => ...)].  An index past
    the end reads [undefined], against which both filters are empty, so the
    cut is rejected. *)
Definition tryCut (data : list Row) (target feature : string)
    (values : list Q) (b : best) (pct : Q) : best :=
  match values !! Z.to_nat (Qfloor (Qnat (length values) * pct)) with
  | None => b
  | Some threshold =>
      let left := splitLeft data feature threshold in
      let right := splitRight data feature threshold in
      if (length left <? 5)%nat || (length right <? 5)%nat then b
      else
        let gini :=
          (Qnat (length left) / Qnat (length data) * calcGini left target
           + Qnat (length right) / Qnat (length data) * calcGini right target)%Q in
        if improves gini b then Best feature threshold (Some gini) else b
  end.

(** The body of [selected.forEach((feature) => ...)]. *)
Definition tryFeature (data : list Row) (target : string) (b : best)
    (feature : string) : best :=
  let values :=
    sortBy Qminus (omap (λ d : Row, numeric (d !! feature)) data) in
  if (length values =? 0)%nat then b
  else foldl (tryCut data target feature values) b [0.25; 0.5; 0.75]%Q.

(** [Math.max(1, Math.floor(Math.sqrt(features.length)))] *)
Definition numFeatures (features : list string) : nat :=
  Nat.max 1 (Nat.sqrt (length features)).

(** ** Randomness *)

(** Computations that call [Math.random()]: the state is the number of
    draws made so far. *)
Definition Rand (A : Type) : Type := nat → A * nat.

Definition ret {A} (a : A) : Rand A := λ s, (a, s).

Definition bind {A B} (m : Rand A) (k : A → Rand B) : Rand B :=
  λ s, let (a, s') := m s in k a s'.

Notation "x <- m ;; k" := (bind m (λ x, k))
  (at level 100, m at next level, right associativity).

(** [Array.prototype.sort] with an effectful comparator, same algorithm as
    [sortBy]. *)
Fixpoint insertByM {A} (cmp : A → A → Rand Q) (x : A) (sorted : list A)
    : Rand (list A) :=
  match sorted with
  | [] => ret [x]
  | y :: rest =>
      c <- cmp y x ;;
      if negb (Qle_bool c 0) then ret (x :: y :: rest)
      else (rest' <- insertByM cmp x rest ;; ret (y :: rest'))
  end.

Fixpoint sortByM_from {A} (cmp : A → A → Rand Q) (sorted l : list A)
    : Rand (list A) :=
  match l with
  | [] => ret sorted
  | x :: l' => sorted' <- insertByM cmp x sorted ;; sortByM_from cmp sorted' l'
  end.

Definition sortByM {A} (cmp : A → A → Rand Q) (l : list A) : Rand (list A) :=
  sortByM_from cmp [] l.

Section Forest.

(** The values returned by successive calls of [Math.random()]. *)
Variable rand : nat → Q.

Definition Math_random : Rand Q := λ s, (rand s, S s).

(** [[...features].sort(() => 0.5 - Math.random()).slice(0, numFeatures)] *)
Definition selectFeatures (features : list string) : Rand (list string) :=
  shuffled <- sortByM (λ _ _, r <- Math_random ;; ret (0.5 - r)%Q) features ;;
  ret (take (numFeatures features) shuffled).

(** [selected[0]]; on an empty selection the property key read by
    [d[bestFeature]] is the text of [undefined]. *)
Definition firstSelected (selected : list string) : string :=
  default "undefined" (head selected).

Definition majorityLeaf (data : list Row) (target : string) : tree :=
  Leaf (majorityClass data target).

Equations? trainDecisionTree (data : list Row) (features : list string)
    (target : string) (depth maxDepth : nat) : Rand tree
    by wf (maxDepth - depth) lt :=
trainDecisionTree data features target depth maxDepth
    with le_lt_dec maxDepth depth := {
  | left _ => ret (majorityLeaf data target)
  | right _ =>
      if (length data <? 15)%nat then ret (majorityLeaf data target)
      else
        selected <- selectFeatures features ;;
        let b :=
          foldl (tryFeature data target)
                (Best (firstSelected selected) 0 None) selected in
        let left := splitLeft data (bestFeature b) (bestThreshold b) in
        let right := splitRight data (bestFeature b) (bestThreshold b) in
        if (length left =? 0)%nat || (length right =? 0)%nat
        then ret (majorityLeaf data target)
        else
          l <- trainDecisionTree left features target (depth + 1) maxDepth ;;
          r <- trainDecisionTree right features target (depth + 1) maxDepth ;;
          ret (Node (bestFeature b) (bestThreshold b) l r) }.
Proof. all: lia. Qed.

(** [Math.floor(Math.random() * data.length)] then [data[idx]]; the index
    is in range when the draw is in [0, 1) ([bootstrap_index_in_range]),
    so the empty row standing for [undefined] is never used. *)
Definition drawRow (data : list Row) : Rand Row :=
  r <- Math_random ;;
  let idx := Z.to_nat (Qfloor (r * Qnat (length data))) in
  ret (default ∅ (data !! idx)).

(** [Array.from({ length: n }, () => ...)] *)
Fixpoint arrayFrom {A} (n : nat) (f : Rand A) : Rand (list A) :=
  match n with
  | 0 => ret []
  | S n' => x <- f ;; rest <- arrayFrom n' f ;; ret (x :: rest)
  end.

(** The loop [for (let i = 0; i < numTrees; i++)] of [trainRandomForest],
    with the trees pushed so far. *)
Fixpoint growForest (data : list Row) (features : list string)
    (target : string) (remaining : nat) (trees : list tree)
    : Rand (list tree) :=
  match remaining with
  | 0 => ret trees
  | S remaining' =>
      bootstrap <- arrayFrom (length data) (drawRow data) ;;
      t <- trainDecisionTree bootstrap features target 0 12 ;;
      growForest data features target remaining' (trees ++ [t])
  end.

Definition trainRandomForest (data : list Row) (features : list string)
    (target : string) (numTrees : nat) : Rand (list tree) :=
  growForest data features target numTrees [].

End Forest.

(** ** RF: prediction *)

(** [predictTree]: on an internal node [sample[tree.feature]] is tested with
    [val == null || isNaN(val)] before the threshold. *)
Fixpoint predictTree (t : tree) (sample : Row) : nat :=
  match t with
  | Leaf p => p
  | Node feature threshold l r =>
      match sample !! feature with
      | None => default 0 (prediction t)
      | Some val =>
          if isNaN val then default 0 (prediction t)
          else if (val <=? Finite threshold)%num then predictTree l sample
          else predictTree r sample
      end
  end.

(** [probs[cls]++] for each tree, then [probs.map((p) => p / trees.length)].
    Classes are below 4 for every tree whose leaves hold class ids
    ([classes_ok]); see [increment] for larger indices. *)
Definition voteCounts (trees : list tree) (sample : Row) : list nat :=
  foldl (λ probs t, alter S (predictTree t sample) probs) [0; 0; 0; 0] trees.

Definition predictRF (trees : list tree) (sample : Row) : list Q :=
  (λ p, (Qnat p / Qnat (length trees))%Q) <$> voteCounts trees sample.

(** ** Measures and invariants of trees *)

(** The largest number of internal nodes on a path from the root to a leaf. *)
Fixpoint height (t : tree) : nat :=
  match t with
  | Leaf _ => 0
  | Node _ _ l r => S (Nat.max (height l) (height r))
  end.

(** Every leaf holds one of the four class ids. *)
Fixpoint classes_ok (t : tree) : bool :=
  match t with
  | Leaf p => (p <? 4)%nat
  | Node _ _ l r => classes_ok l && classes_ok r
  end.

(** [always P m]: whatever the draws so far, the result of [m] satisfies [P]. *)
Definition always {A} (P : A → Prop) (m : Rand A) : Prop := ∀ s, P (m s).1.

(** The 21 macro features of the source. *)
Definition expectedFeatures : list string :=
  [ "spx_ret_1w_z"; "spx_ret_3w_z"; "spx_ret_6w_z"; "vix_z"; "rv_3w_z";
    "vix_ts_z"; "vvix_z"; "hy_ret_3w_z"; "slope_2s10s_z"; "pmi_z";
    "pmi_chg_3w_z"; "breakeven10_z"; "breakeven_chg_3w_z"; "cpi_yoy_z";
    "ip_yoy_z"; "unemp_z"; "aaii_spread_z"; "cg_ratio_z"; "oil_ret_3w_z";
    "gold_ret_3w_z"; "capex_ret_6w_z" ].

(** [p0 + p1 + p2 + p3] over a vector of rationals. *)
Definition Qsum (l : list Q) : Q := foldr Qplus 0%Q l.

(** The number of trees that vote for class [c]. *)
Definition votesFor (c : nat) (trees : list tree) (sample : Row) : nat :=
  length (List.filter (λ t, (predictTree t sample =? c)%nat) trees).

(** ** BACKTEST ENGINE *)

(** Rows of the three tables held in the component state.  Date keys are
    the [YYYY-MM-DD] texts produced by [normDate]; a text cell that is empty
    in the file is the empty string (both are falsy). *)

Module MacroRow.
Record t := Make { _dateKey : string; cells : Row }.
End MacroRow.

Module SectorRow.
Record t := Make { _dateKey : string; returns : gmap string Q }.
End SectorRow.

Module StockRow.
Record t := Make {
  _dateKey : string;
  stock_ticker : string;
  sector_etf : string;
  ret : number
}.
End StockRow.

Module Config.
Record t := Make { long : list string; short : list string }.
End Config.

Module Candidate.
Record t := Make { ticker : string; sector_etf : string; stockRet : Q }.
End Candidate.

Module Position.
Record t := Make {
  ticker : string;
  sector_etf : string;
  stockRet : Q;
  weight : Q;
  pnl : Q
}.
End Position.

Module Trade.
Record t := Make {
  date : string;
  regime : number;
  weeklyRet : Q;
  longs : list Position.t;
  shorts : list Position.t
}.
End Trade.

Module Point.
Record t := Make { date : string; equity : Q; ret : Q }.
End Point.

(** Static mapping: sectors to long/short in each regime, by regime id. *)
Definition regimeSectorConfig : list Config.t :=
  [ (* 0: Goldilocks *)
    Config.Make ["XLY US Equity"; "XLK US Equity"; "XLF US Equity"]
                ["XLU US Equity"; "XLP US Equity"];
    (* 1: Slowdown *)
    Config.Make ["XLP US Equity"; "XLU US Equity"; "XLV US Equity"]
                ["XLY US Equity"; "XLF US Equity"; "XLI US Equity"];
    (* 2: Stagflation *)
    Config.Make ["XLE US Equity"; "XLB US Equity"]
                ["XLF US Equity"; "XLK US Equity"; "XLY US Equity"];
    (* 3: Overheating *)
    Config.Make ["XLF US Equity"; "XLI US Equity"; "XLV US Equity"]
                ["XLU US Equity"; "XLP US Equity"] ].

(** [isFinite(x)] on a number. *)
Definition finite (x : number) : option Q :=
  match x with Finite q => Some q | NaN => None end.

Definition isFinite (x : number) : bool := bool_decide (is_Some (finite x)).

(** The value a comparator hands to [sort]: [NaN] counts as 0. *)
Definition comparison (x : number) : Q := default 0%Q (finite x).

(** [!key]: the empty text is falsy. *)
Definition truthy (key : string) : bool := negb (String.eqb key "").

(** Default [sort()] on texts: by code units. *)
Definition compareText (a b : string) : Q :=
  match String_as_OT.compare a b with
  | Lt => (-1)%Q
  | Eq => 0%Q
  | Gt => 1%Q
  end.

(** [new Date(a) < new Date(b)] on [YYYY-MM-DD] keys. *)
Definition dateBefore (a b : string) : bool :=
  bool_decide (String_as_OT.compare a b = Lt).

Definition cutoff : string := "2015-01-01".
Definition initialCapital : Q := 1000000%Q.

(** 1) Date -> regime: the callback of [processedData.forEach];
    [typeof row.regime === "number"] holds of a present cell, [NaN]
    included. *)
Definition addRegime (m : gmap string number) (row : MacroRow.t)
    : gmap string number :=
  let key := MacroRow._dateKey row in
  if truthy key then
    match MacroRow.cells row !! "regime" with
    | Some regime => <[key := regime]> m
    | None => m
    end
  else m.

Definition regimeByDate (processedData : list MacroRow.t) : gmap string number :=
  foldl addRegime ∅ processedData.

(** 2) Date -> sector returns *)
Definition addSector (m : gmap string (gmap string Q)) (row : SectorRow.t)
    : gmap string (gmap string Q) :=
  if truthy (SectorRow._dateKey row)
  then <[SectorRow._dateKey row := SectorRow.returns row]> m
  else m.

Definition sectorByDate (sectorData : list SectorRow.t)
    : gmap string (gmap string Q) :=
  foldl addSector ∅ sectorData.

(** 3) Date -> stock rows, in file order *)
Definition addStock (m : gmap string (list StockRow.t)) (row : StockRow.t)
    : gmap string (list StockRow.t) :=
  let key := StockRow._dateKey row in
  if truthy key
  then <[key := default [] (m !! key) ++ [row]]> m
  else m.

Definition stocksByDate (stockData : list StockRow.t)
    : gmap string (list StockRow.t) :=
  foldl addStock ∅ stockData.

(** Date -> ticker -> return (this week's returns) *)
Definition stockRetByDate (stocks : gmap string (list StockRow.t))
    : gmap string (gmap string Q) :=
  (λ rows,
     foldl (λ m r,
              match finite (StockRow.ret r) with
              | Some q =>
                  if truthy (StockRow.stock_ticker r)
                  then <[StockRow.stock_ticker r := q]> m else m
              | None => m
              end)
           ∅ rows) <$> stocks.

(** Common dates:
    [Object.keys(regimeByDate).filter((d) => sectorByDate[d] && stocksByDate[d]).sort()] *)
Definition commonDates (processedData : list MacroRow.t)
    (sectorData : list SectorRow.t) (stockData : list StockRow.t) : list string :=
  sortBy compareText
    (List.filter
       (λ d, bool_decide (is_Some (sectorByDate sectorData !! d))
             && bool_decide (is_Some (stocksByDate stockData !! d)))
       (map_to_list (regimeByDate processedData)).*1).

(** [regimeSectorConfig[regime]] *)
Definition configFor (regime : number) : option Config.t :=
  k ← arrayIndex (Some regime); regimeSectorConfig !! k.

(** [(a, b) => b.ret - a.ret] and [(a, b) => a.ret - b.ret] *)
Definition bestFirst (a b : StockRow.t) : Q :=
  comparison (StockRow.ret b - StockRow.ret a)%num.

Definition worstFirst (a b : StockRow.t) : Q :=
  comparison (StockRow.ret a - StockRow.ret b)%num.

(** The body of [config.long.forEach((sector) => ...)] (and of its [short]
    twin): the stocks of the sector ranked on last week's return, the first
    five, each kept when today's return is known. *)
Definition sectorCandidates (rankStocks : list StockRow.t)
    (todayRets : gmap string Q) (order : StockRow.t → StockRow.t → Q)
    (sector : string) : list Candidate.t :=
  let sorted :=
    take 5
      (sortBy order
         (List.filter
            (λ s, String.eqb (StockRow.sector_etf s) sector
                  && isFinite (StockRow.ret s))
            rankStocks)) in
  omap (λ s,
          (λ rToday,
             Candidate.Make (StockRow.stock_ticker s) (StockRow.sector_etf s) rToday)
          <$> todayRets !! StockRow.stock_ticker s)
       sorted.

Definition bookCandidates (rankStocks : list StockRow.t)
    (todayRets : gmap string Q) (order : StockRow.t → StockRow.t → Q)
    (sectors : list string) : list Candidate.t :=
  mjoin (sectorCandidates rankStocks todayRets order <$> sectors).

(** [candidates.map((c) => ({ ...c, weight, pnl: weight * c.stockRet }))] *)
Definition positions (weight : Q) (candidates : list Candidate.t)
    : list Position.t :=
  (λ c, Position.Make (Candidate.ticker c) (Candidate.sector_etf c)
          (Candidate.stockRet c) weight (weight * Candidate.stockRet c)%Q)
  <$> candidates.

(** The variables updated by the loop. *)
Record LoopState := Loop {
  equity : Q;
  equityCurve : list Point.t;
  weeklyReturns : list Q;
  tradesByDate : gmap string Trade.t
}.

(** [weeklyReturns.push(0); equityCurve.push({ date: tradeDate, equity, ret: 0 })] *)
Definition zeroWeek (st : LoopState) (tradeDate : string) : LoopState :=
  Loop (equity st)
       (equityCurve st ++ [Point.Make tradeDate (equity st) 0])
       (weeklyReturns st ++ [0%Q])
       (tradesByDate st).

Section Backtest.

Variable processedData : list MacroRow.t.
Variable stockData : list StockRow.t.

(** [todayRets = stockRetByDate[tradeDate] || {}] *)
Definition todayRets (tradeDate : string) : gmap string Q :=
  default ∅ (stockRetByDate (stocksByDate stockData) !! tradeDate).

(** The long and short candidates of the week ranked on [rankDate] and
    traded on [tradeDate]. *)
Definition weekCandidates (config : Config.t) (rankDate tradeDate : string)
    : list Candidate.t * list Candidate.t :=
  let rankStocks := default [] (stocksByDate stockData !! rankDate) in
  (bookCandidates rankStocks (todayRets tradeDate) bestFirst (Config.long config),
   bookCandidates rankStocks (todayRets tradeDate) worstFirst (Config.short config)).

(** The part of the loop body that decides the week: the record stored in
    [tradesByDate], or [None] on either of the two paths that record a
    zero-return week (no configuration for the regime, no candidate). *)
Definition weekTrade (rankDate tradeDate : string) : option Trade.t :=
  regime ← regimeByDate processedData !! tradeDate;
  config ← configFor regime;
  let '(longCandidates, shortCandidates) :=
    weekCandidates config rankDate tradeDate in
  let nL := length longCandidates in
  let nS := length shortCandidates in
  if (nL + nS =? 0)%nat then None
  else
    let longWeight := if (0 <? nL)%nat then (0.5 / Qnat nL)%Q else 0%Q in
    let shortWeight := if (0 <? nS)%nat then (0.5 / Qnat nS)%Q else 0%Q in
    let longPositions := positions longWeight longCandidates in
    let shortPositions := positions (- shortWeight) shortCandidates in
    let weeklyRet :=
      foldl (λ acc p, (acc + Position.pnl p)%Q) 0%Q
            (longPositions ++ shortPositions) in
    Some (Trade.Make tradeDate regime weeklyRet longPositions shortPositions).

(** One iteration of [for (let i = 1; i < allDates.length; i++)], with
    [rankDate = allDates[i - 1]] and [tradeDate = allDates[i]]. *)
Definition simulateWeek (st : LoopState) (week : string * string) : LoopState :=
  let '(rankDate, tradeDate) := week in
  if dateBefore tradeDate cutoff then st
  else
    match weekTrade rankDate tradeDate with
    | None => zeroWeek st tradeDate
    | Some trade =>
        let equity' := (equity st * (1 + Trade.weeklyRet trade))%Q in
        Loop equity'
             (equityCurve st
                ++ [Point.Make tradeDate equity' (Trade.weeklyRet trade)])
             (weeklyReturns st ++ [Trade.weeklyRet trade])
             (<[tradeDate := trade]> (tradesByDate st))
    end.

(** The pairs [(allDates[i - 1], allDates[i])] for i = 1, 2, ... *)
Definition weeks (allDates : list string) : list (string * string) :=
  zip allDates (tail allDates).

Definition runLoop (allDates : list string) : LoopState :=
  foldl simulateWeek (Loop initialCapital [] [] ∅) (weeks allDates).

End Backtest.

(** What [setBacktest] receives.  The statistics that need a real power or
    a square root (CAGR, volatility, Sharpe) have no rational value and are
    left out, with the drawdown, win rate and yearly table computed from the
    same curve. *)
Record BacktestResult := Result {
  resultCurve : list Point.t;
  finalValue : Q;
  resultTrades : gmap string Trade.t;
  tradeDates : list string
}.

(** The effects of one call: the text passed to [alert], if any, and the
    [backtest] state afterwards. *)
Record Effects := Fx {
  alert : option string;
  backtest : option BacktestResult
}.

Definition runBacktest (previous : option BacktestResult)
    (processedData : option (list MacroRow.t))
    (sectorData : option (list SectorRow.t))
    (stockData : option (list StockRow.t)) : Effects :=
  match processedData, sectorData, stockData with
  | None, _, _ => Fx (Some "Upload macro feature file first.") previous
  | Some _, None, _ | Some _, _, None =>
      Fx (Some "Upload both sector + stock returns files.") previous
  | Some processedData, Some sectorData, Some stockData =>
      let allDates := commonDates processedData sectorData stockData in
      if (length allDates <? 2)%nat then
        Fx (Some "Not enough overlapping dates between the 3 files.") None
      else
        let st := runLoop processedData stockData allDates in
        if (length (equityCurve st) =? 0)%nat then
          Fx (Some "No valid weeks after applying 2015+ cutoff.") None
        else
          Fx None
             (Some (Result (equityCurve st) (equity st) (tradesByDate st)
                      (sortBy compareText (map_to_list (tradesByDate st)).*1)))
  end.

(** *** Vocabulary of the backtest properties *)

(** The weeks the loop simulates: every pair of consecutive common dates
    whose trade date is not before the cutoff. *)
Definition simulatedWeeks (allDates : list string) : list (string * string) :=
  List.filter (λ week, negb (dateBefore week.2 cutoff)) (weeks allDates).

(** The dates present in all three tables. *)
Definition sharedDates (processedData : list MacroRow.t)
    (sectorData : list SectorRow.t) (stockData : list StockRow.t) : gset string :=
  list_to_set (MacroRow._dateKey <$> processedData)
  ∩ list_to_set (SectorRow._dateKey <$> sectorData)
  ∩ list_to_set (StockRow._dateKey <$> stockData).

(** Strictly increasing dates. *)
Definition increasing (dates : list string) : Prop :=
  StronglySorted String_as_OT.lt dates.

(** [equity[i] = equity[i-1] * (1 + ret[i])] along a curve that starts from
    [previous]. *)
Fixpoint compounds (previous : Q) (curve : list Point.t) : Prop :=
  match curve with
  | [] => True
  | p :: rest =>
      (Point.equity p == previous * (1 + Point.ret p))%Q
      ∧ compounds (Point.equity p) rest
  end.

(** The equity before entry [i] of a curve. *)
Definition equityBefore (curve : list Point.t) (i : nat) : Q :=
  match i with
  | 0 => initialCapital
  | S j => default initialCapital (Point.equity <$> curve !! j)
  end.

Definition weights (book : list Position.t) : list Q := Position.weight <$> book.

(** The two books of one trade record: equal weights of 0.5 / nL on the
    long side and -0.5 / nS on the short side, each side summing to 0.5 in
    magnitude when it is not empty, the weekly return being the weighted sum
    of the returns read in [today], and the gross exposure staying at 0.5
    when the other side is empty. *)
Definition balancedBooks (today : gmap string Q) (trade : Trade.t) : Prop :=
  let longs := Trade.longs trade in
  let shorts := Trade.shorts trade in
  let nL := length longs in
  let nS := length shorts in
  1 ≤ nL + nS
  ∧ Forall (λ pos, Position.weight pos = (0.5 / Qnat nL)%Q) longs
  ∧ Forall (λ pos, Position.weight pos = (- (0.5 / Qnat nS))%Q) shorts
  ∧ (1 ≤ nL → (Qsum (weights longs) == 0.5)%Q)
  ∧ (1 ≤ nS → (Qsum (weights shorts) == -0.5)%Q
              ∧ (Qabs (Qsum (weights shorts)) == 0.5)%Q)
  ∧ Forall (λ pos, today !! Position.ticker pos = Some (Position.stockRet pos)
                   ∧ Position.pnl pos
                     = (Position.weight pos * Position.stockRet pos)%Q)
           (longs ++ shorts)
  ∧ (Trade.weeklyRet trade
     == Qsum ((λ pos, Position.weight pos * Position.stockRet pos)
              <$> longs ++ shorts))%Q
  ∧ (nS = 0 → (Qsum (Qabs <$> weights (longs ++ shorts)) == 0.5)%Q)
  ∧ (nL = 0 → (Qsum (Qabs <$> weights (longs ++ shorts)) == 0.5)%Q).

(** The loop invariant that ties the running equity to the curve and to the
    weekly returns. *)
Definition consistent (st : LoopState) : Prop :=
  equity st = default initialCapital (Point.equity <$> last (equityCurve st))
  ∧ weeklyReturns st = Point.ret <$> equityCurve st
  ∧ compounds initialCapital (equityCurve st).

(** ** Concrete inputs *)

Module Inputs.

(** A labelled row with the single feature [f]. *)
Definition row_f (f : Q) (regime : nat) : Row :=
  <["regime" := num_of_nat regime]> (<["f" := Finite f]> ∅).

(** Twenty rows of regime 1 (Slowdown) with [f] = 1, 2, ..., 20. *)
Definition slowdown20 : list Row :=
  (λ i, row_f (Qnat i) 1) <$> seq 1 20.

(** Fifteen rows of regime 1: two with [f] = -1 and thirteen with [f] = 1. *)
Definition lopsided15 : list Row :=
  replicate 2 (row_f (-1) 1) ++ replicate 13 (row_f 1 1).

(** A labelled row in which each of the 21 features has the value [v]. *)
Definition row_all (v : Q) (regime : nat) : Row :=
  <["regime" := num_of_nat regime]>
    (list_to_map ((λ f, (f, Finite v)) <$> expectedFeatures)).

(** [slowdown20] and [lopsided15] over the 21 features. *)
Definition slowdown20_all : list Row :=
  (λ i, row_all (Qnat i) 1) <$> seq 1 20.

Definition lopsided15_all : list Row :=
  replicate 2 (row_all (-1) 1) ++ replicate 13 (row_all 1 1).

(** A source of draws that always returns 0, and one that cycles. *)
Definition zeros : nat → Q := λ _, 0%Q.
Definition cycle : nat → Q := λ n, (Qnat (n * 7 mod 10) / 10)%Q.

(** A macro row labelled Goldilocks (regime 0) by [labelRegimes]. *)
Definition goldilocksCells : Row :=
  <["spx_ret_3w_z" := Finite 1]> (<["vix_z" := Finite (-1)]>
    (<["pmi_z" := Finite 1]> (<["breakeven10_z" := Finite 0]> ∅))).

Definition dates : list string :=
  [ "2014-12-19"; "2014-12-26"; "2015-01-02"; "2015-01-09"; "2015-01-16";
    "2015-01-23" ].

Definition macro : list MacroRow.t :=
  (λ d, MacroRow.Make d (<["regime" := num_of_nat (labelRegime goldilocksCells)]>
                           goldilocksCells)) <$> dates.

Definition sectors : list SectorRow.t :=
  (λ d, SectorRow.Make d ∅) <$> dates.

Definition XLK := "XLK US Equity".
Definition XLU := "XLU US Equity".
Definition XLE := "XLE US Equity".

Definition stocks : list StockRow.t :=
  [ StockRow.Make "2014-12-19" "AAPL" XLK (Finite 0.01);
    StockRow.Make "2014-12-26" "AAPL" XLK (Finite 0.03);
    StockRow.Make "2014-12-26" "MSFT" XLK (Finite 0.02);
    StockRow.Make "2014-12-26" "DUK" XLU (Finite 0.01);
    StockRow.Make "2015-01-02" "AAPL" XLK (Finite 0.05);
    StockRow.Make "2015-01-02" "MSFT" XLK (Finite (-0.02));
    StockRow.Make "2015-01-02" "DUK" XLU (Finite 0.01);
    StockRow.Make "2015-01-02" "XOM" XLE (Finite 0.04);
    StockRow.Make "2015-01-09" "XOM" XLE (Finite 0.02);
    StockRow.Make "2015-01-16" "AAPL" XLK (Finite 0.01);
    StockRow.Make "2015-01-23" "AAPL" XLK (Finite 0.02) ].

End Inputs.

(** ** Vocabulary of the further forest properties *)

(** Every row carries a class id 0..3 under [target], as the rows returned
    by [labelRegimes] do under [regime]. *)
Definition regimeLabelled (target : string) (data : list Row) : bool :=
  forallb (λ d : Row,
             match arrayIndex (d !! target) with
             | Some k => k <? 4
             | None => false
             end)
          data.

(** The number of rows of class [c]. *)
Definition labelCount (target : string) (c : nat) (data : list Row) : nat :=
  length (List.filter
            (λ d : Row, bool_decide (arrayIndex (d !! target) = Some c)) data).

(** The number of leaves, the split features and the leaf classes of a tree. *)
Fixpoint leaves (t : tree) : nat :=
  match t with
  | Leaf _ => 1
  | Node _ _ l r => leaves l + leaves r
  end.

Fixpoint splitFeatures (t : tree) : list string :=
  match t with
  | Leaf _ => []
  | Node feature _ l r => feature :: splitFeatures l ++ splitFeatures r
  end.

Fixpoint leafClasses (t : tree) : list nat :=
  match t with
  | Leaf p => [p]
  | Node _ _ l r => leafClasses l ++ leafClasses r
  end.

(** Every row is of class [c]. *)
Definition allOfClass (target : string) (c : nat) (data : list Row) : bool :=
  forallb (λ d : Row, bool_decide (arrayIndex (d !! target) = Some c)) data.

(** The draws are in the interval [0, 1), as those of [Math.random()]. *)
Definition unitDraws (rand : nat → Q) : Prop :=
  ∀ n, (0 <= rand n)%Q ∧ (rand n < 1)%Q.

(** ** RF: feature importance *)

(** The object [imp], as its entries in insertion order.  Feature names are
    not texts of array indices, which JavaScript would list first. *)
Abbreviation Scores := (list (string * number)).

(** [imp[f]] and [imp[f] = v] *)
Fixpoint getScore (imp : Scores) (f : string) : option number :=
  match imp with
  | [] => None
  | (k, x) :: rest => if String.eqb k f then Some x else getScore rest f
  end.

Fixpoint setScore (imp : Scores) (f : string) (v : number) : Scores :=
  match imp with
  | [] => [(f, v)]
  | (k, x) :: rest =>
      if String.eqb k f then (k, v) :: rest else (k, x) :: setScore rest f v
  end.

(** [imp[f] += v]; reading an absent key gives [undefined], and
    [undefined + v] is [NaN]. *)
Definition addScore (imp : Scores) (f : string) (v : Q) : Scores :=
  setScore imp f
    (match getScore imp f with
     | Some x => (x + Finite v)%num
     | None => NaN
     end).

(** [traverse(tree, depth)] *)
Fixpoint traverse (t : tree) (depth : nat) (imp : Scores) : Scores :=
  match t with
  | Leaf _ => imp
  | Node feature _ l r =>
      traverse r (depth + 1)
        (traverse l (depth + 1)
           (addScore imp feature (1 / Qnat (depth + 1))))
  end.

(** [imp] after [features.forEach((f) => (imp[f] = 0))] and
    [trees.forEach((tree) => traverse(tree))]. *)
Definition importanceScores (trees : list tree) (features : list string)
    : Scores :=
  foldl (λ imp t, traverse t 0 imp)
        (foldl (λ imp f, setScore imp f (Finite 0)) [] features)
        trees.

(** [Object.values(imp).reduce((a, b) => a + b, 0) || 1]: a sum that is 0
    or [NaN] is falsy. *)
Definition importanceTotal (imp : Scores) : Q :=
  match foldl num_add (Finite 0) imp.*2 with
  | Finite q => if Qeq_bool q 0 then 1%Q else q
  | NaN => 1%Q
  end.

(** [parseFloat(x.toFixed(1))]: the nearest multiple of 1/10, the larger
    in magnitude of two equally near ones. *)
Definition toFixed1 (x : Q) : Q :=
  if Qle_bool 0 x then (inject_Z (Qfloor (x * 10 + (1 # 2))) / 10)%Q
  else (- (inject_Z (Qfloor (- x * 10 + (1 # 2))) / 10))%Q.

(** [(score / total) * 100] *)
Definition share (total : Q) (score : number) : number :=
  match score with
  | Finite x => Finite (x / total * 100)
  | NaN => NaN
  end.

Definition rounded (x : number) : number :=
  match x with
  | Finite q => Finite (toFixed1 q)
  | NaN => NaN
  end.

Module Importance.
Record t := Make { feature : string; importance : number }.
End Importance.

Definition calcImportance (trees : list tree) (features : list string)
    : list Importance.t :=
  let imp := importanceScores trees features in
  let total := importanceTotal imp in
  sortBy (λ a b, comparison (Importance.importance b - Importance.importance a)%num)
    ((λ entry : string * number,
        Importance.Make entry.1 (rounded (share total entry.2)))
     <$> imp).

(** The total weight [1 / (depth + 1)] of the internal nodes of a tree whose
    root is at [depth], and the sum of the scores read as rationals. *)
Fixpoint treeWeight (t : tree) (depth : nat) : Q :=
  match t with
  | Leaf _ => 0%Q
  | Node _ _ l r =>
      (1 / Qnat (depth + 1) + treeWeight l (depth + 1)
       + treeWeight r (depth + 1))%Q
  end.

Definition scoreSum (imp : Scores) : Q :=
  foldr (λ entry acc, (comparison entry.2 + acc)%Q) 0%Q imp.

(** Every score is a non-negative rational. *)
Definition nonnegScores (imp : Scores) : Prop :=
  Forall (λ entry : string * number,
            ∃ q, entry.2 = Finite q ∧ (0 <= q)%Q) imp.

(** A list ordered from the largest key to the smallest. *)
Definition descending {A} (key : A → Q) (l : list A) : Prop :=
  StronglySorted (λ a b, (key b <= key a)%Q) l.

(** Small forests for the examples on feature importance. *)
Module Samples.

Definition twoSplits : tree :=
  Node "a" 0 (Node "b" 0 (Leaf 1) (Leaf 2)) (Leaf 0).

Definition features : list string := ["a"; "b"; "c"].

End Samples.

(** ** The predicted class of [handleTrain]

    [probs.indexOf(Math.max(...probs))] over the probabilities of
    [predictRF]: [Math.max] of no argument is [-Infinity] and [indexOf] of an
    absent value is [-1], both [None] here. *)
Definition Qmax2 (a b : Q) : Q := if Qle_bool a b then b else a.

Definition Math_maxQ (xs : list Q) : option Q :=
  match xs with
  | [] => None
  | x :: rest => Some (foldl Qmax2 x rest)
  end.

Fixpoint indexOfQ (xs : list Q) (x : Q) : option nat :=
  match xs with
  | [] => None
  | y :: rest => if Qeq_bool y x then Some 0 else S <$> indexOfQ rest x
  end.

Definition predicted (trees : list tree) (sample : Row) : option nat :=
  let probs := predictRF trees sample in
  match Math_maxQ probs with
  | Some top => indexOfQ probs top
  | None => None
  end.

(** ** Vocabulary of the further labelling and tree properties *)

(** The nine cells read by the callback of [labelRegimes]. *)
Definition decisionCells : list string :=
  [ "spx_ret_3w_z"; "vix_z"; "pmi_z"; "breakeven10_z"; "vvix_z"; "rv_3w_z";
    "ip_yoy_z"; "unemp_z"; "cpi_yoy_z" ].

(** The feature and threshold of every internal node. *)
Fixpoint cuts (t : tree) : list (string * Q) :=
  match t with
  | Leaf _ => []
  | Node feature threshold l r => (feature, threshold) :: cuts l ++ cuts r
  end.

(** The threshold is the initial 0 or the cell of some row. *)
Definition cutFromRows (rows : list Row) (cut : string * Q) : Prop :=
  cut.2 = 0%Q ∨ ∃ d, d ∈ rows ∧ d !! cut.1 = Some (Finite cut.2).

(** ** Vocabulary of the further backtest properties *)

(** Every finite return of the stock table is within [bound] in absolute
    value. *)
Definition returnsWithin (bound : Q) (stockData : list StockRow.t) : Prop :=
  ∀ row q, row ∈ stockData → StockRow.ret row = Finite q → (Qabs q <= bound)%Q.

(** The equity is positive along the curve and every weekly return is
    within [bound]. *)
Definition solvent (bound : Q) (st : LoopState) : Prop :=
  (0 < equity st)%Q
  ∧ Forall (λ pt, (0 < Point.equity pt)%Q ∧ (Qabs (Point.ret pt) <= bound)%Q)
           (equityCurve st).

(** ** Statistics of [runBacktest]

    The drawdown loop
    [for (const pt of equityCurve) { if (pt.equity > peak) peak = pt.equity;
       const dd = (pt.equity - peak) / peak; if (dd < maxDD) maxDD = dd; }]
    from [peak = initialCapital], [maxDD = 0], and the win rate
    [weeklyReturns.filter((r) => r > 0).length / (weeklyReturns.length || 1)]. *)
Record Drawdown := Dd { peak : Q; maxDD : Q }.

Definition drawdownStep (acc : Drawdown) (pt : Point.t) : Drawdown :=
  let peak' :=
    if negb (Qle_bool (Point.equity pt) (peak acc)) then Point.equity pt
    else peak acc in
  let dd := ((Point.equity pt - peak') / peak')%Q in
  Dd peak' (if negb (Qle_bool (maxDD acc) dd) then dd else maxDD acc).

Definition drawdown (equityCurve : list Point.t) : Drawdown :=
  foldl drawdownStep (Dd initialCapital 0) equityCurve.

Definition winRate (weeklyReturns : list Q) : Q :=
  (Qnat (length (List.filter (λ r, negb (Qle_bool r 0)) weeklyReturns))
   / Qnat (if (length weeklyReturns =? 0)%nat then 1 else length weeklyReturns))%Q.

(** The equity levels seen before entry [j] of a curve: the initial capital
    and the equities of the earlier entries. *)
Definition levelsBefore (curve : list Point.t) (j : nat) : list Q :=
  initialCapital :: (Point.equity <$> take j curve).

(** What the drawdown loop holds after a curve: the peak is the highest
    level, and [maxDD] is the largest relative fall from an earlier level. *)
Definition drawdownOf (curve : list Point.t) (acc : Drawdown) : Prop :=
  peak acc ∈ levelsBefore curve (length curve)
  ∧ (∀ x, x ∈ levelsBefore curve (length curve) → (x <= peak acc)%Q)
  ∧ (-1 < maxDD acc)%Q ∧ (maxDD acc <= 0)%Q
  ∧ (∀ j pj x, curve !! j = Some pj → x ∈ levelsBefore curve j →
               ((1 + maxDD acc) * x <= Point.equity pj)%Q)
  ∧ ((maxDD acc == 0)%Q
     ∨ ∃ j pj x, curve !! j = Some pj ∧ x ∈ levelsBefore curve j
                 ∧ (Point.equity pj == (1 + maxDD acc) * x)%Q).

(** [p1 * p2 * ...] over a list of rationals, and the total return
    [equity / initialCapital - 1] of the statistics. *)
Definition Qprod (l : list Q) : Q := foldr Qmult 1%Q l.

Definition totalReturn (equity : Q) : Q := (equity / initialCapital - 1)%Q.

(** * Theorems *)

(** ** RegimeLabeler *)

Lemma labelRegime_range (row : Row) : labelRegime row < 4.
Proof.
  unfold labelRegime.
  repeat match goal with |- context [if ?b then _ else _] => destruct b end; lia.
Qed.

Lemma labelRegime_rule_table (row : Row) : labelRegime row = RuleTable.label row.
Proof.
  unfold RuleTable.label, RuleTable.rules, RuleTable.first_match.
  unfold RuleTable.stagflation, RuleTable.overheating, RuleTable.slowdown,
    RuleTable.goldilocks, RuleTable.cascade_goldilocks,
    RuleTable.cascade_slowdown, RuleTable.cascade_stagflation.
  unfold RuleTable.returns_z, RuleTable.volatility_z, RuleTable.growth_z,
    RuleTable.inflation_z, RuleTable.vvix_z, RuleTable.realized_vol_z,
    RuleTable.industrial_production_z, RuleTable.unemployment_z,
    RuleTable.cpi_yoy_z.
  unfold labelRegime, num_ge.
  rewrite <- !andb_assoc. reflexivity.
Qed.

Lemma labelRegimes_lookup (data : list Row) (i : nat) (row : Row) :
  data !! i = Some row →
  ∃ row', labelRegimes data !! i = Some row'
          ∧ row' !! "regime" = Some (num_of_nat (labelRegime row))
          ∧ ∀ k, k ≠ "regime" → row' !! k = row !! k.
Proof.
  intros Hi. unfold labelRegimes. rewrite list_lookup_fmap, Hi. simpl.
  eexists; split; [reflexivity|]. split.
  - apply lookup_insert_eq.
  - intros k Hk. by apply lookup_insert_ne.
Qed.

(** Scenario A of the specification, and the boundary of the first rule:
    at inflation_z = 0.75 with flat growth and volatility, Stagflation wins
    over every later rule; just below, the row falls through to the
    cascade. *)
Example labelRegime_scenario_A : labelRegime Inputs.goldilocksCells = 0.
Proof. reflexivity. Qed.

Example labelRegime_stagflation_boundary :
  labelRegime (<["breakeven10_z" := Finite 0.75]> ∅) = 2
  ∧ labelRegime (<["breakeven10_z" := Finite 0.74]> ∅) = 2
  ∧ labelRegime (<["breakeven10_z" := Finite 0.5]> ∅) = 3
  ∧ labelRegime (<["breakeven10_z" := NaN]> ∅) = 3
  ∧ labelRegime ∅ = 3.
Proof. vm_compute. repeat split. Qed.

(** C4: the labeller is a total function; on every row it returns one
    regime id among 0, 1, 2, 3, and that id is the one selected by the rule
    table of section 4.1 read in order, first match first: Stagflation
    (growth_z <= 0, inflation_z >= 0.75, volatility_z >= 0), Overheating,
    Slowdown, Goldilocks, then the fallback cascade.  Each labelled row
    carries exactly that id under the key [regime]. *)
Theorem C4_labelRegimes_total_ordered (data : list Row) :
  length (labelRegimes data) = length data
  ∧ Forall2 (λ row row',
        labelRegime row < 4
        ∧ labelRegime row = RuleTable.label row
        ∧ row' = <["regime" := num_of_nat (labelRegime row)]> row
        ∧ (RuleTable.stagflation row = true → labelRegime row = 2)
        ∧ (RuleTable.stagflation row = false → RuleTable.overheating row = true →
           labelRegime row = 3)
        ∧ (RuleTable.stagflation row = false → RuleTable.overheating row = false →
           RuleTable.slowdown row = true → labelRegime row = 1)
        ∧ (RuleTable.stagflation row = false → RuleTable.overheating row = false →
           RuleTable.slowdown row = false → RuleTable.goldilocks row = true →
           labelRegime row = 0))
      data (labelRegimes data).
Proof.
  split; [apply length_fmap|].
  unfold labelRegimes. apply Forall2_fmap_r, Forall_Forall2_diag, Forall_forall.
  intros row _.
  split; [apply labelRegime_range|].
  split; [apply labelRegime_rule_table|].
  split; [reflexivity|].
  rewrite labelRegime_rule_table.
  unfold RuleTable.label, RuleTable.rules. simpl.
  repeat split; intros; repeat match goal with H : _ = _ |- _ => rewrite H end;
    reflexivity.
Qed.

(** ** The random-source monad *)

Lemma always_ret {A} (P : A → Prop) (a : A) : P a → always P (ret a).
Proof. intros H s. exact H. Qed.

Lemma always_bind {A B} (P : A → Prop) (R : B → Prop) (m : Rand A)
    (k : A → Rand B) :
  always P m → (∀ a, P a → always R (k a)) → always R (bind m k).
Proof.
  intros Hm Hk s. unfold bind. specialize (Hm s).
  destruct (m s) as [a s']. apply Hk, Hm.
Qed.

Lemma always_mono {A} (P R : A → Prop) (m : Rand A) :
  (∀ a, P a → R a) → always P m → always R m.
Proof. intros HPR Hm s. apply HPR, Hm. Qed.

Lemma always_True {A} (m : Rand A) : always (λ _, True) m.
Proof. intros s. exact I. Qed.

(** ** DecisionTreeTrainer *)

(** The recursion of the source, as one equation: the stop test
    [depth >= maxDepth || data.length < 15], then the split search, then the
    two calls at [depth + 1]. *)
Lemma trainDecisionTree_eq (rand : nat → Q) (data : list Row)
    (features : list string) (target : string) (depth maxDepth : nat) :
  trainDecisionTree rand data features target depth maxDepth =
  if (maxDepth <=? depth)%nat || (length data <? 15)%nat
  then ret (majorityLeaf data target)
  else
    (selected <- selectFeatures rand features ;;
     let b :=
       foldl (tryFeature data target)
             (Best (firstSelected selected) 0 None) selected in
     let lrows := splitLeft data (bestFeature b) (bestThreshold b) in
     let rrows := splitRight data (bestFeature b) (bestThreshold b) in
     if (length lrows =? 0)%nat || (length rrows =? 0)%nat
     then ret (majorityLeaf data target)
     else
       (l <- trainDecisionTree rand lrows features target (depth + 1) maxDepth ;;
        r <- trainDecisionTree rand rrows features target (depth + 1) maxDepth ;;
        ret (Node (bestFeature b) (bestThreshold b) l r))).
Proof.
  simp trainDecisionTree.
  destruct (le_lt_dec maxDepth depth) as [Hle|Hlt]; simpl.
  - apply Nat.leb_le in Hle. rewrite Hle. reflexivity.
  - apply Nat.leb_gt in Hlt. rewrite Hlt. reflexivity.
Qed.

(** An invariant of trees that holds of every majority leaf and is
    preserved by [Node] below [maxDepth] holds of every trained tree. *)
Lemma trainDecisionTree_invariant (rand : nat → Q) (features : list string)
    (target : string) (maxDepth : nat) (P : nat → tree → Prop) :
  (∀ depth rows, P depth (majorityLeaf rows target)) →
  (∀ depth f th l r, depth < maxDepth →
     P (depth + 1) l → P (depth + 1) r → P depth (Node f th l r)) →
  ∀ data depth,
    always (P depth) (trainDecisionTree rand data features target depth maxDepth).
Proof.
  intros Hleaf Hnode data depth.
  remember (maxDepth - depth) as fuel eqn:Hfuel.
  revert data depth Hfuel.
  induction fuel as [|fuel IH]; intros data depth Hfuel;
    rewrite trainDecisionTree_eq.
  - replace (maxDepth <=? depth)%nat with true
      by (symmetry; apply Nat.leb_le; lia).
    apply always_ret, Hleaf.
  - destruct (maxDepth <=? depth)%nat eqn:Hstop.
    { apply Nat.leb_le in Hstop. lia. }
    apply Nat.leb_gt in Hstop. simpl.
    destruct (length data <? 15)%nat; [apply always_ret, Hleaf|].
    apply (always_bind (λ _, True)); [apply always_True|].
    intros selected _. cbv zeta.
    match goal with |- context [if ?c then _ else _] => destruct c end;
      [apply always_ret, Hleaf|].
    eapply always_bind; [apply IH; lia|]. intros l Hl.
    eapply always_bind; [apply IH; lia|]. intros r Hr.
    apply always_ret, Hnode; assumption.
Qed.

(** C10: the trainer is a total function, defined by recursion on
    [maxDepth - depth]: every recursive call is made at [depth + 1]
    ([trainDecisionTree_eq]) and a call with [depth >= maxDepth] returns a
    leaf.  Hence every path from the root of the returned tree to a leaf
    holds at most [maxDepth - depth], so at most [maxDepth], internal
    nodes. *)
Theorem C10_trainDecisionTree_depth_bounded (rand : nat → Q) (data : list Row)
    (features : list string) (target : string) (depth maxDepth extra s : nat) :
  let t := (trainDecisionTree rand data features target depth maxDepth s).1 in
  height t ≤ maxDepth - depth
  ∧ height t ≤ maxDepth
  ∧ leaf (trainDecisionTree rand data features target
            (maxDepth + extra) maxDepth s).1 = true.
Proof.
  assert (Hh : ∀ data depth,
    always (λ t, height t ≤ maxDepth - depth)
      (trainDecisionTree rand data features target depth maxDepth)).
  { apply (trainDecisionTree_invariant rand features target maxDepth
             (λ depth t, height t ≤ maxDepth - depth)).
    - intros; simpl; lia.
    - intros d f th l r Hd Hl Hr. simpl. lia. }
  cbv zeta. split; [apply Hh|]. split.
  - specialize (Hh data depth s). simpl in Hh. lia.
  - specialize (Hh data (maxDepth + extra) s). simpl in Hh.
    destruct (trainDecisionTree _ _ _ _ _ _ s).1; [reflexivity|].
    simpl in Hh. lia.
Qed.

(** *** Class counters *)

Lemma increment_length (counts : list nat) (v : option number) :
  length (increment counts v) = length counts.
Proof. unfold increment. destruct (arrayIndex v); [apply length_alter|reflexivity]. Qed.

Lemma classCounts_length (data : list Row) (target : string) :
  length (classCounts data target) = 4.
Proof.
  unfold classCounts. generalize (eq_refl : length [0; 0; 0; 0] = 4).
  generalize [0; 0; 0; 0]. induction data as [|d data IH]; intros acc Hacc.
  - exact Hacc.
  - simpl. apply IH. rewrite increment_length. exact Hacc.
Qed.

Lemma Math_max_ge (counts : list nat) (c : nat) :
  c ∈ counts → c ≤ Math_max counts.
Proof.
  induction counts as [|x counts IH]; intros Hin.
  - by apply elem_of_nil in Hin.
  - apply elem_of_cons in Hin as [->|Hin]; simpl; [lia|].
    specialize (IH Hin). lia.
Qed.

Lemma Math_max_elem (counts : list nat) :
  counts ≠ [] → Math_max counts ∈ counts.
Proof.
  induction counts as [|x counts IH]; intros Hne; [done|].
  destruct counts as [|y counts].
  - simpl. rewrite Nat.max_0_r. apply list_elem_of_here.
  - assert (Hin : Math_max (y :: counts) ∈ y :: counts) by (apply IH; done).
    change (Math_max (x :: y :: counts))
      with (Nat.max x (Math_max (y :: counts))).
    destruct (Nat.max_spec x (Math_max (y :: counts))) as [[_ ->]|[_ ->]].
    + by apply list_elem_of_further.
    + apply list_elem_of_here.
Qed.

Lemma indexOf_elem (counts : list nat) (x : nat) :
  x ∈ counts → ∃ i, indexOf counts x = Some i ∧ i < length counts.
Proof.
  induction counts as [|c counts IH]; intros Hin.
  - by apply elem_of_nil in Hin.
  - simpl. destruct (c =? x) eqn:Hc.
    + exists 0. split; [reflexivity|lia].
    + apply Nat.eqb_neq in Hc.
      apply elem_of_cons in Hin as [->|Hin]; [done|].
      destruct (IH Hin) as (i & -> & Hi). exists (S i). split; [reflexivity|lia].
Qed.

(** The index of the maximum is always found, and is a valid index. *)
Lemma indexOf_Math_max (counts : list nat) :
  counts ≠ [] →
  ∃ i, indexOf counts (Math_max counts) = Some i ∧ i < length counts.
Proof. intros Hne. by apply indexOf_elem, Math_max_elem. Qed.

(** *** Feature subsets *)

Lemma NoDup_of_submseteq {A} (l k : list A) : l ⊆+ k → NoDup k → NoDup l.
Proof.
  intros Hsub Hk. apply submseteq_Permutation in Hsub as [rest Hrest].
  rewrite Hrest in Hk. by apply NoDup_app in Hk as [Hl _].
Qed.

Lemma insertByM_Permutation {A} (cmp : A → A → Rand Q) (x : A) (sorted : list A) :
  always (λ l, l ≡ₚ x :: sorted) (insertByM cmp x sorted).
Proof.
  induction sorted as [|y rest IH]; simpl.
  - by apply always_ret.
  - apply (always_bind (λ _, True)); [apply always_True|]. intros c _.
    destruct (negb (Qle_bool c 0)).
    + by apply always_ret.
    + eapply always_bind; [apply IH|]. intros rest' Hrest.
      apply always_ret. rewrite Hrest. apply Permutation_swap.
Qed.

Lemma sortByM_from_Permutation {A} (cmp : A → A → Rand Q) (sorted l : list A) :
  always (λ r, r ≡ₚ sorted ++ l) (sortByM_from cmp sorted l).
Proof.
  revert sorted. induction l as [|x l IH]; intros sorted; simpl.
  - apply always_ret. by rewrite app_nil_r.
  - eapply always_bind; [apply insertByM_Permutation|]. intros sorted' Hs.
    eapply always_mono; [|apply IH]. intros r Hr. simpl in Hr.
    rewrite Hr, Hs. simpl. apply Permutation_middle.
Qed.

(** Sorting with the random comparator only reorders the array. *)
Lemma sortByM_Permutation {A} (cmp : A → A → Rand Q) (l : list A) :
  always (λ r, r ≡ₚ l) (sortByM cmp l).
Proof. apply (sortByM_from_Permutation cmp [] l). Qed.

Lemma selectFeatures_spec (rand : nat → Q) (features : list string) :
  always (λ selected,
            length selected = Nat.min (numFeatures features) (length features)
            ∧ selected ⊆+ features)
         (selectFeatures rand features).
Proof.
  unfold selectFeatures.
  eapply always_bind; [apply sortByM_Permutation|]. intros shuffled Hperm.
  apply always_ret. split.
  - rewrite length_take. by rewrite Hperm.
  - etrans; [apply sublist_submseteq, sublist_take|].
    by apply Permutation_submseteq.
Qed.

(** C3 (amended): each call of the trainer that passes the stop test draws
    [selectFeatures features] ([trainDecisionTree_eq]); the drawn list has
    max(1, floor(sqrt(#features))) entries (all of them when there are
    fewer), taken without replacement from the features; with the 21 fixed
    features it has exactly 4 distinct entries. *)
Theorem C3_selectFeatures_floor_sqrt (rand : nat → Q) (features : list string)
    (s : nat) :
  let selected := (selectFeatures rand features s).1 in
  length selected
    = Nat.min (Nat.max 1 (Nat.sqrt (length features))) (length features)
  ∧ selected ⊆+ features
  ∧ length (selectFeatures rand expectedFeatures s).1 = 4
  ∧ NoDup (selectFeatures rand expectedFeatures s).1.
Proof.
  cbv zeta.
  destruct (selectFeatures_spec rand features s) as [Hlen Hsub].
  destruct (selectFeatures_spec rand expectedFeatures s) as [Hlen21 Hsub21].
  repeat split; try assumption.
  eapply NoDup_of_submseteq; [exact Hsub21|].
  compute_done.
Qed.

(** C3, as stated, fails: with the 21 fixed features the ceiling of the
    square root is 5, and the trainer selects 4. *)
Lemma C3_ceil_sqrt_counterexample :
  Nat.sqrt_up (length expectedFeatures) = 5
  ∧ length (selectFeatures Inputs.zeros expectedFeatures 0).1 = 4
  ∧ length (selectFeatures Inputs.zeros expectedFeatures 0).1
      ≠ Nat.sqrt_up (length expectedFeatures).
Proof. vm_compute. repeat split; congruence. Qed.

(** *** Missing feature values at prediction time *)

(** On an internal node the predictor reads [tree.prediction], which the
    trainer never sets, and falls back to class 0. *)
Lemma predictTree_missing_feature (f : string) (th : Q) (l r : tree)
    (sample : Row) :
  numeric (sample !! f) = None → predictTree (Node f th l r) sample = 0.
Proof.
  intros Hmiss. simpl. destruct (sample !! f) as [[q|]|]; try reflexivity.
  discriminate.
Qed.

(** C1 (the code departs from the claim): twenty training rows, all of
    regime 1, split on [f] at the root.  The majority class of the rows the
    root was built from is 1, yet a sample without [f] is predicted as
    class 0, whatever the random draws.  The same happens with the 21
    features of the application. *)
Theorem C1_missing_feature_predicts_class_0 (rand : nat → Q) (s : nat) :
  let t := (trainDecisionTree rand Inputs.slowdown20 ["f"] "regime" 0 12 s).1 in
  let t21 :=
    (trainDecisionTree Inputs.cycle Inputs.slowdown20_all expectedFeatures
       "regime" 0 12 0).1 in
  t = Node "f" 6 (Leaf 1) (Leaf 1)
  ∧ majorityClass Inputs.slowdown20 "regime" = 1
  ∧ (∅ : Row) !! "f" = None
  ∧ predictTree t ∅ = 0
  ∧ t21 = Node "oil_ret_3w_z" 6 (Leaf 1) (Leaf 1)
  ∧ majorityClass Inputs.slowdown20_all "regime" = 1
  ∧ predictTree t21 (<["oil_ret_3w_z" := NaN]> (Inputs.row_all 3 1)) = 0.
Proof. vm_compute. repeat split. Qed.

(** C2 (the code departs from the claim): on fifteen rows where every
    candidate cut on [f] is rejected ([bestGini] is still the initial
    infinity), the trainer commits the initial split (first selected
    feature, threshold 0) and returns an internal node whose left partition
    holds 2 rows.  The same happens with the 21 features of the
    application. *)
Theorem C2_rejected_cuts_still_split (rand : nat → Q) (s : nat) :
  let data := Inputs.lopsided15 in
  let b := foldl (tryFeature data "regime") (Best "f" 0 None) ["f"] in
  let data21 := Inputs.lopsided15_all in
  let selected := (selectFeatures Inputs.cycle expectedFeatures 0).1 in
  let b21 :=
    foldl (tryFeature data21 "regime")
          (Best (firstSelected selected) 0 None) selected in
  length data = 15
  ∧ b = Best "f" 0 None
  ∧ (trainDecisionTree rand data ["f"] "regime" 0 12 s).1
      = Node "f" 0 (Leaf 1) (Leaf 1)
  ∧ length (splitLeft data "f" 0) = 2
  ∧ length (splitRight data "f" 0) = 13
  ∧ b21 = Best "oil_ret_3w_z" 0 None
  ∧ (trainDecisionTree Inputs.cycle data21 expectedFeatures "regime" 0 12 0).1
      = Node "oil_ret_3w_z" 0 (Leaf 1) (Leaf 1)
  ∧ length (splitLeft data21 "oil_ret_3w_z" 0) = 2.
Proof. vm_compute. repeat split. Qed.

(** ** ForestPredictor *)

Lemma predictTree_range (t : tree) (sample : Row) :
  classes_ok t = true → predictTree t sample < 4.
Proof.
  induction t as [p|f th l IHl r IHr]; simpl; intros Hok.
  - by apply Nat.ltb_lt.
  - apply andb_prop in Hok as [Hl Hr].
    destruct (sample !! f) as [[val|]|]; simpl; try lia.
    destruct (Qle_bool val th); auto.
Qed.

Lemma foldl_votes_lookup (trees : list tree) (sample : Row) (acc : list nat)
    (c : nat) :
  foldl (λ probs t, alter S (predictTree t sample) probs) acc trees !! c
  = (λ n, n + votesFor c trees sample) <$> acc !! c.
Proof.
  revert acc. induction trees as [|t trees IH]; intros acc; simpl.
  - unfold votesFor. simpl. destruct (acc !! c); simpl; [f_equal; lia|done].
  - rewrite IH. unfold votesFor. simpl.
    destruct (Nat.eqb_spec (predictTree t sample) c) as [->|Hne].
    + rewrite list_lookup_alter_eq. destruct (acc !! c); simpl; [f_equal; lia|done].
    + by rewrite list_lookup_alter_ne.
Qed.

Lemma foldl_votes_length (trees : list tree) (sample : Row) (acc : list nat) :
  length (foldl (λ probs t, alter S (predictTree t sample) probs) acc trees)
  = length acc.
Proof.
  revert acc. induction trees as [|t trees IH]; intros acc; simpl; [done|].
  by rewrite IH, length_alter.
Qed.

(** The four counters are the votes for classes 0, 1, 2 and 3. *)
Lemma voteCounts_votesFor (trees : list tree) (sample : Row) :
  voteCounts trees sample = (λ c, votesFor c trees sample) <$> [0; 1; 2; 3].
Proof.
  apply list_eq. intros c. unfold voteCounts. rewrite foldl_votes_lookup.
  do 4 (destruct c as [|c]; [reflexivity|]). reflexivity.
Qed.

Lemma votesFor_total (trees : list tree) (sample : Row) :
  forallb classes_ok trees = true →
  votesFor 0 trees sample + votesFor 1 trees sample
  + votesFor 2 trees sample + votesFor 3 trees sample = length trees.
Proof.
  unfold votesFor. induction trees as [|t trees IH]; simpl; intros Hok; [done|].
  apply andb_prop in Hok as [Ht Hok]. specialize (IH Hok).
  pose proof (predictTree_range t sample Ht) as Hc.
  destruct (predictTree t sample) as [|[|[|[|c]]]]; simpl; lia.
Qed.

Lemma Qnat_nonneg (n : nat) : (0 <= Qnat n)%Q.
Proof. unfold Qnat, Qle. simpl. lia. Qed.

Lemma Qnat_pos (n : nat) : 0 < n → (0 < Qnat n)%Q.
Proof. intros Hn. unfold Qnat, Qlt. simpl. lia. Qed.

Lemma Qnat_plus (a b : nat) : (Qnat (a + b) == Qnat a + Qnat b)%Q.
Proof. unfold Qnat. by rewrite Nat2Z.inj_add, inject_Z_plus. Qed.

(** A draw in [0, 1) indexes a row of a non-empty table. *)
Lemma bootstrap_index_in_range (r : Q) (n : nat) :
  (0 <= r)%Q → (r < 1)%Q → 0 < n → Z.to_nat (Qfloor (r * Qnat n)) < n.
Proof.
  intros Hlo Hhi Hn. pose proof (Qnat_pos n Hn) as Hpos.
  assert (Hfloor : (0 <= Qfloor (r * Qnat n))%Z).
  { change 0%Z with (Qfloor 0). apply Qfloor_resp_le.
    apply Qmult_le_0_compat; [done|]. by apply Qlt_le_weak. }
  assert (Hlt : (Qfloor (r * Qnat n) < Z.of_nat n)%Z).
  { rewrite Zlt_Qlt. eapply Qle_lt_trans; [apply Qfloor_le|].
    fold (Qnat n). rewrite <- (Qmult_1_l (Qnat n)) at 2.
    by apply Qmult_lt_compat_r. }
  lia.
Qed.

(** C5: for a forest of N >= 1 trees whose leaves hold class ids (as a
    forest trained on labelled rows does, [trainRandomForest_spec]) and any
    row, the
    prediction has exactly 4 entries, entry c is the number of trees voting
    for class c divided by N, every entry is non-negative, and the entries
    sum to 1. *)
Theorem C5_predictRF_probability_vector (trees : list tree) (sample : Row) :
  1 ≤ length trees →
  forallb classes_ok trees = true →
  let probs := predictRF trees sample in
  length probs = 4
  ∧ probs = (λ c, (Qnat (votesFor c trees sample) / Qnat (length trees))%Q)
              <$> [0; 1; 2; 3]
  ∧ Forall (λ p, (0 <= p)%Q) probs
  ∧ (Qsum probs == 1)%Q.
Proof.
  intros HN Hok. cbv zeta. unfold predictRF.
  rewrite voteCounts_votesFor.
  pose proof (votesFor_total trees sample Hok) as Htotal.
  pose proof (Qnat_pos (length trees) HN) as Hpos.
  split; [reflexivity|]. split; [reflexivity|]. split.
  - rewrite <- list_fmap_compose. apply Forall_fmap, Forall_forall.
    intros c _. simpl. apply Qle_shift_div_l; [exact Hpos|].
    rewrite Qmult_0_l. apply Qnat_nonneg.
  - simpl. revert Hpos. rewrite <- Htotal, !Qnat_plus. intros Hpos.
    field. intros H0. rewrite H0 in Hpos. by apply Qlt_irrefl in Hpos.
Qed.

Lemma C5_predictRF_witness :
  let trees :=
    (trainRandomForest Inputs.cycle Inputs.slowdown20 ["f"] "regime" 3 0).1 in
  let probs := predictRF trees ∅ in
  1 ≤ length trees
  ∧ forallb classes_ok trees = true
  ∧ length probs = 4
  ∧ probs = (λ c, (Qnat (votesFor c trees ∅) / Qnat (length trees))%Q)
              <$> [0; 1; 2; 3]
  ∧ Forall (λ p, (0 <= p)%Q) probs
  ∧ (Qsum probs == 1)%Q.
Proof.
  cbv zeta. split; [vm_compute; lia|]. split; [vm_compute; reflexivity|].
  apply C5_predictRF_probability_vector; [vm_compute; lia|vm_compute; reflexivity].
Defined.

(** ** BacktestEngine *)

(** *** Sorting *)

Lemma insertBy_Permutation {A} (cmp : A → A → Q) (x : A) (sorted : list A) :
  insertBy cmp x sorted ≡ₚ x :: sorted.
Proof.
  induction sorted as [|y rest IH]; simpl; [done|].
  destruct (negb _); [done|]. rewrite IH. apply Permutation_swap.
Qed.

Lemma sortBy_Permutation {A} (cmp : A → A → Q) (l : list A) :
  sortBy cmp l ≡ₚ l.
Proof.
  unfold sortBy. change l with ([] ++ l) at 2. generalize (@nil A) as acc.
  induction l as [|x l IH]; intros acc; simpl.
  - by rewrite app_nil_r.
  - rewrite IH, insertBy_Permutation. simpl. apply Permutation_middle.
Qed.

Lemma compareText_after (a b : string) :
  negb (Qle_bool (compareText a b) 0) = true ↔ String_as_OT.lt b a.
Proof.
  unfold compareText.
  destruct (String_as_OT.compare_spec a b) as [Heq|Hlt|Hgt]; simpl.
  - red in Heq. subst b. split; [done|]. intros Hlt.
    by apply (StrictOrder_Irreflexive (R:=String_as_OT.lt)) in Hlt.
  - split; [done|]. intros Hgt.
    exfalso. apply (StrictOrder_Irreflexive (R:=String_as_OT.lt) a).
    by etrans.
  - done.
Qed.

Lemma insertBy_text_increasing (x : string) (sorted : list string) :
  increasing sorted → x ∉ sorted → increasing (insertBy compareText x sorted).
Proof.
  unfold increasing. induction sorted as [|y rest IH]; intros Hsorted Hx; simpl.
  - repeat constructor.
  - apply StronglySorted_inv in Hsorted as [Hrest Hy].
    apply not_elem_of_cons in Hx as [Hxy Hx].
    destruct (negb _) eqn:Hcmp.
    + apply compareText_after in Hcmp.
      constructor; [by constructor|]. constructor; [done|].
      eapply Forall_impl; [exact Hy|]. intros z Hz. simpl in Hz. by etrans.
    + constructor; [by apply IH|].
      rewrite insertBy_Permutation. constructor; [|done].
      destruct (String_as_OT.compare_spec y x) as [Heq|Hlt|Hgt]; [done|done|].
      apply compareText_after in Hgt. congruence.
Qed.

(** Sorting distinct texts yields a strictly increasing list. *)
Lemma sortBy_text_increasing (l : list string) :
  NoDup l → increasing (sortBy compareText l).
Proof.
  unfold sortBy. intros Hnd.
  assert (Hacc : increasing [] ∧ NoDup ([] ++ l))
    by (split; [constructor|done]).
  revert Hacc. generalize (@nil string) as acc. clear Hnd.
  induction l as [|x l IH]; intros acc [Hsorted Hnd]; simpl; [done|].
  apply IH. split.
  - apply insertBy_text_increasing; [done|].
    apply NoDup_app in Hnd as (_ & Hdisj & _). intros Hin.
    apply (Hdisj x Hin). apply list_elem_of_here.
  - rewrite insertBy_Permutation. simpl.
    by rewrite Permutation_middle.
Qed.

Lemma NoDup_List_filter {A} (f : A → bool) (l : list A) :
  NoDup l → NoDup (List.filter f l).
Proof. rewrite !NoDup_ListNoDup. apply List.NoDup_filter. Qed.

Lemma increasing_NoDup (dates : list string) : increasing dates → NoDup dates.
Proof.
  unfold increasing. induction 1 as [|d dates Hs IH Hd]; constructor; [|done].
  intros Hin. rewrite Forall_forall in Hd.
  by apply (StrictOrder_Irreflexive (R:=String_as_OT.lt) d), Hd.
Qed.

(** *** Common dates *)

Lemma regimeByDate_dom (processedData : list MacroRow.t) (d : string) :
  is_Some (regimeByDate processedData !! d) →
  d ∈ MacroRow._dateKey <$> processedData.
Proof.
  unfold regimeByDate.
  assert (Hgen : ∀ m, is_Some (foldl addRegime m processedData !! d) →
    is_Some (m !! d) ∨ d ∈ (MacroRow._dateKey <$> processedData)).
  { induction processedData as [|row rows IH]; intros m Hd; simpl in *; [by left|].
    destruct (IH _ Hd) as [Hm|Hin]; [|right; by apply list_elem_of_further].
    unfold addRegime in Hm. destruct (truthy _); [|by left].
    destruct (MacroRow.cells row !! "regime"); [|by left].
    destruct (decide (MacroRow._dateKey row = d)) as [<-|Hne].
    - right. apply list_elem_of_here.
    - left. by rewrite lookup_insert_ne in Hm. }
  intros Hd. destruct (Hgen ∅ Hd) as [Hm|Hin]; [|done].
  rewrite lookup_empty in Hm. by destruct Hm.
Qed.

Lemma sectorByDate_dom (sectorData : list SectorRow.t) (d : string) :
  is_Some (sectorByDate sectorData !! d) →
  d ∈ SectorRow._dateKey <$> sectorData.
Proof.
  unfold sectorByDate.
  assert (Hgen : ∀ m, is_Some (foldl addSector m sectorData !! d) →
    is_Some (m !! d) ∨ d ∈ (SectorRow._dateKey <$> sectorData)).
  { induction sectorData as [|row rows IH]; intros m Hd; simpl in *; [by left|].
    destruct (IH _ Hd) as [Hm|Hin]; [|right; by apply list_elem_of_further].
    unfold addSector in Hm. destruct (truthy _); [|by left].
    destruct (decide (SectorRow._dateKey row = d)) as [<-|Hne].
    - right. apply list_elem_of_here.
    - left. by rewrite lookup_insert_ne in Hm. }
  intros Hd. destruct (Hgen ∅ Hd) as [Hm|Hin]; [|done].
  rewrite lookup_empty in Hm. by destruct Hm.
Qed.

Lemma stocksByDate_dom (stockData : list StockRow.t) (d : string) :
  is_Some (stocksByDate stockData !! d) →
  d ∈ StockRow._dateKey <$> stockData.
Proof.
  unfold stocksByDate.
  assert (Hgen : ∀ m, is_Some (foldl addStock m stockData !! d) →
    is_Some (m !! d) ∨ d ∈ (StockRow._dateKey <$> stockData)).
  { induction stockData as [|row rows IH]; intros m Hd; simpl in *; [by left|].
    destruct (IH _ Hd) as [Hm|Hin]; [|right; by apply list_elem_of_further].
    unfold addStock in Hm. destruct (truthy _); [|by left].
    destruct (decide (StockRow._dateKey row = d)) as [<-|Hne].
    - right. apply list_elem_of_here.
    - left. by rewrite lookup_insert_ne in Hm. }
  intros Hd. destruct (Hgen ∅ Hd) as [Hm|Hin]; [|done].
  rewrite lookup_empty in Hm. by destruct Hm.
Qed.

Section CommonDates.

Variable processedData : list MacroRow.t.
Variable sectorData : list SectorRow.t.
Variable stockData : list StockRow.t.

Let allDates := commonDates processedData sectorData stockData.

Lemma commonDates_increasing : increasing allDates.
Proof.
  apply sortBy_text_increasing, NoDup_List_filter, NoDup_fst_map_to_list.
Qed.

Lemma commonDates_shared (d : string) :
  d ∈ allDates → d ∈ sharedDates processedData sectorData stockData.
Proof.
  unfold allDates, commonDates. rewrite sortBy_Permutation.
  rewrite list_elem_of_In, List.filter_In, <- list_elem_of_In.
  intros [Hkey Hboth]. apply andb_prop in Hboth as [Hsec Hstk].
  apply bool_decide_eq_true_1 in Hsec, Hstk.
  apply list_elem_of_fmap in Hkey as ([k regime] & -> & Hkey).
  apply elem_of_map_to_list in Hkey. simpl in *.
  unfold sharedDates. rewrite !elem_of_intersection, !elem_of_list_to_set.
  repeat split.
  - apply regimeByDate_dom. by eexists.
  - by apply sectorByDate_dom.
  - by apply stocksByDate_dom.
Qed.

Lemma commonDates_length :
  length allDates ≤ size (sharedDates processedData sectorData stockData).
Proof.
  rewrite <- (size_list_to_set (C:=gset string) allDates)
    by apply increasing_NoDup, commonDates_increasing.
  apply subseteq_size. intros d Hd. apply elem_of_list_to_set in Hd.
  by apply commonDates_shared.
Qed.

End CommonDates.

(** C8: with fewer than two dates present in all three tables, the run
    raises the alert for non-overlapping dates and sets the backtest state
    to null: no loop iteration is run, no equity curve is produced. *)
Theorem C8_runBacktest_no_overlapping_dates (previous : option BacktestResult)
    (processedData : list MacroRow.t) (sectorData : list SectorRow.t)
    (stockData : list StockRow.t) :
  size (sharedDates processedData sectorData stockData) < 2 →
  runBacktest previous (Some processedData) (Some sectorData) (Some stockData)
  = Fx (Some "Not enough overlapping dates between the 3 files.") None.
Proof.
  intros Hfew. unfold runBacktest.
  pose proof (commonDates_length processedData sectorData stockData) as Hlen.
  destruct (Nat.ltb_spec (length (commonDates processedData sectorData stockData)) 2);
    [reflexivity|lia].
Qed.

Lemma C8_no_overlapping_dates_witness :
  size (sharedDates Inputs.macro Inputs.sectors []) < 2
  ∧ runBacktest None (Some Inputs.macro) (Some Inputs.sectors) (Some [])
    = Fx (Some "Not enough overlapping dates between the 3 files.") None.
Proof.
  split; [vm_compute; lia|].
  apply C8_runBacktest_no_overlapping_dates. vm_compute. lia.
Defined.

(** *** The weekly loop *)

Lemma increasing_sublist (l k : list string) :
  l `sublist_of` k → increasing k → increasing l.
Proof.
  unfold increasing. induction 1 as [|x l k Hsub IH|x l k Hsub IH]; intros Hk.
  - constructor.
  - apply StronglySorted_inv in Hk as [Hk Hx]. constructor; [by apply IH|].
    rewrite Forall_forall in Hx |- *. intros y Hy.
    apply Hx. by eapply elem_of_sublist.
  - apply StronglySorted_inv in Hk as [Hk _]. by apply IH.
Qed.

Lemma List_filter_sublist {A} (f : A → bool) (l : list A) :
  List.filter f l `sublist_of` l.
Proof.
  induction l as [|x l IH]; simpl; [constructor|].
  destruct (f x); by constructor.
Qed.

Lemma weeks_trade_dates (allDates : list string) :
  (weeks allDates).*2 = tail allDates.
Proof.
  unfold weeks. apply snd_zip. destruct allDates; simpl; lia.
Qed.

Lemma simulatedWeeks_sublist (allDates : list string) :
  (simulatedWeeks allDates).*2 `sublist_of` tail allDates.
Proof.
  rewrite <- weeks_trade_dates. apply fmap_sublist, List_filter_sublist.
Qed.

Lemma elem_of_List_filter {A} (f : A → bool) (l : list A) (x : A) :
  x ∈ List.filter f l ↔ x ∈ l ∧ f x = true.
Proof. by rewrite !list_elem_of_In, List.filter_In. Qed.

Lemma compounds_snoc (e0 : Q) (curve : list Point.t) (p : Point.t) :
  compounds e0 curve →
  (Point.equity p
   == default e0 (Point.equity <$> last curve) * (1 + Point.ret p))%Q →
  compounds e0 (curve ++ [p]).
Proof.
  revert e0. induction curve as [|q curve IH]; intros e0; simpl.
  - intros _ Hp. by split.
  - intros [Hq Hrest] Hp. split; [done|]. apply IH; [done|].
    destruct curve as [|q' curve]; [exact Hp|].
    change (last (q :: q' :: curve)) with (last (q' :: curve)) in Hp.
    destruct (last (q' :: curve)) eqn:Hl; [exact Hp|].
    apply last_None in Hl. discriminate.
Qed.

Lemma compounds_lookup (curve : list Point.t) (i : nat) (p : Point.t) :
  compounds initialCapital curve → curve !! i = Some p →
  (Point.equity p == equityBefore curve i * (1 + Point.ret p))%Q.
Proof.
  unfold equityBefore. generalize initialCapital as e0.
  revert i. induction curve as [|q curve IH]; intros i e0 Hc Hi; [done|].
  destruct Hc as [Hq Hrest]. destruct i as [|i]; simpl in *.
  - inversion Hi; subst. exact Hq.
  - specialize (IH i (Point.equity q) Hrest Hi).
    destruct i as [|i]; simpl in *; [exact IH|].
    destruct (curve !! i) eqn:Hprev; [exact IH|].
    apply lookup_ge_None in Hprev. apply lookup_lt_Some in Hi. lia.
Qed.

Section Loop.

Variable processedData : list MacroRow.t.
Variable stockData : list StockRow.t.

Let step := simulateWeek processedData stockData.
Let trade := weekTrade processedData stockData.

Lemma consistent_step (st : LoopState) (week : string * string) :
  consistent st → consistent (step st week).
Proof.
  intros (Heq & Hret & Hcomp). destruct week as [rankDate tradeDate].
  unfold step, simulateWeek. destruct (dateBefore _ _); [done|].
  destruct (weekTrade _ _ _ _) as [t|]; unfold consistent; simpl.
  - rewrite last_snoc, fmap_app, Hret. simpl. repeat split.
    apply compounds_snoc; [done|]. simpl. by rewrite <- Heq.
  - rewrite last_snoc, fmap_app, Hret. simpl. repeat split.
    apply compounds_snoc; [done|]. simpl. rewrite <- Heq. ring.
Qed.

Lemma consistent_loop (ws : list (string * string)) (st : LoopState) :
  consistent st → consistent (foldl step st ws).
Proof.
  revert st. induction ws as [|w ws IH]; intros st Hst; simpl; [done|].
  by apply IH, consistent_step.
Qed.

Lemma loop_curve_dates (ws : list (string * string)) (st : LoopState) :
  Point.date <$> equityCurve (foldl step st ws)
  = (Point.date <$> equityCurve st)
    ++ (List.filter (λ week, negb (dateBefore week.2 cutoff)) ws).*2.
Proof.
  revert st. induction ws as [|[rankDate tradeDate] ws IH]; intros st; simpl.
  - by rewrite app_nil_r.
  - rewrite IH. unfold step, simulateWeek.
    destruct (dateBefore tradeDate cutoff); simpl; [done|].
    destruct (weekTrade _ _ _ _) as [t|]; simpl;
      by rewrite fmap_app, <- app_assoc.
Qed.

Lemma step_trades_other (st : LoopState) (week : string * string) (d : string) :
  week.2 ≠ d → tradesByDate (step st week) !! d = tradesByDate st !! d.
Proof.
  destruct week as [rankDate tradeDate]. simpl. intros Hne.
  unfold step, simulateWeek. destruct (dateBefore _ _); [done|].
  destruct (weekTrade _ _ _ _) as [t|]; simpl; [|done].
  by rewrite lookup_insert_ne.
Qed.

Lemma loop_trades_other (ws : list (string * string)) (st : LoopState)
    (d : string) :
  d ∉ ws.*2 → tradesByDate (foldl step st ws) !! d = tradesByDate st !! d.
Proof.
  revert st. induction ws as [|w ws IH]; intros st Hd; simpl; [done|].
  rewrite fmap_cons in Hd. apply not_elem_of_cons in Hd as [Hne Hd].
  rewrite IH by done. by apply step_trades_other.
Qed.

(** With distinct trade dates, the record kept for a week is the one that
    week stored. *)
Lemma loop_trades_week (ws : list (string * string)) (st : LoopState)
    (rankDate d : string) :
  NoDup ws.*2 → (rankDate, d) ∈ ws →
  tradesByDate (foldl step st ws) !! d
  = if dateBefore d cutoff then tradesByDate st !! d
    else match trade rankDate d with
         | Some t => Some t
         | None => tradesByDate st !! d
         end.
Proof.
  revert st. induction ws as [|w ws IH]; intros st Hnd Hin; simpl.
  { by apply elem_of_nil in Hin. }
  rewrite fmap_cons in Hnd. apply NoDup_cons in Hnd as [Hfresh Hnd].
  apply elem_of_cons in Hin as [<-|Hin].
  - rewrite loop_trades_other by done.
    unfold step, simulateWeek, trade. destruct (dateBefore d cutoff); [done|].
    destruct (weekTrade _ _ _ _) as [t|]; simpl; [|done].
    apply lookup_insert_eq.
  - rewrite IH by done.
    assert (w.2 ≠ d) as Hne.
    { intros <-. apply Hfresh.
      by apply (list_elem_of_fmap_2 snd) in Hin. }
    by rewrite step_trades_other.
Qed.

End Loop.

(** *** The books of one week *)

Lemma Qsum_constant (c : Q) (l : list Q) :
  Forall (λ w, w = c) l → (Qsum l == Qnat (length l) * c)%Q.
Proof.
  induction 1 as [|w l -> _ IH]; simpl.
  - change (0 == 0 * c)%Q. ring.
  - rewrite IH. change (S (length l)) with (1 + length l).
    rewrite Qnat_plus. change (Qnat 1) with 1%Q. ring.
Qed.

Lemma foldl_pnl (book : list Position.t) (acc : Q) :
  (foldl (λ acc p, acc + Position.pnl p) acc book
   == acc + Qsum (Position.pnl <$> book))%Q.
Proof.
  unfold Qsum. revert acc. induction book as [|p book IH]; intros acc; simpl.
  - ring.
  - rewrite IH. unfold fmap. ring.
Qed.

Lemma positions_spec (weight : Q) (candidates : list Candidate.t) :
  length (positions weight candidates) = length candidates
  ∧ Forall (λ pos, Position.weight pos = weight
                   ∧ Position.pnl pos
                     = (Position.weight pos * Position.stockRet pos)%Q)
           (positions weight candidates).
Proof.
  unfold positions. split; [apply length_fmap|].
  apply Forall_fmap, Forall_forall. by intros c _.
Qed.

Lemma bookCandidates_today (rankStocks : list StockRow.t)
    (today : gmap string Q) (order : StockRow.t → StockRow.t → Q)
    (sectors : list string) :
  Forall (λ c, today !! Candidate.ticker c = Some (Candidate.stockRet c))
         (bookCandidates rankStocks today order sectors).
Proof.
  apply Forall_forall. intros c Hc. unfold bookCandidates in Hc.
  apply list_elem_of_join in Hc as (book & Hc & Hbook).
  apply list_elem_of_fmap in Hbook as (sector & -> & _).
  unfold sectorCandidates in Hc.
  apply list_elem_of_omap in Hc as (s & _ & Hs).
  destruct (today !! StockRow.stock_ticker s) as [r|] eqn:Hr; [|done].
  simpl in Hs. by inversion Hs; subst.
Qed.

Lemma positions_today (today : gmap string Q) (weight : Q)
    (candidates : list Candidate.t) :
  Forall (λ c, today !! Candidate.ticker c = Some (Candidate.stockRet c))
         candidates →
  Forall (λ pos, today !! Position.ticker pos = Some (Position.stockRet pos))
         (positions weight candidates).
Proof.
  intros Hc. unfold positions. apply Forall_fmap.
  eapply Forall_impl; [exact Hc|]. by intros c Hr.
Qed.

Lemma Qeq_refl_eq (x y : Q) : x = y → (x == y)%Q.
Proof. by intros ->. Qed.

Lemma Qnat_half (n : nat) : 1 ≤ n → (Qnat n * (0.5 / Qnat n) == 0.5)%Q.
Proof.
  intros Hn. pose proof (Qnat_pos n Hn) as Hpos. field.
  intros H0. rewrite H0 in Hpos. by apply Qlt_irrefl in Hpos.
Qed.

Lemma book_weights_sum (c : Q) (book : list Position.t) :
  Forall (λ pos, Position.weight pos = c) book →
  (Qsum (weights book) == Qnat (length book) * c)%Q.
Proof.
  intros Hw. unfold weights.
  rewrite <- (length_fmap Position.weight book).
  apply Qsum_constant, Forall_fmap. exact Hw.
Qed.

Lemma book_exposure (c : Q) (book : list Position.t) :
  Forall (λ pos, Position.weight pos = c) book →
  (Qsum (Qabs <$> weights book) == Qnat (length book) * Qabs c)%Q.
Proof.
  intros Hw. unfold weights.
  rewrite <- (length_fmap Position.weight book), <- (length_fmap Qabs).
  apply Qsum_constant. rewrite !Forall_fmap.
  eapply Forall_impl; [exact Hw|]. intros pos Hpos. simpl. by rewrite Hpos.
Qed.

Section Week.

Variable processedData : list MacroRow.t.
Variable stockData : list StockRow.t.

(** What a stored record says of its week. *)
Lemma weekTrade_spec (rankDate tradeDate : string) (trade : Trade.t) :
  weekTrade processedData stockData rankDate tradeDate = Some trade →
  Trade.date trade = tradeDate
  ∧ regimeByDate processedData !! tradeDate = Some (Trade.regime trade)
  ∧ is_Some (configFor (Trade.regime trade))
  ∧ balancedBooks (todayRets stockData tradeDate) trade.
Proof.
  unfold weekTrade.
  destruct (regimeByDate processedData !! tradeDate) as [regime|]; [|done].
  simpl. destruct (configFor regime) as [config|] eqn:Hconfig; [|done].
  simpl. unfold weekCandidates.
  set (today := todayRets stockData tradeDate).
  set (rankStocks := default [] (stocksByDate stockData !! rankDate)).
  pose proof (bookCandidates_today rankStocks today bestFirst
                (Config.long config)) as HL.
  pose proof (bookCandidates_today rankStocks today worstFirst
                (Config.short config)) as HS.
  revert HL HS.
  generalize (bookCandidates rankStocks today bestFirst (Config.long config)).
  generalize (bookCandidates rankStocks today worstFirst (Config.short config)).
  intros S L HL HS.
  destruct (Nat.eqb_spec (length L + length S) 0) as [|Hsome]; [done|].
  intros [= <-]. cbn [Trade.date Trade.regime].
  split; [reflexivity|]. split; [reflexivity|].
  split; [by rewrite Hconfig|].
  unfold balancedBooks. cbn [Trade.longs Trade.shorts Trade.weeklyRet].
  set (wL := if 0 <? length L then (0.5 / Qnat (length L))%Q else 0%Q).
  set (wS := if 0 <? length S then (0.5 / Qnat (length S))%Q else 0%Q).
  destruct (positions_spec wL L) as [HlenL HposL].
  destruct (positions_spec (- wS) S) as [HlenS HposS].
  pose proof (positions_today today wL L HL) as HtodayL.
  pose proof (positions_today today (- wS) S HS) as HtodayS.
  rewrite HlenL, HlenS.
  assert (HwL : Forall (λ pos, Position.weight pos = (0.5 / Qnat (length L))%Q)
                  (positions wL L)).
  { apply Forall_forall. intros pos Hin.
    rewrite Forall_forall in HposL. destruct (HposL pos Hin) as [-> _].
    unfold wL. destruct L; [by apply elem_of_nil in Hin|reflexivity]. }
  assert (HwS : Forall (λ pos, Position.weight pos = (- (0.5 / Qnat (length S)))%Q)
                  (positions (- wS) S)).
  { apply Forall_forall. intros pos Hin.
    rewrite Forall_forall in HposS. destruct (HposS pos Hin) as [-> _].
    unfold wS. destruct S; [by apply elem_of_nil in Hin|reflexivity]. }
  assert (HsumL : 1 ≤ length L → (Qsum (weights (positions wL L)) == 0.5)%Q).
  { intros Hn. rewrite (book_weights_sum _ _ HwL), HlenL. by apply Qnat_half. }
  assert (HsumS : 1 ≤ length S → (Qsum (weights (positions (- wS) S)) == -0.5)%Q).
  { intros Hn. rewrite (book_weights_sum _ _ HwS), HlenS.
    transitivity (- (Qnat (length S) * (0.5 / Qnat (length S))))%Q; [ring|].
    by rewrite Qnat_half. }
  split; [lia|]. split; [exact HwL|]. split; [exact HwS|].
  split; [exact HsumL|]. split.
  { intros Hn. split; [by apply HsumS|]. by rewrite (HsumS Hn). }
  split.
  { apply Forall_app. split.
    - apply Forall_forall. intros pos Hpos. split.
      + rewrite Forall_forall in HtodayL. by apply HtodayL.
      + rewrite Forall_forall in HposL. by apply HposL.
    - apply Forall_forall. intros pos Hpos. split.
      + rewrite Forall_forall in HtodayS. by apply HtodayS.
      + rewrite Forall_forall in HposS. by apply HposS. }
  split.
  { rewrite foldl_pnl, Qplus_0_l.
    replace (Position.pnl <$> positions wL L ++ positions (- wS) S)
      with ((λ pos, Position.weight pos * Position.stockRet pos)%Q
            <$> positions wL L ++ positions (- wS) S); [reflexivity|].
    apply Forall_fmap_ext_1, Forall_app. split.
    - eapply Forall_impl; [exact HposL|]. by intros pos [_ ->].
    - eapply Forall_impl; [exact HposS|]. by intros pos [_ ->]. }
  split.
  - intros HS0. destruct S; [|discriminate]. simpl. rewrite app_nil_r.
    rewrite (book_exposure _ _ HwL), HlenL.
    assert (1 ≤ length L) as Hn by (simpl in Hsome; lia).
    rewrite Qabs_pos; [by apply Qnat_half|].
    apply Qle_shift_div_l; [by apply Qnat_pos|]. by rewrite Qmult_0_l.
  - intros HL0. destruct L; [|discriminate]. simpl.
    rewrite (book_exposure _ _ HwS), HlenS.
    assert (1 ≤ length S) as Hn by (simpl in Hsome; lia).
    rewrite Qabs_opp, Qabs_pos; [by apply Qnat_half|].
    apply Qle_shift_div_l; [by apply Qnat_pos|]. by rewrite Qmult_0_l.
Qed.

End Week.

(** *** The run as a whole *)

Section Run.

Variable previous : option BacktestResult.
Variable processedData : list MacroRow.t.
Variable sectorData : list SectorRow.t.
Variable stockData : list StockRow.t.

Let allDates := commonDates processedData sectorData stockData.
Let st := runLoop processedData stockData allDates.

(** A run that sets the backtest state publishes the final loop state. *)
Lemma runBacktest_result (result : BacktestResult) :
  backtest (runBacktest previous (Some processedData) (Some sectorData)
              (Some stockData)) = Some result →
  resultCurve result = equityCurve st
  ∧ finalValue result = equity st
  ∧ resultTrades result = tradesByDate st
  ∧ tradeDates result = sortBy compareText (map_to_list (tradesByDate st)).*1.
Proof.
  unfold runBacktest. fold allDates. fold st.
  destruct (length allDates <? 2); [done|].
  destruct (length (equityCurve st) =? 0); [done|].
  simpl. by intros [= <-].
Qed.

Lemma runLoop_consistent : consistent st.
Proof.
  apply consistent_loop. unfold consistent. simpl. done.
Qed.

Lemma runLoop_curve_dates :
  Point.date <$> equityCurve st = (simulatedWeeks allDates).*2.
Proof.
  unfold st, runLoop. by rewrite loop_curve_dates.
Qed.

Lemma weeks_NoDup : NoDup (weeks allDates).*2.
Proof.
  rewrite weeks_trade_dates.
  apply increasing_NoDup, (increasing_sublist _ allDates).
  - destruct allDates; [done|]. by apply sublist_cons.
  - apply commonDates_increasing.
Qed.

(** The record kept under the trade date of a simulated week is the one
    the week computed, if any. *)
Lemma runLoop_trades_week (rankDate tradeDate : string) :
  (rankDate, tradeDate) ∈ simulatedWeeks allDates →
  tradesByDate st !! tradeDate
  = weekTrade processedData stockData rankDate tradeDate.
Proof.
  unfold simulatedWeeks. rewrite elem_of_List_filter. simpl.
  intros [Hweek Hcut]. apply negb_true_iff in Hcut.
  unfold st, runLoop.
  rewrite (loop_trades_week _ _ _ _ rankDate) by (apply weeks_NoDup || done).
  rewrite Hcut. simpl. rewrite lookup_empty.
  by destruct (weekTrade _ _ _ _).
Qed.

(** Every record kept was stored by a simulated week. *)
Lemma runLoop_trades_origin (tradeDate : string) (trade : Trade.t) :
  tradesByDate st !! tradeDate = Some trade →
  ∃ rankDate,
    (rankDate, tradeDate) ∈ simulatedWeeks allDates
    ∧ weekTrade processedData stockData rankDate tradeDate = Some trade.
Proof.
  intros Htrade.
  destruct (decide (tradeDate ∈ (weeks allDates).*2)) as [Hin|Hout].
  - apply list_elem_of_fmap in Hin as ([rankDate d] & -> & Hin). simpl in *.
    exists rankDate.
    pose proof Htrade as Hcopy. unfold st, runLoop in Hcopy.
    rewrite (loop_trades_week _ _ _ _ rankDate) in Hcopy
      by (apply weeks_NoDup || done).
    simpl in Hcopy. rewrite lookup_empty in Hcopy.
    destruct (dateBefore d cutoff) eqn:Hcut; [done|].
    assert ((rankDate, d) ∈ simulatedWeeks allDates) as Hsim.
    { unfold simulatedWeeks. apply elem_of_List_filter. simpl.
      by rewrite Hcut. }
    split; [done|]. by rewrite <- runLoop_trades_week.
  - unfold st, runLoop in Htrade. rewrite loop_trades_other in Htrade by done.
    simpl in Htrade. by rewrite lookup_empty in Htrade.
Qed.

End Run.

(** The date and the return of the curve entries, week by week: the return
    is that of the stored record, or 0 when the week stored none. *)
Lemma loop_curve_returns (processedData : list MacroRow.t)
    (stockData : list StockRow.t) (ws : list (string * string))
    (st : LoopState) :
  (λ pt, (Point.date pt, Point.ret pt))
    <$> equityCurve (foldl (simulateWeek processedData stockData) st ws)
  = ((λ pt, (Point.date pt, Point.ret pt)) <$> equityCurve st)
    ++ ((λ week : string * string,
           (week.2,
            default 0%Q
              (Trade.weeklyRet
                 <$> weekTrade processedData stockData week.1 week.2)))
        <$> List.filter (λ week, negb (dateBefore week.2 cutoff)) ws).
Proof.
  revert st. induction ws as [|[rankDate tradeDate] ws IH]; intros st; simpl.
  - by rewrite app_nil_r.
  - rewrite IH. unfold simulateWeek.
    destruct (dateBefore tradeDate cutoff); simpl; [done|].
    destruct (weekTrade _ _ _ _) as [t|]; simpl;
      by rewrite fmap_app, <- app_assoc.
Qed.

(** The positions of a stored record are the surviving candidates of its
    week, in order, each with the weight of its book. *)
Lemma weekTrade_candidates (processedData : list MacroRow.t)
    (stockData : list StockRow.t) (rankDate tradeDate : string)
    (trade : Trade.t) :
  weekTrade processedData stockData rankDate tradeDate = Some trade →
  ∃ config,
    configFor (Trade.regime trade) = Some config
    ∧ let '(longCandidates, shortCandidates) :=
        weekCandidates stockData config rankDate tradeDate in
      Trade.longs trade
      = positions (0.5 / Qnat (length longCandidates)) longCandidates
      ∧ Trade.shorts trade
        = positions (- (0.5 / Qnat (length shortCandidates))) shortCandidates.
Proof.
  unfold weekTrade.
  destruct (regimeByDate processedData !! tradeDate) as [regime|]; [|done].
  simpl. destruct (configFor regime) as [config|] eqn:Hconfig; [|done].
  simpl. intros Htrade. exists config. revert Htrade. unfold weekCandidates.
  generalize (bookCandidates (default [] (stocksByDate stockData !! rankDate))
                (todayRets stockData tradeDate) bestFirst (Config.long config)).
  generalize (bookCandidates (default [] (stocksByDate stockData !! rankDate))
                (todayRets stockData tradeDate) worstFirst (Config.short config)).
  intros S L. destruct (length L + length S =? 0); [done|].
  intros [= <-]. simpl. split; [done|]. split.
  - destruct L; reflexivity.
  - destruct S; reflexivity.
Qed.

(** The return recorded for a simulated week whose regime is configured:
    the weighted sum over the surviving candidates of both books (0 when
    there is none). *)
Lemma weekTrade_return (processedData : list MacroRow.t)
    (stockData : list StockRow.t) (rankDate tradeDate : string)
    (regime : number) (config : Config.t) :
  regimeByDate processedData !! tradeDate = Some regime →
  configFor regime = Some config →
  let '(longCandidates, shortCandidates) :=
    weekCandidates stockData config rankDate tradeDate in
  (default 0 (Trade.weeklyRet
                <$> weekTrade processedData stockData rankDate tradeDate)
   == Qsum ((λ pos, Position.weight pos * Position.stockRet pos)
            <$> positions (0.5 / Qnat (length longCandidates)) longCandidates
                ++ positions (- (0.5 / Qnat (length shortCandidates)))
                     shortCandidates))%Q.
Proof.
  intros Hregime Hconfig. unfold weekTrade. rewrite Hregime. simpl.
  rewrite Hconfig. simpl. unfold weekCandidates.
  generalize (bookCandidates (default [] (stocksByDate stockData !! rankDate))
                (todayRets stockData tradeDate) bestFirst (Config.long config)).
  generalize (bookCandidates (default [] (stocksByDate stockData !! rankDate))
                (todayRets stockData tradeDate) worstFirst (Config.short config)).
  intros S L. destruct (Nat.eqb_spec (length L + length S) 0) as [Hnone|Hsome].
  - destruct L; [|simpl in Hnone; lia]. destruct S; [|simpl in Hnone; lia].
    reflexivity.
  - cbn [default fmap option_fmap option_map Trade.weeklyRet].
    rewrite foldl_pnl, Qplus_0_l.
    replace (positions (if 0 <? length L then 0.5 / Qnat (length L) else 0) L)
      with (positions (0.5 / Qnat (length L)) L) by (by destruct L).
    replace (positions (- (if 0 <? length S then 0.5 / Qnat (length S) else 0)) S)
      with (positions (- (0.5 / Qnat (length S))) S) by (by destruct S).
    apply Qeq_refl_eq. unfold id. f_equal.
    apply Forall_fmap_ext_1, Forall_app. split.
    + eapply Forall_impl; [apply positions_spec|]. by intros pos [_ ->].
    + eapply Forall_impl; [apply positions_spec|]. by intros pos [_ ->].
Qed.

(** C6: in every simulated week whose regime is configured, the weekly
    return on the equity curve is the sum, over the surviving candidates of
    both books, of weight times trade-date stock return, each of the
    nL >= 1 long candidates weighing 0.5 / nL and each of the nS >= 1 short
    candidates -0.5 / nS.  In the trade record of the week each non-empty
    book therefore sums to 0.5 in magnitude, and when one book is empty the
    other keeps its weights: the gross exposure is 0.5. *)
Theorem C6_weekly_books_balanced (previous : option BacktestResult)
    (processedData : list MacroRow.t) (sectorData : list SectorRow.t)
    (stockData : list StockRow.t) (result : BacktestResult) :
  backtest (runBacktest previous (Some processedData) (Some sectorData)
              (Some stockData)) = Some result →
  let allDates := commonDates processedData sectorData stockData in
  (∀ rankDate tradeDate regime config,
     (rankDate, tradeDate) ∈ simulatedWeeks allDates →
     regimeByDate processedData !! tradeDate = Some regime →
     configFor regime = Some config →
     let '(longCandidates, shortCandidates) :=
       weekCandidates stockData config rankDate tradeDate in
     ∃ weeklyRet,
       (tradeDate, weeklyRet)
         ∈ (λ pt, (Point.date pt, Point.ret pt)) <$> resultCurve result
       ∧ (weeklyRet
          == Qsum ((λ pos, Position.weight pos * Position.stockRet pos)
                   <$> positions (0.5 / Qnat (length longCandidates))
                         longCandidates
                       ++ positions (- (0.5 / Qnat (length shortCandidates)))
                            shortCandidates))%Q)
  ∧ map_Forall
      (λ tradeDate trade,
         balancedBooks (todayRets stockData tradeDate) trade
         ∧ ∃ rankDate config,
             (rankDate, tradeDate) ∈ simulatedWeeks allDates
             ∧ configFor (Trade.regime trade) = Some config
             ∧ let '(longCandidates, shortCandidates) :=
                 weekCandidates stockData config rankDate tradeDate in
               Trade.longs trade
               = positions (0.5 / Qnat (length longCandidates)) longCandidates
               ∧ Trade.shorts trade
                 = positions (- (0.5 / Qnat (length shortCandidates)))
                     shortCandidates)
      (resultTrades result).
Proof.
  intros Hrun allDates.
  apply runBacktest_result in Hrun as (Hcurve & _ & Htrades & _).
  fold allDates in Hcurve, Htrades. split.
  - intros rankDate tradeDate regime config Hweek Hregime Hconfig.
    pose proof (weekTrade_return processedData stockData rankDate tradeDate
                  regime config Hregime Hconfig) as Hret.
    destruct (weekCandidates stockData config rankDate tradeDate) as [L S].
    eexists. split; [|exact Hret].
    rewrite Hcurve. unfold runLoop. rewrite loop_curve_returns. simpl.
    apply list_elem_of_fmap. by exists (rankDate, tradeDate).
  - intros tradeDate trade Htrade. rewrite Htrades in Htrade.
    apply runLoop_trades_origin in Htrade as (rankDate & Hsim & Hweek).
    split.
    + by apply weekTrade_spec in Hweek as (_ & _ & _ & Hbooks).
    + apply weekTrade_candidates in Hweek as (config & Hconfig & Hbooks).
      by exists rankDate, config.
Qed.

(** C7: the equity curve has one entry per simulated week, in strictly
    increasing date order; entry i compounds the previous equity (the
    initial capital for i = 0) by 1 + the weekly return of week i; a week
    of return 0 leaves the equity unchanged; and the first common date is
    never a trade date. *)
Theorem C7_equity_curve_compounds (previous : option BacktestResult)
    (processedData : list MacroRow.t) (sectorData : list SectorRow.t)
    (stockData : list StockRow.t) (result : BacktestResult) :
  backtest (runBacktest previous (Some processedData) (Some sectorData)
              (Some stockData)) = Some result →
  let allDates := commonDates processedData sectorData stockData in
  let st := runLoop processedData stockData allDates in
  let curve := resultCurve result in
  curve = equityCurve st
  ∧ Point.date <$> curve = (simulatedWeeks allDates).*2
  ∧ increasing (Point.date <$> curve)
  ∧ weeklyReturns st = Point.ret <$> curve
  ∧ (∀ i pt, curve !! i = Some pt →
       (Point.equity pt == equityBefore curve i * (1 + Point.ret pt))%Q)
  ∧ (∀ i pt, curve !! i = Some pt → (Point.ret pt == 0)%Q →
       (Point.equity pt == equityBefore curve i)%Q)
  ∧ (∀ first, head allDates = Some first → first ∉ Point.date <$> curve).
Proof.
  intros Hrun allDates st curve.
  apply runBacktest_result in Hrun as (Hcurve & _).
  fold allDates st curve in Hcurve.
  pose proof (runLoop_consistent processedData sectorData stockData)
    as (_ & Hrets & Hcomp).
  pose proof (runLoop_curve_dates processedData sectorData stockData) as Hdates.
  fold allDates st in Hrets, Hcomp, Hdates. rewrite <- Hcurve in *.
  pose proof (commonDates_increasing processedData sectorData stockData) as Hinc.
  fold allDates in Hinc.
  assert (Hsub : Point.date <$> curve `sublist_of` tail allDates).
  { rewrite Hdates. apply simulatedWeeks_sublist. }
  split; [done|]. split; [done|]. split.
  { apply (increasing_sublist _ allDates); [|done].
    etrans; [exact Hsub|]. destruct allDates; [done|]. by apply sublist_cons. }
  split; [done|]. split.
  { intros i pt Hi. by apply compounds_lookup. }
  split.
  { intros i pt Hi Hzero.
    rewrite (compounds_lookup curve i pt Hcomp Hi), Hzero. ring. }
  intros first Hfirst Hin.
  destruct allDates as [|d0 rest]; [done|]. simpl in *.
  injection Hfirst as ->.
  apply increasing_NoDup, NoDup_cons in Hinc as [Hfresh _].
  apply Hfresh. by eapply elem_of_sublist.
Qed.

(** A week with a regime, a configuration and at least one surviving
    candidate is traded: its record holds the date, the regime and the two
    books built from the candidates.  A week without candidates is not. *)
Lemma weekTrade_traded (processedData : list MacroRow.t)
    (stockData : list StockRow.t) (rankDate tradeDate : string)
    (regime : number) (config : Config.t) :
  regimeByDate processedData !! tradeDate = Some regime →
  configFor regime = Some config →
  let '(longCandidates, shortCandidates) :=
    weekCandidates stockData config rankDate tradeDate in
  (1 ≤ length longCandidates + length shortCandidates →
   ∃ trade,
     weekTrade processedData stockData rankDate tradeDate = Some trade
     ∧ Trade.date trade = tradeDate
     ∧ Trade.regime trade = regime
     ∧ Trade.longs trade
       = positions (0.5 / Qnat (length longCandidates)) longCandidates
     ∧ Trade.shorts trade
       = positions (- (0.5 / Qnat (length shortCandidates))) shortCandidates)
  ∧ (length longCandidates + length shortCandidates = 0 →
     weekTrade processedData stockData rankDate tradeDate = None).
Proof.
  intros Hregime Hconfig. unfold weekTrade. rewrite Hregime. simpl.
  rewrite Hconfig. simpl. unfold weekCandidates.
  generalize (bookCandidates (default [] (stocksByDate stockData !! rankDate))
                (todayRets stockData tradeDate) bestFirst (Config.long config)).
  generalize (bookCandidates (default [] (stocksByDate stockData !! rankDate))
                (todayRets stockData tradeDate) worstFirst (Config.short config)).
  intros S L. split.
  - intros Hsome.
    destruct (Nat.eqb_spec (length L + length S) 0) as [Hnone|_]; [lia|].
    eexists. split; [reflexivity|]. simpl.
    split; [done|]. split; [done|]. split.
    + destruct L; reflexivity.
    + destruct S; reflexivity.
  - intros Hnone. by rewrite Hnone.
Qed.

(** A week is not traded when it has no regime, no configuration for its
    regime, or no surviving candidate. *)
Lemma weekTrade_untraded (processedData : list MacroRow.t)
    (stockData : list StockRow.t) (rankDate tradeDate : string) :
  (∀ regime config,
     regimeByDate processedData !! tradeDate = Some regime →
     configFor regime = Some config →
     let '(longCandidates, shortCandidates) :=
       weekCandidates stockData config rankDate tradeDate in
     length longCandidates + length shortCandidates = 0) →
  weekTrade processedData stockData rankDate tradeDate = None.
Proof.
  intros Hnone.
  destruct (regimeByDate processedData !! tradeDate) as [regime|] eqn:Hregime;
    [|unfold weekTrade; by rewrite Hregime].
  destruct (configFor regime) as [config|] eqn:Hconfig;
    [|unfold weekTrade; rewrite Hregime; simpl; by rewrite Hconfig].
  specialize (Hnone regime config eq_refl Hconfig).
  pose proof (weekTrade_traded processedData stockData rankDate tradeDate
                regime config Hregime Hconfig) as Htraded.
  destruct (weekCandidates stockData config rankDate tradeDate) as [L S].
  by apply Htraded.
Qed.

(** C9 (amended): the backtest stores one trade record, under its trade
    date, for each simulated week that has a sector configuration for its
    regime and at least one surviving candidate, and for no other date; the
    record carries the date, the regime, the two books built from the
    surviving candidates, and the weekly return of that week's curve
    entry.  The weeks recorded with return 0 for lack of a regime, of a
    configuration or of candidates are on the equity curve but have no
    trade record. *)
Theorem C9_trade_records_of_traded_weeks (previous : option BacktestResult)
    (processedData : list MacroRow.t) (sectorData : list SectorRow.t)
    (stockData : list StockRow.t) (result : BacktestResult) :
  backtest (runBacktest previous (Some processedData) (Some sectorData)
              (Some stockData)) = Some result →
  let allDates := commonDates processedData sectorData stockData in
  Point.date <$> resultCurve result = (simulatedWeeks allDates).*2
  ∧ (∀ rankDate tradeDate,
       (rankDate, tradeDate) ∈ simulatedWeeks allDates →
       resultTrades result !! tradeDate
       = weekTrade processedData stockData rankDate tradeDate)
  ∧ (∀ tradeDate trade,
       resultTrades result !! tradeDate = Some trade →
       Trade.date trade = tradeDate
       ∧ regimeByDate processedData !! tradeDate = Some (Trade.regime trade)
       ∧ is_Some (configFor (Trade.regime trade))
       ∧ 1 ≤ length (Trade.longs trade) + length (Trade.shorts trade)
       ∧ (tradeDate, Trade.weeklyRet trade)
           ∈ (λ pt, (Point.date pt, Point.ret pt)) <$> resultCurve result)
  ∧ (∀ rankDate tradeDate regime config,
       (rankDate, tradeDate) ∈ simulatedWeeks allDates →
       regimeByDate processedData !! tradeDate = Some regime →
       configFor regime = Some config →
       let '(longCandidates, shortCandidates) :=
         weekCandidates stockData config rankDate tradeDate in
       1 ≤ length longCandidates + length shortCandidates →
       ∃ trade,
         resultTrades result !! tradeDate = Some trade
         ∧ Trade.date trade = tradeDate
         ∧ Trade.regime trade = regime
         ∧ Trade.longs trade
           = positions (0.5 / Qnat (length longCandidates)) longCandidates
         ∧ Trade.shorts trade
           = positions (- (0.5 / Qnat (length shortCandidates)))
               shortCandidates
         ∧ (tradeDate, Trade.weeklyRet trade)
             ∈ (λ pt, (Point.date pt, Point.ret pt)) <$> resultCurve result)
  ∧ (∀ rankDate tradeDate,
       (rankDate, tradeDate) ∈ simulatedWeeks allDates →
       (∀ regime config,
          regimeByDate processedData !! tradeDate = Some regime →
          configFor regime = Some config →
          let '(longCandidates, shortCandidates) :=
            weekCandidates stockData config rankDate tradeDate in
          length longCandidates + length shortCandidates = 0) →
       resultTrades result !! tradeDate = None
       ∧ (tradeDate, 0%Q)
           ∈ (λ pt, (Point.date pt, Point.ret pt)) <$> resultCurve result).
Proof.
  intros Hrun allDates.
  apply runBacktest_result in Hrun as (Hcurve & _ & Htrades & _).
  fold allDates in Hcurve, Htrades. rewrite Hcurve, Htrades.
  assert (Hpoint : ∀ rankDate tradeDate,
            (rankDate, tradeDate) ∈ simulatedWeeks allDates →
            (tradeDate,
             default 0%Q
               (Trade.weeklyRet
                  <$> weekTrade processedData stockData rankDate tradeDate))
            ∈ (λ pt, (Point.date pt, Point.ret pt))
                <$> equityCurve (runLoop processedData stockData allDates)).
  { intros rankDate tradeDate Hweek.
    unfold runLoop. rewrite loop_curve_returns. simpl.
    apply list_elem_of_fmap. by exists (rankDate, tradeDate). }
  assert (Hrecord : ∀ rankDate tradeDate,
            (rankDate, tradeDate) ∈ simulatedWeeks allDates →
            tradesByDate (runLoop processedData stockData allDates) !! tradeDate
            = weekTrade processedData stockData rankDate tradeDate).
  { intros rankDate tradeDate Hweek. by apply runLoop_trades_week. }
  split; [apply runLoop_curve_dates|]. split; [exact Hrecord|].
  split.
  { intros tradeDate trade Htrade.
    apply runLoop_trades_origin in Htrade as (rankDate & Hweek & Htrade).
    pose proof (weekTrade_spec _ _ _ _ _ Htrade)
      as (Hdate & Hregime & Hconfig & Hbooks).
    destruct Hbooks as (Hsome & _).
    repeat (split; [done|]).
    specialize (Hpoint rankDate tradeDate Hweek). by rewrite Htrade in Hpoint. }
  split.
  { intros rankDate tradeDate regime config Hweek Hregime Hconfig.
    pose proof (weekTrade_traded processedData stockData rankDate tradeDate
                  regime config Hregime Hconfig) as Htraded.
    destruct (weekCandidates stockData config rankDate tradeDate) as [L S].
    intros Hsome.
    destruct Htraded as [Htraded _].
    destruct (Htraded Hsome) as (trade & Htrade & Hdate & Hreg & Hl & Hs).
    exists trade. rewrite (Hrecord rankDate tradeDate Hweek).
    repeat (split; [done|]).
    specialize (Hpoint rankDate tradeDate Hweek). by rewrite Htrade in Hpoint. }
  intros rankDate tradeDate Hweek Hnone.
  apply weekTrade_untraded in Hnone.
  rewrite (Hrecord rankDate tradeDate Hweek).
  split; [done|].
  specialize (Hpoint rankDate tradeDate Hweek). by rewrite Hnone in Hpoint.
Qed.

Lemma C6_weekly_books_witness :
  ∃ result,
    backtest (runBacktest None (Some Inputs.macro) (Some Inputs.sectors)
                (Some Inputs.stocks)) = Some result
    ∧ let allDates := commonDates Inputs.macro Inputs.sectors Inputs.stocks in
      (∀ rankDate tradeDate regime config,
         (rankDate, tradeDate) ∈ simulatedWeeks allDates →
         regimeByDate Inputs.macro !! tradeDate = Some regime →
         configFor regime = Some config →
         let '(longCandidates, shortCandidates) :=
           weekCandidates Inputs.stocks config rankDate tradeDate in
         ∃ weeklyRet,
           (tradeDate, weeklyRet)
             ∈ (λ pt, (Point.date pt, Point.ret pt)) <$> resultCurve result
           ∧ (weeklyRet
              == Qsum ((λ pos, Position.weight pos * Position.stockRet pos)
                       <$> positions (0.5 / Qnat (length longCandidates))
                             longCandidates
                           ++ positions
                                (- (0.5 / Qnat (length shortCandidates)))
                                shortCandidates))%Q)
      ∧ map_Forall
          (λ tradeDate trade,
             balancedBooks (todayRets Inputs.stocks tradeDate) trade
             ∧ ∃ rankDate config,
                 (rankDate, tradeDate) ∈ simulatedWeeks allDates
                 ∧ configFor (Trade.regime trade) = Some config
                 ∧ let '(longCandidates, shortCandidates) :=
                     weekCandidates Inputs.stocks config rankDate tradeDate in
                   Trade.longs trade
                   = positions (0.5 / Qnat (length longCandidates))
                       longCandidates
                   ∧ Trade.shorts trade
                     = positions (- (0.5 / Qnat (length shortCandidates)))
                         shortCandidates)
          (resultTrades result).
Proof.
  eexists. split; [vm_compute; reflexivity|].
  apply (C6_weekly_books_balanced None Inputs.macro Inputs.sectors Inputs.stocks).
  vm_compute. reflexivity.
Defined.

Lemma C7_equity_curve_witness :
  ∃ result,
    backtest (runBacktest None (Some Inputs.macro) (Some Inputs.sectors)
                (Some Inputs.stocks)) = Some result
    ∧ let allDates := commonDates Inputs.macro Inputs.sectors Inputs.stocks in
      let st := runLoop Inputs.macro Inputs.stocks allDates in
      let curve := resultCurve result in
      curve = equityCurve st
      ∧ Point.date <$> curve = (simulatedWeeks allDates).*2
      ∧ increasing (Point.date <$> curve)
      ∧ weeklyReturns st = Point.ret <$> curve
      ∧ (∀ i pt, curve !! i = Some pt →
           (Point.equity pt == equityBefore curve i * (1 + Point.ret pt))%Q)
      ∧ (∀ i pt, curve !! i = Some pt → (Point.ret pt == 0)%Q →
           (Point.equity pt == equityBefore curve i)%Q)
      ∧ (∀ first, head allDates = Some first → first ∉ Point.date <$> curve).
Proof.
  eexists. split; [vm_compute; reflexivity|].
  apply (C7_equity_curve_compounds None Inputs.macro Inputs.sectors Inputs.stocks).
  vm_compute. reflexivity.
Defined.

(** C9, as stated, fails: the weeks traded on 2015-01-09 and 2015-01-16
    have no surviving candidate; they are on the equity curve with return
    0, and no trade record is stored for them. *)
Lemma C9_zero_week_without_record :
  let fx := runBacktest None (Some Inputs.macro) (Some Inputs.sectors)
              (Some Inputs.stocks) in
  ((λ r, Point.date <$> resultCurve r) <$> backtest fx)
  = Some ["2015-01-02"; "2015-01-09"; "2015-01-16"; "2015-01-23"]
  ∧ ((λ r, Qred ∘ Point.ret <$> resultCurve r) <$> backtest fx)
    = Some [(1 # 400)%Q; 0%Q; 0%Q; (1 # 100)%Q]
  ∧ ((λ r, resultTrades r !! "2015-01-09") <$> backtest fx) = Some None
  ∧ ((λ r, resultTrades r !! "2015-01-16") <$> backtest fx) = Some None
  ∧ tradeDates <$> backtest fx = Some ["2015-01-02"; "2015-01-23"].
Proof. vm_compute. repeat split. Qed.

Lemma C9_trade_records_witness :
  ∃ result,
    backtest (runBacktest None (Some Inputs.macro) (Some Inputs.sectors)
                (Some Inputs.stocks)) = Some result
    ∧ (let allDates := commonDates Inputs.macro Inputs.sectors Inputs.stocks in
       Point.date <$> resultCurve result = (simulatedWeeks allDates).*2
       ∧ (∀ rankDate tradeDate,
            (rankDate, tradeDate) ∈ simulatedWeeks allDates →
            resultTrades result !! tradeDate
            = weekTrade Inputs.macro Inputs.stocks rankDate tradeDate)
       ∧ (∀ tradeDate trade,
            resultTrades result !! tradeDate = Some trade →
            Trade.date trade = tradeDate
            ∧ regimeByDate Inputs.macro !! tradeDate = Some (Trade.regime trade)
            ∧ is_Some (configFor (Trade.regime trade))
            ∧ 1 ≤ length (Trade.longs trade) + length (Trade.shorts trade)
            ∧ (tradeDate, Trade.weeklyRet trade)
                ∈ (λ pt, (Point.date pt, Point.ret pt)) <$> resultCurve result)
       ∧ (∀ rankDate tradeDate regime config,
            (rankDate, tradeDate) ∈ simulatedWeeks allDates →
            regimeByDate Inputs.macro !! tradeDate = Some regime →
            configFor regime = Some config →
            let '(longCandidates, shortCandidates) :=
              weekCandidates Inputs.stocks config rankDate tradeDate in
            1 ≤ length longCandidates + length shortCandidates →
            ∃ trade,
              resultTrades result !! tradeDate = Some trade
              ∧ Trade.date trade = tradeDate
              ∧ Trade.regime trade = regime
              ∧ Trade.longs trade
                = positions (0.5 / Qnat (length longCandidates)) longCandidates
              ∧ Trade.shorts trade
                = positions (- (0.5 / Qnat (length shortCandidates)))
                    shortCandidates
              ∧ (tradeDate, Trade.weeklyRet trade)
                  ∈ (λ pt, (Point.date pt, Point.ret pt))
                      <$> resultCurve result)
       ∧ (∀ rankDate tradeDate,
            (rankDate, tradeDate) ∈ simulatedWeeks allDates →
            (∀ regime config,
               regimeByDate Inputs.macro !! tradeDate = Some regime →
               configFor regime = Some config →
               let '(longCandidates, shortCandidates) :=
                 weekCandidates Inputs.stocks config rankDate tradeDate in
               length longCandidates + length shortCandidates = 0) →
            resultTrades result !! tradeDate = None
            ∧ (tradeDate, 0%Q)
                ∈ (λ pt, (Point.date pt, Point.ret pt)) <$> resultCurve result))
    ∧ (∃ trade,
         resultTrades result !! "2015-01-02" = Some trade
         ∧ Trade.date trade = "2015-01-02"
         ∧ Trade.regime trade = Finite 0
         ∧ Position.ticker <$> Trade.longs trade = ["AAPL"; "MSFT"]
         ∧ Position.ticker <$> Trade.shorts trade = ["DUK"]
         ∧ Qred (Trade.weeklyRet trade) = (1 # 400)%Q)
    ∧ resultTrades result !! "2015-01-09" = None.
Proof.
  eexists. split; [vm_compute; reflexivity|]. split.
  - apply (C9_trade_records_of_traded_weeks None Inputs.macro Inputs.sectors
             Inputs.stocks).
    vm_compute. reflexivity.
  - split; [|vm_compute; reflexivity].
    eexists. split; [vm_compute; reflexivity|]. vm_compute. repeat split.
Defined.

(** * Further properties of the code *)

(** ** Class counts and the majority class *)

Lemma arrayIndex_num_of_nat (k : nat) : arrayIndex (Some (num_of_nat k)) = Some k.
Proof.
  unfold arrayIndex, num_of_nat. rewrite Qfloor_Z.
  rewrite Qeq_bool_refl. simpl.
  destruct (Z.leb_spec 0 (Z.of_nat k)); [|lia]. by rewrite Nat2Z.id.
Qed.

(** The rows returned by the labeller carry a class id. *)
Lemma labelRegimes_regimeLabelled (data : list Row) :
  regimeLabelled "regime" (labelRegimes data) = true.
Proof.
  unfold regimeLabelled, labelRegimes. apply forallb_forall. intros d Hd.
  apply list_elem_of_In, list_elem_of_fmap in Hd as (row & -> & _).
  rewrite lookup_insert_eq, arrayIndex_num_of_nat.
  apply Nat.ltb_lt, labelRegime_range.
Qed.

Lemma foldl_increment_lookup (target : string) (data : list Row)
    (acc : list nat) (c : nat) :
  foldl (λ counts d, increment counts (d !! target)) acc data !! c
  = (λ n, n + labelCount target c data) <$> acc !! c.
Proof.
  revert acc. induction data as [|d data IH]; intros acc; simpl.
  - unfold labelCount. simpl. destruct (acc !! c); simpl; [f_equal; lia|done].
  - rewrite IH. unfold labelCount, increment. simpl.
    destruct (arrayIndex (d !! target)) as [k|] eqn:Hk.
    + destruct (decide (k = c)) as [->|Hne].
      * rewrite list_lookup_alter_eq, bool_decide_eq_true_2 by done.
        destruct (acc !! c); simpl; [f_equal; lia|done].
      * rewrite list_lookup_alter_ne, bool_decide_eq_false_2 by congruence.
        done.
    + by rewrite bool_decide_eq_false_2.
Qed.

(** The four counters count the rows of classes 0, 1, 2 and 3. *)
Lemma classCounts_labelCount (data : list Row) (target : string) :
  classCounts data target = (λ c, labelCount target c data) <$> [0; 1; 2; 3].
Proof.
  apply list_eq. intros c. unfold classCounts. rewrite foldl_increment_lookup.
  do 4 (destruct c as [|c]; [reflexivity|]). reflexivity.
Qed.

Lemma labelCount_total (target : string) (data : list Row) :
  regimeLabelled target data = true →
  labelCount target 0 data + labelCount target 1 data
  + labelCount target 2 data + labelCount target 3 data = length data.
Proof.
  unfold labelCount, regimeLabelled.
  induction data as [|d data IH]; simpl; intros Hok; [done|].
  apply andb_prop in Hok as [Hd Hok]. specialize (IH Hok).
  destruct (arrayIndex (d !! target)) as [k|]; [|done].
  apply Nat.ltb_lt in Hd.
  destruct k as [|[|[|[|k]]]]; simpl; lia.
Qed.

Lemma indexOf_first (counts : list nat) (x i : nat) :
  indexOf counts x = Some i →
  counts !! i = Some x ∧ ∀ j, j < i → counts !! j ≠ Some x.
Proof.
  revert i. induction counts as [|c counts IH]; intros i; simpl; [done|].
  destruct (Nat.eqb_spec c x) as [->|Hne].
  - intros [= <-]. split; [done|]. intros j Hj. lia.
  - destruct (indexOf counts x) as [i'|]; [|done]. simpl. intros [= <-].
    destruct (IH i' eq_refl) as [Hi Hfirst]. split; [done|].
    intros [|j] Hj; simpl; [congruence|]. apply Hfirst. lia.
Qed.

(** X1: on rows that carry class ids, the class predicted by a leaf has
    the largest row count, and every class of a smaller id has strictly
    fewer rows: ties go to the lowest class id. *)
Theorem majorityClass_is_majority (data : list Row) (target : string) (c : nat) :
  regimeLabelled target data = true →
  c < 4 →
  majorityClass data target < 4
  ∧ labelCount target c data ≤ labelCount target (majorityClass data target) data
  ∧ (c < majorityClass data target →
     labelCount target c data < labelCount target (majorityClass data target) data).
Proof.
  intros _ Hc. unfold majorityClass.
  pose proof (classCounts_length data target) as Hlen.
  destruct (indexOf_Math_max (classCounts data target)) as (m & Hm & Hmlt).
  { intros Hnil. rewrite Hnil in Hlen. discriminate. }
  rewrite Hm. simpl. rewrite Hlen in Hmlt.
  apply indexOf_first in Hm as [Hmax Hfirst].
  assert (Hcount : ∀ k, k < 4 →
            classCounts data target !! k = Some (labelCount target k data)).
  { intros k Hk. rewrite classCounts_labelCount.
    do 4 (destruct k as [|k]; [reflexivity|]). lia. }
  rewrite (Hcount m Hmlt) in Hmax. injection Hmax as Hmax.
  assert (Hle : labelCount target c data ≤ Math_max (classCounts data target)).
  { apply Math_max_ge. apply list_elem_of_lookup. exists c. by apply Hcount. }
  split; [done|]. split; [lia|]. intros Hlt.
  specialize (Hfirst c Hlt). rewrite (Hcount c Hc) in Hfirst.
  assert (labelCount target c data ≠ Math_max (classCounts data target))
    by congruence.
  lia.
Qed.

Lemma majorityClass_witness :
  regimeLabelled "regime" Inputs.slowdown20 = true
  ∧ 0 < 4
  ∧ majorityClass Inputs.slowdown20 "regime" < 4
  ∧ labelCount "regime" 0 Inputs.slowdown20
    ≤ labelCount "regime" (majorityClass Inputs.slowdown20 "regime")
        Inputs.slowdown20
  ∧ (0 < majorityClass Inputs.slowdown20 "regime" →
     labelCount "regime" 0 Inputs.slowdown20
     < labelCount "regime" (majorityClass Inputs.slowdown20 "regime")
         Inputs.slowdown20).
Proof.
  split; [vm_compute; reflexivity|]. split; [lia|].
  apply majorityClass_is_majority; [vm_compute; reflexivity|lia].
Defined.

(** ** Gini impurity *)

Lemma calcGini_counts (data : list Row) (target : string) :
  0 < length data →
  let n := Qnat (length data) in
  calcGini data target
  = (1 - (Qnat (labelCount target 0 data) / n) ^ 2
       - (Qnat (labelCount target 1 data) / n) ^ 2
       - (Qnat (labelCount target 2 data) / n) ^ 2
       - (Qnat (labelCount target 3 data) / n) ^ 2)%Q.
Proof.
  intros Hn. unfold calcGini. rewrite classCounts_labelCount. simpl.
  destruct (Nat.ltb_spec 0 (length data)); [reflexivity|lia].
Qed.

Lemma gini_of_counts (a b c d : nat) :
  0 < a + b + c + d →
  let n := Qnat (a + b + c + d) in
  let n2 := Z.of_nat ((a + b + c + d) * (a + b + c + d)) in
  let s2 := Z.of_nat (a * a + b * b + c * c + d * d) in
  (1 - (Qnat a / n) ^ 2 - (Qnat b / n) ^ 2 - (Qnat c / n) ^ 2 - (Qnat d / n) ^ 2
   == inject_Z (n2 - s2) / inject_Z n2)%Q.
Proof.
  intros Hn n n2 s2. pose proof (Qnat_pos _ Hn) as Hpos. fold n in Hpos.
  assert (Hn0 : ¬ (n == 0)%Q).
  { intros H0. rewrite H0 in Hpos. by apply Qlt_irrefl in Hpos. }
  assert (Hn2 : (inject_Z n2 == n * n)%Q).
  { unfold n2, n, Qnat. by rewrite Nat2Z.inj_mul, inject_Z_mult. }
  assert (Hs2 : (inject_Z s2 == Qnat a * Qnat a + Qnat b * Qnat b
                               + Qnat c * Qnat c + Qnat d * Qnat d)%Q).
  { unfold s2, Qnat.
    by rewrite !Nat2Z.inj_add, !Nat2Z.inj_mul, !inject_Z_plus, !inject_Z_mult. }
  unfold Z.sub. rewrite inject_Z_plus, inject_Z_opp, Hn2, Hs2.
  field. exact Hn0.
Qed.

Lemma Qdiv_Z_facts (x y : Z) :
  (0 < y)%Z →
  ((0 <= inject_Z x / inject_Z y)%Q ↔ (0 ≤ x)%Z)
  ∧ ((inject_Z x / inject_Z y <= 3 # 4)%Q ↔ (4 * x ≤ 3 * y)%Z)
  ∧ ((inject_Z x / inject_Z y == 0)%Q ↔ x = 0%Z).
Proof.
  intros Hy. destruct y as [|p|p]; try lia.
  unfold Qle, Qeq, Qdiv, Qmult, Qinv. simpl. repeat split; lia.
Qed.

(** X2: the Gini impurity of an empty row set is 1; on a non-empty set
    of rows that carry class ids it lies between 0 and 3/4, and it is 0
    exactly when all rows have one class. *)
Theorem calcGini_bounds (data : list Row) (target : string) :
  regimeLabelled target data = true →
  calcGini [] target = 1%Q
  ∧ (data ≠ [] →
     (0 <= calcGini data target)%Q
     ∧ (calcGini data target <= 3 # 4)%Q
     ∧ ((calcGini data target == 0)%Q
        ↔ ∃ c, c < 4 ∧ labelCount target c data = length data)).
Proof.
  intros Hok. split; [reflexivity|]. intros Hne.
  assert (Hn : 0 < length data) by (destruct data; [done|simpl; lia]).
  pose proof (labelCount_total target data Hok) as Htotal.
  rewrite (calcGini_counts data target Hn). cbv zeta.
  set (a := labelCount target 0 data) in *.
  set (b := labelCount target 1 data) in *.
  set (c := labelCount target 2 data) in *.
  set (d := labelCount target 3 data) in *.
  rewrite <- Htotal in Hn |- *.
  rewrite (gini_of_counts a b c d Hn). cbv zeta.
  set (n2 := Z.of_nat ((a + b + c + d) * (a + b + c + d))).
  set (s2 := Z.of_nat (a * a + b * b + c * c + d * d)).
  assert (Hn2 : (0 < n2)%Z) by (unfold n2; nia).
  destruct (Qdiv_Z_facts (n2 - s2) n2 Hn2) as (Hnonneg & Hquarter & Hzero).
  split; [|split].
  - apply Hnonneg. unfold n2, s2. nia.
  - apply Hquarter. unfold n2, s2.
    pose proof (Z.square_nonneg (Z.of_nat a - Z.of_nat b)).
    pose proof (Z.square_nonneg (Z.of_nat a - Z.of_nat c)).
    pose proof (Z.square_nonneg (Z.of_nat a - Z.of_nat d)).
    pose proof (Z.square_nonneg (Z.of_nat b - Z.of_nat c)).
    pose proof (Z.square_nonneg (Z.of_nat b - Z.of_nat d)).
    pose proof (Z.square_nonneg (Z.of_nat c - Z.of_nat d)).
    lia.
  - rewrite Hzero. split.
    + intros Hpure.
      assert (a * b = 0 ∧ a * c = 0 ∧ a * d = 0 ∧ b * c = 0 ∧ b * d = 0
              ∧ c * d = 0) as (Hab & Hac & Had & Hbc & Hbd & Hcd)
        by (unfold n2, s2 in Hpure; nia).
      assert (a = a + b + c + d ∨ b = a + b + c + d ∨ c = a + b + c + d
              ∨ d = a + b + c + d) as [Hc|[Hc|[Hc|Hc]]] by nia.
      * exists 0. split; [lia|exact Hc].
      * exists 1. split; [lia|exact Hc].
      * exists 2. split; [lia|exact Hc].
      * exists 3. split; [lia|exact Hc].
    + intros (k & Hk & Hall).
      destruct k as [|[|[|[|k]]]]; [..|lia];
        [fold a in Hall|fold b in Hall|fold c in Hall|fold d in Hall];
        unfold n2, s2; nia.
Qed.

Lemma calcGini_bounds_witness :
  regimeLabelled "regime" Inputs.slowdown20 = true
  ∧ calcGini [] "regime" = 1%Q
  ∧ (Inputs.slowdown20 ≠ [] →
     (0 <= calcGini Inputs.slowdown20 "regime")%Q
     ∧ (calcGini Inputs.slowdown20 "regime" <= 3 # 4)%Q
     ∧ ((calcGini Inputs.slowdown20 "regime" == 0)%Q
        ↔ ∃ c, c < 4
               ∧ labelCount "regime" c Inputs.slowdown20
                 = length Inputs.slowdown20)).
Proof.
  split; [vm_compute; reflexivity|].
  apply calcGini_bounds. vm_compute. reflexivity.
Defined.

(** ** More on the decision-tree trainer *)

(** Induction over the calls of the trainer that keeps the rows each
    node was built from. *)
Lemma trainDecisionTree_rows_invariant (rand : nat → Q)
    (features : list string) (target : string) (maxDepth : nat)
    (P : list Row → tree → Prop) :
  (∀ rows, P rows (majorityLeaf rows target)) →
  (∀ rows selected l r,
     15 ≤ length rows →
     selected ⊆+ features →
     length selected = Nat.min (numFeatures features) (length features) →
     let b :=
       foldl (tryFeature rows target)
             (Best (firstSelected selected) 0 None) selected in
     let lrows := splitLeft rows (bestFeature b) (bestThreshold b) in
     let rrows := splitRight rows (bestFeature b) (bestThreshold b) in
     lrows ≠ [] → rrows ≠ [] → P lrows l → P rrows r →
     P rows (Node (bestFeature b) (bestThreshold b) l r)) →
  ∀ data depth,
    always (P data) (trainDecisionTree rand data features target depth maxDepth).
Proof.
  intros Hleaf Hnode data depth.
  remember (maxDepth - depth) as fuel eqn:Hfuel.
  revert data depth Hfuel.
  induction fuel as [|fuel IH]; intros data depth Hfuel;
    rewrite trainDecisionTree_eq.
  - replace (maxDepth <=? depth) with true by (symmetry; apply Nat.leb_le; lia).
    apply always_ret, Hleaf.
  - destruct (maxDepth <=? depth); [apply always_ret, Hleaf|]. simpl.
    destruct (Nat.ltb_spec (length data) 15) as [|Hsize];
      [apply always_ret, Hleaf|].
    eapply always_bind; [apply selectFeatures_spec|].
    intros selected [Hlen Hsub]. cbv zeta.
    set (b := foldl (tryFeature data target)
                    (Best (firstSelected selected) 0 None) selected).
    destruct (Nat.eqb_spec (length (splitLeft data (bestFeature b)
                                      (bestThreshold b))) 0) as [|Hl];
      [apply always_ret, Hleaf|].
    destruct (Nat.eqb_spec (length (splitRight data (bestFeature b)
                                      (bestThreshold b))) 0) as [|Hr];
      [apply always_ret, Hleaf|].
    simpl.
    eapply always_bind; [apply IH; lia|]. intros l Hpl.
    eapply always_bind; [apply IH; lia|]. intros r Hpr.
    apply always_ret. subst b. apply Hnode; try done.
    + intros Hnil. apply Hl. by rewrite Hnil.
    + intros Hnil. apply Hr. by rewrite Hnil.
Qed.

Lemma tryCut_feature (data : list Row) (target feature : string)
    (values : list Q) (b : best) (pct : Q) :
  bestFeature (tryCut data target feature values b pct) = bestFeature b
  ∨ bestFeature (tryCut data target feature values b pct) = feature.
Proof.
  unfold tryCut. destruct (values !! _); [|by left].
  destruct (_ || _); [by left|]. destruct (improves _ _); [by right|by left].
Qed.

Lemma tryFeature_feature (data : list Row) (target : string) (b : best)
    (feature : string) :
  bestFeature (tryFeature data target b feature) = bestFeature b
  ∨ bestFeature (tryFeature data target b feature) = feature.
Proof.
  unfold tryFeature. destruct (_ =? 0); [by left|].
  generalize (sortBy Qminus (omap (λ d : Row, numeric (d !! feature)) data)).
  intros values. generalize [0.25; 0.5; 0.75]%Q. intros pcts.
  revert b. induction pcts as [|pct pcts IH]; intros b; simpl; [by left|].
  destruct (IH (tryCut data target feature values b pct)) as [->| ->];
    [apply tryCut_feature|by right].
Qed.

Lemma bestFeature_selected (data : list Row) (target : string) (b : best)
    (selected : list string) :
  bestFeature (foldl (tryFeature data target) b selected) = bestFeature b
  ∨ bestFeature (foldl (tryFeature data target) b selected) ∈ selected.
Proof.
  revert b. induction selected as [|f selected IH]; intros b; simpl; [by left|].
  destruct (IH (tryFeature data target b f)) as [->|Hin].
  - destruct (tryFeature_feature data target b f) as [->| ->]; [by left|].
    right. apply list_elem_of_here.
  - right. by apply list_elem_of_further.
Qed.

Lemma trainDecisionTree_split_features (rand : nat → Q) (data : list Row)
    (features : list string) (target : string) (depth maxDepth : nat) :
  features ≠ [] →
  always (λ t, Forall (λ f, f ∈ features) (splitFeatures t))
    (trainDecisionTree rand data features target depth maxDepth).
Proof.
  intros Hne.
  apply (trainDecisionTree_rows_invariant rand features target maxDepth
           (λ _ t, Forall (λ f, f ∈ features) (splitFeatures t))).
  - intros rows. constructor.
  - intros rows selected l r _ Hsub Hlen b _ _ _ _ Hl Hr. simpl.
    constructor; [|by apply Forall_app].
    assert (selected ≠ []) as Hsel.
    { intros ->. unfold numFeatures in Hlen.
      destruct features as [|f0 rest]; [done|].
      cbn [length] in Hlen. lia. }
    assert (bestFeature b ∈ selected) as Hin.
    { destruct (bestFeature_selected rows target
                  (Best (firstSelected selected) 0 None) selected)
        as [Heq|Hin]; [|done].
      fold b in Heq. rewrite Heq. simpl.
      destruct selected; [done|]. apply list_elem_of_here. }
    eapply elem_of_submseteq; done.
Qed.

(** X3: with a non-empty feature list, every internal node of a trained
    tree splits on one of the listed features. *)
Theorem trainDecisionTree_splits_on_features (rand : nat → Q) (data : list Row)
    (features : list string) (target : string) (depth maxDepth s : nat) :
  features ≠ [] →
  Forall (λ f, f ∈ features)
    (splitFeatures
       (trainDecisionTree rand data features target depth maxDepth s).1).
Proof.
  intros Hne. by apply trainDecisionTree_split_features.
Qed.

Lemma trainDecisionTree_splits_witness :
  expectedFeatures ≠ []
  ∧ Forall (λ f, f ∈ expectedFeatures)
      (splitFeatures
         (trainDecisionTree Inputs.cycle Inputs.slowdown20_all expectedFeatures
            "regime" 0 12 0).1).
Proof.
  split; [discriminate|].
  apply trainDecisionTree_splits_on_features. discriminate.
Defined.

Lemma cell_le_gt_exclusive (v : option number) (threshold : Q) :
  cell_le v threshold = true → cell_gt v threshold = false.
Proof.
  unfold cell_le, cell_gt, num_gt, num_lt, num_le.
  destruct v as [[x|]|]; try done. by intros ->.
Qed.

Lemma split_sizes (rows : list Row) (feature : string) (threshold : Q) :
  length (splitLeft rows feature threshold)
  + length (splitRight rows feature threshold) ≤ length rows.
Proof.
  unfold splitLeft, splitRight. induction rows as [|d rows IH]; simpl; [done|].
  destruct (cell_le (d !! feature) threshold) eqn:Hle.
  - rewrite (cell_le_gt_exclusive _ _ Hle). simpl. lia.
  - destruct (cell_gt (d !! feature) threshold); simpl; lia.
Qed.

(** X4: a trained tree has at most as many leaves as there are training
    rows (one leaf when there is none): every internal node splits its rows
    into two non-empty, disjoint parts. *)
Theorem trainDecisionTree_leaves_bounded (rand : nat → Q) (data : list Row)
    (features : list string) (target : string) (depth maxDepth s : nat) :
  leaves (trainDecisionTree rand data features target depth maxDepth s).1
  ≤ Nat.max 1 (length data).
Proof.
  revert s.
  apply (trainDecisionTree_rows_invariant rand features target maxDepth
           (λ rows t, leaves t ≤ Nat.max 1 (length rows))).
  - intros rows. simpl. lia.
  - intros rows selected l r _ _ _ b lrows rrows Hl Hr Hpl Hpr. simpl.
    pose proof (split_sizes rows (bestFeature b) (bestThreshold b)) as Hsz.
    fold lrows rrows in Hsz.
    destruct lrows; [done|]. destruct rrows; [done|]. simpl in *. lia.
Qed.

Lemma allOfClass_counts (target : string) (c k : nat) (data : list Row) :
  allOfClass target c data = true →
  labelCount target k data = if decide (k = c) then length data else 0.
Proof.
  unfold allOfClass, labelCount.
  induction data as [|d data IH]; simpl; intros Hall; [by destruct (decide _)|].
  apply andb_prop in Hall as [Hd Hall]. apply bool_decide_eq_true_1 in Hd.
  specialize (IH Hall). rewrite Hd. destruct (decide (k = c)) as [->|Hne].
  - rewrite bool_decide_eq_true_2 by done. simpl. by rewrite IH.
  - rewrite bool_decide_eq_false_2 by congruence. done.
Qed.

Lemma allOfClass_majority (target : string) (c : nat) (data : list Row) :
  c < 4 → data ≠ [] → allOfClass target c data = true →
  majorityClass data target = c.
Proof.
  intros Hc Hne Hall. unfold majorityClass.
  rewrite classCounts_labelCount. simpl.
  rewrite !(allOfClass_counts target c _ data Hall).
  destruct data as [|d data]; [done|]. simpl length.
  destruct c as [|[|[|[|c]]]]; [..|lia]; simpl; by rewrite Nat.eqb_refl.
Qed.

Lemma allOfClass_filter (target : string) (c : nat) (f : Row → bool)
    (data : list Row) :
  allOfClass target c data = true → allOfClass target c (List.filter f data) = true.
Proof.
  unfold allOfClass. rewrite !forallb_forall. intros Hall d Hd.
  apply List.filter_In in Hd as [Hd _]. by apply Hall.
Qed.

(** X5: trained on a non-empty set of rows that all have class c, a tree
    predicts c at every leaf. *)
Theorem trainDecisionTree_single_class (rand : nat → Q) (data : list Row)
    (features : list string) (target : string) (depth maxDepth s c : nat) :
  c < 4 → data ≠ [] → allOfClass target c data = true →
  Forall (λ p, p = c)
    (leafClasses
       (trainDecisionTree rand data features target depth maxDepth s).1).
Proof.
  intros Hc Hne Hall. revert s.
  pose proof (trainDecisionTree_rows_invariant rand features target maxDepth
    (λ rows t, rows ≠ [] → allOfClass target c rows = true →
               Forall (λ p, p = c) (leafClasses t))) as Hinv.
  intros s. apply Hinv; [| |done..].
  - intros rows Hrows Hrall. simpl. constructor; [|constructor].
    by apply allOfClass_majority.
  - intros rows selected l r _ _ _ b lrows rrows Hl Hr Hpl Hpr Hrows Hrall.
    simpl. apply Forall_app. split.
    + apply Hpl; [done|]. by apply allOfClass_filter.
    + apply Hpr; [done|]. by apply allOfClass_filter.
Qed.

Lemma trainDecisionTree_single_class_witness :
  1 < 4
  ∧ Inputs.slowdown20 ≠ []
  ∧ allOfClass "regime" 1 Inputs.slowdown20 = true
  ∧ Forall (λ p, p = 1)
      (leafClasses
         (trainDecisionTree Inputs.cycle Inputs.slowdown20 ["f"] "regime"
            0 12 0).1).
Proof.
  split; [lia|]. split; [discriminate|]. split; [vm_compute; reflexivity|].
  apply trainDecisionTree_single_class;
    [lia|discriminate|vm_compute; reflexivity].
Defined.

(** ** The forest trainer *)

Lemma arrayFrom_spec {A} (P : A → Prop) (n : nat) (f : Rand A) :
  always P f →
  always (λ xs, length xs = n ∧ Forall P xs) (arrayFrom n f).
Proof.
  intros Hf. induction n as [|n IH]; simpl.
  - apply always_ret. by split.
  - eapply always_bind; [exact Hf|]. intros x Hx.
    eapply always_bind; [exact IH|]. intros xs [Hlen Hxs].
    apply always_ret. split; [simpl; lia|by constructor].
Qed.

(** X6: with draws in [0, 1), a bootstrap sample of a non-empty table has
    as many rows as the table, each of them a row of the table. *)
Theorem bootstrap_sample_of_rows (rand : nat → Q) (data : list Row) (s : nat) :
  unitDraws rand → data ≠ [] →
  let bootstrap := (arrayFrom (length data) (drawRow rand data) s).1 in
  length bootstrap = length data ∧ Forall (λ d, d ∈ data) bootstrap.
Proof.
  intros Hunit Hne. cbv zeta. revert s.
  apply (arrayFrom_spec (λ d, d ∈ data)). intros s.
  change (drawRow rand data s).1
    with (default (∅ : Row)
            (data !! Z.to_nat (Qfloor (rand s * Qnat (length data))))).
  destruct (Hunit s) as [Hlo Hhi].
  assert (0 < length data) as Hn by (destruct data; [done|simpl; lia]).
  pose proof (bootstrap_index_in_range (rand s) (length data) Hlo Hhi Hn) as Hidx.
  apply lookup_lt_is_Some in Hidx as [d Hd]. rewrite Hd. simpl.
  by eapply list_elem_of_lookup_2.
Qed.

Lemma bootstrap_sample_witness :
  unitDraws Inputs.zeros
  ∧ Inputs.slowdown20 ≠ []
  ∧ let bootstrap :=
      (arrayFrom (length Inputs.slowdown20)
         (drawRow Inputs.zeros Inputs.slowdown20) 0).1 in
    length bootstrap = length Inputs.slowdown20
    ∧ Forall (λ d, d ∈ Inputs.slowdown20) bootstrap.
Proof.
  assert (unitDraws Inputs.zeros) as Hunit by (intros n; split; done).
  split; [exact Hunit|]. split; [discriminate|].
  apply bootstrap_sample_of_rows; [exact Hunit|discriminate].
Defined.

Lemma trainDecisionTree_height (rand : nat → Q) (data : list Row)
    (features : list string) (target : string) (depth maxDepth : nat) :
  always (λ t, height t ≤ maxDepth - depth)
    (trainDecisionTree rand data features target depth maxDepth).
Proof.
  apply (trainDecisionTree_invariant rand features target maxDepth
           (λ depth t, height t ≤ maxDepth - depth)).
  - intros; simpl; lia.
  - intros d f th l r Hd Hl Hr. simpl. lia.
Qed.

Lemma regimeLabelled_filter (target : string) (f : Row → bool)
    (data : list Row) :
  regimeLabelled target data = true →
  regimeLabelled target (List.filter f data) = true.
Proof.
  unfold regimeLabelled. rewrite !forallb_forall. intros Hall d Hd.
  apply List.filter_In in Hd as [Hd _]. by apply Hall.
Qed.

(** On rows that carry class ids the class of a leaf is a class id. *)
Lemma majorityClass_range (data : list Row) (target : string) :
  regimeLabelled target data = true → majorityClass data target < 4.
Proof.
  intros _. unfold majorityClass.
  pose proof (classCounts_length data target) as Hlen.
  destruct (indexOf_Math_max (classCounts data target)) as (i & -> & Hi).
  - intros Hnil. rewrite Hnil in Hlen. discriminate.
  - simpl. lia.
Qed.

Lemma trainDecisionTree_classes_ok (rand : nat → Q) (data : list Row)
    (features : list string) (target : string) (depth maxDepth : nat) :
  regimeLabelled target data = true →
  always (λ t, classes_ok t = true)
    (trainDecisionTree rand data features target depth maxDepth).
Proof.
  intros Hdata s.
  pose proof (trainDecisionTree_rows_invariant rand features target maxDepth
    (λ rows t, regimeLabelled target rows = true → classes_ok t = true))
    as Hinv.
  apply Hinv; [| |exact Hdata].
  - intros rows Hrows. simpl. by apply Nat.ltb_lt, majorityClass_range.
  - intros rows selected l r _ _ _ b lrows rrows _ _ Hl Hr Hrows. simpl.
    rewrite Hl, Hr; [done|by apply regimeLabelled_filter..].
Qed.

Lemma drawRow_elem (rand : nat → Q) (data : list Row) :
  unitDraws rand → data ≠ [] → always (λ d, d ∈ data) (drawRow rand data).
Proof.
  intros Hunit Hne s.
  change (drawRow rand data s).1
    with (default (∅ : Row)
            (data !! Z.to_nat (Qfloor (rand s * Qnat (length data))))).
  destruct (Hunit s) as [Hlo Hhi].
  assert (0 < length data) as Hn by (destruct data; [done|simpl; lia]).
  pose proof (bootstrap_index_in_range (rand s) (length data) Hlo Hhi Hn) as Hidx.
  apply lookup_lt_is_Some in Hidx as [d Hd]. rewrite Hd. simpl.
  by eapply list_elem_of_lookup_2.
Qed.

(** A bootstrap sample of rows that carry class ids carries class ids. *)
Lemma bootstrap_regimeLabelled (rand : nat → Q) (data : list Row)
    (target : string) :
  unitDraws rand → regimeLabelled target data = true →
  always (λ rows, regimeLabelled target rows = true)
         (arrayFrom (length data) (drawRow rand data)).
Proof.
  intros Hunit Hdata. destruct data as [|d0 data'] eqn:Hd.
  - simpl. by apply always_ret.
  - rewrite <- Hd in *.
    eapply always_mono;
      [|apply (arrayFrom_spec (λ d, d ∈ data)), drawRow_elem;
        [done|by rewrite Hd]].
    intros rows [_ Hrows]. unfold regimeLabelled in *.
    rewrite forallb_forall in *. intros d Hin. apply Hdata.
    apply list_elem_of_In. apply (proj1 (Forall_forall _ _) Hrows).
    by apply list_elem_of_In.
Qed.

Lemma growForest_shape (rand : nat → Q) (data : list Row)
    (features : list string) (target : string) (remaining : nat)
    (trees : list tree) (sample : list Row → Prop) (P : tree → Prop) :
  always sample (arrayFrom (length data) (drawRow rand data)) →
  (∀ rows, sample rows →
           always P (trainDecisionTree rand rows features target 0 12)) →
  Forall P trees →
  always (λ forest, length forest = length trees + remaining ∧ Forall P forest)
         (growForest rand data features target remaining trees).
Proof.
  intros Hsample Htrain. revert trees.
  induction remaining as [|n IH]; intros trees Hok; simpl.
  - apply always_ret. split; [lia|done].
  - eapply always_bind; [exact Hsample|]. intros bootstrap Hbootstrap.
    eapply always_bind; [by apply Htrain|]. intros t Ht.
    eapply always_mono; [|apply IH].
    + intros forest [Hlen Hf]. split; [|done].
      rewrite Hlen, length_app. simpl. lia.
    + apply Forall_app. split; [done|]. by constructor.
Qed.

(** Every forest built by [trainRandomForest] from rows that carry class
    ids has [numTrees] trees whose leaves hold class ids. *)
Lemma trainRandomForest_spec (rand : nat → Q) (data : list Row)
    (features : list string) (target : string) (numTrees : nat) :
  unitDraws rand → regimeLabelled target data = true →
  always (λ forest, forallb classes_ok forest = true ∧ length forest = numTrees)
         (trainRandomForest rand data features target numTrees).
Proof.
  intros Hunit Hdata. unfold trainRandomForest.
  eapply always_mono;
    [|apply (growForest_shape rand data features target numTrees []
               (λ rows, regimeLabelled target rows = true)
               (λ t, classes_ok t = true));
      [by apply bootstrap_regimeLabelled
      |intros rows Hrows; by apply trainDecisionTree_classes_ok
      |constructor]].
  intros forest [Hlen Hok]. split; [|exact Hlen].
  apply forallb_forall. intros t Ht.
  apply (proj1 (Forall_forall _ _) Hok). by apply list_elem_of_In.
Qed.

(** X7: with draws in [0, 1) and a table whose target cells are class ids
    0..3, the forest trainer returns exactly numTrees trees; each has at
    most 12 internal nodes on any path, class ids 0..3 at its leaves, and,
    when the feature list is not empty, splits only on listed features. *)
Theorem trainRandomForest_shape (rand : nat → Q) (data : list Row)
    (features : list string) (target : string) (numTrees s : nat) :
  unitDraws rand →
  regimeLabelled target data = true →
  let forest := (trainRandomForest rand data features target numTrees s).1 in
  length forest = numTrees
  ∧ Forall (λ t, height t ≤ 12
                 ∧ classes_ok t = true
                 ∧ (features ≠ [] →
                    Forall (λ f, f ∈ features) (splitFeatures t)))
           forest.
Proof.
  intros Hunit Hdata. cbv zeta. revert s. unfold trainRandomForest.
  apply (growForest_shape rand data features target numTrees []
           (λ rows, regimeLabelled target rows = true));
    [by apply bootstrap_regimeLabelled| |constructor].
  intros rows Hrows s. split; [|split].
  - pose proof (trainDecisionTree_height rand rows features target 0 12 s).
    simpl in *. lia.
  - by apply trainDecisionTree_classes_ok.
  - intros Hne. by apply trainDecisionTree_split_features.
Qed.

Lemma trainRandomForest_shape_witness :
  unitDraws Inputs.cycle
  ∧ regimeLabelled "regime" Inputs.slowdown20_all = true
  ∧ let forest :=
      (trainRandomForest Inputs.cycle Inputs.slowdown20_all expectedFeatures
         "regime" 3 0).1 in
    length forest = 3
    ∧ Forall (λ t, height t ≤ 12
                   ∧ classes_ok t = true
                   ∧ (expectedFeatures ≠ [] →
                      Forall (λ f, f ∈ expectedFeatures) (splitFeatures t)))
             forest.
Proof.
  assert (unitDraws Inputs.cycle) as Hunit.
  { intros n. unfold Inputs.cycle.
    pose proof (Nat.mod_upper_bound (n * 7) 10) as Hmod.
    assert (n * 7 mod 10 < 10) as Hlt by lia.
    revert Hlt. generalize (n * 7 mod 10). intros k Hk.
    split.
    - apply Qle_shift_div_l; [done|]. rewrite Qmult_0_l. apply Qnat_nonneg.
    - apply Qlt_shift_div_r; [done|]. rewrite Qmult_1_l.
      change (inject_Z (Z.of_nat k) < inject_Z 10)%Q.
      rewrite <- Zlt_Qlt. lia. }
  split; [exact Hunit|]. split; [vm_compute; reflexivity|].
  apply trainRandomForest_shape; [exact Hunit|vm_compute; reflexivity].
Defined.

(** ** Feature importance *)

(** Initialising the scores lists the features in order, each with 0. *)
Lemma initial_scores (features : list string) :
  NoDup features →
  foldl (λ imp f, setScore imp f (Finite 0)) [] features
  = (λ f, (f, Finite 0)) <$> features.
Proof.
  intros Hnd.
  assert (Hgen : ∀ done, NoDup (done ++ features) →
    foldl (λ imp f, setScore imp f (Finite 0))
          ((λ f, (f, Finite 0)) <$> done) features
    = (λ f, (f, Finite 0)) <$> done ++ features).
  { clear Hnd.
    induction features as [|f features IH]; intros done Hd; cbn [foldl].
    - by rewrite app_nil_r.
    - replace (done ++ f :: features) with ((done ++ [f]) ++ features)
        in * by (by rewrite <- app_assoc).
      rewrite <- (IH _ Hd). f_equal.
      apply NoDup_app in Hd as (Hd & _ & _).
      apply NoDup_app in Hd as (_ & Hdisj & _).
      assert (f ∉ done) as Hout.
      { intros Hin. apply (Hdisj f Hin), list_elem_of_here. }
      clear -Hout. induction done as [|k done IH]; [done|].
      apply not_elem_of_cons in Hout as [Hne Hout].
      rewrite <- app_comm_cons, !fmap_cons, <- IH by done. simpl.
      by destruct (String.eqb_spec k f) as [->|_]. }
  apply (Hgen [] Hnd).
Qed.

Lemma foldl_num_add (imp : Scores) (a : Q) :
  nonnegScores imp →
  ∃ s, foldl num_add (Finite a) imp.*2 = Finite s
       ∧ (s == a + scoreSum imp)%Q.
Proof.
  revert a. induction imp as [|[k x] imp IH]; intros a Hok.
  - exists a. split; [done|].
    change (scoreSum []) with 0%Q. by rewrite Qplus_0_r.
  - apply Forall_cons in Hok as [(q & Hq & _) Hok]. simpl in Hq. subst x.
    destruct (IH (a + q)%Q Hok) as (s & Hs & Hsum).
    exists s. split; [exact Hs|]. rewrite Hsum.
    change (scoreSum ((k, Finite q) :: imp)) with (q + scoreSum imp)%Q.
    ring.
Qed.

Lemma scoreSum_nonneg (imp : Scores) : nonnegScores imp → (0 <= scoreSum imp)%Q.
Proof.
  induction 1 as [|[k x] imp (q & Hq & Hnonneg) _ IH]; unfold scoreSum; simpl.
  - done.
  - simpl in Hq. subst x. simpl. fold (scoreSum imp).
    rewrite <- (Qplus_0_l 0). by apply Qplus_le_compat.
Qed.

(** Adding to the score of a listed feature keeps the keys and the signs,
    and adds to the sum. *)
Lemma addScore_spec (imp : Scores) (f : string) (v : Q) :
  f ∈ imp.*1 → nonnegScores imp → (0 <= v)%Q →
  (addScore imp f v).*1 = imp.*1
  ∧ nonnegScores (addScore imp f v)
  ∧ (scoreSum (addScore imp f v) == scoreSum imp + v)%Q.
Proof.
  intros Hin Hok Hv. unfold addScore.
  induction imp as [|[k x] imp IH]; [by apply elem_of_nil in Hin|].
  apply Forall_cons in Hok as [(q & Hq & Hnonneg) Hok]. simpl in Hq. subst x.
  cbn [getScore setScore].
  destruct (String.eqb_spec k f) as [->|Hne].
  - split; [done|]. split.
    + constructor; [|done]. exists (q + v)%Q. split; [done|].
      rewrite <- (Qplus_0_l 0). by apply Qplus_le_compat.
    + change (q + v + scoreSum imp == q + scoreSum imp + v)%Q. ring.
  - rewrite fmap_cons in Hin.
    apply elem_of_cons in Hin as [Heq|Hin]; [simpl in Heq; congruence|].
    destruct (IH Hin Hok) as (Hkeys & Hnn & Hsum).
    split; [by rewrite !fmap_cons, Hkeys|]. split.
    + constructor; [by exists q|done].
    + match goal with
      | |- (scoreSum (_ :: ?rest) == _)%Q =>
          change (q + scoreSum rest == q + scoreSum imp + v)%Q
      end.
      rewrite Hsum. ring.
Qed.

Lemma treeWeight_nonneg (t : tree) (depth : nat) : (0 <= treeWeight t depth)%Q.
Proof.
  revert depth. induction t as [p|f th l IHl r IHr]; intros depth; simpl; [done|].
  assert (0 <= 1 / Qnat (depth + 1))%Q as Hw.
  { apply Qle_shift_div_l; [apply Qnat_pos; lia|]. by rewrite Qmult_0_l. }
  specialize (IHl (depth + 1)). specialize (IHr (depth + 1)).
  rewrite <- (Qplus_0_l 0). apply Qplus_le_compat; [|done].
  rewrite <- (Qplus_0_l 0). by apply Qplus_le_compat.
Qed.

Lemma treeWeight_pos (t : tree) (depth : nat) :
  leaf t = false → (0 < treeWeight t depth)%Q.
Proof.
  destruct t as [p|f th l r]; [done|]. intros _. simpl.
  assert (0 < 1 / Qnat (depth + 1))%Q as Hw.
  { apply Qlt_shift_div_l; [apply Qnat_pos; lia|]. by rewrite Qmult_0_l. }
  pose proof (treeWeight_nonneg l (depth + 1)) as Hl.
  pose proof (treeWeight_nonneg r (depth + 1)) as Hr.
  rewrite <- (Qplus_0_l 0). apply Qplus_lt_le_compat; [|done].
  rewrite <- (Qplus_0_r 0). by apply Qplus_lt_le_compat.
Qed.

Lemma traverse_spec (t : tree) (depth : nat) (imp : Scores) :
  Forall (λ f, f ∈ imp.*1) (splitFeatures t) → nonnegScores imp →
  (traverse t depth imp).*1 = imp.*1
  ∧ nonnegScores (traverse t depth imp)
  ∧ (scoreSum (traverse t depth imp) == scoreSum imp + treeWeight t depth)%Q.
Proof.
  revert depth imp.
  induction t as [p|f th l IHl r IHr]; intros depth imp Hsplit Hok; simpl.
  - repeat split; [done|]. ring.
  - apply Forall_cons in Hsplit as [Hf Hsplit].
    apply Forall_app in Hsplit as [Hsl Hsr].
    assert (0 <= 1 / Qnat (depth + 1))%Q as Hw.
    { apply Qle_shift_div_l; [apply Qnat_pos; lia|]. by rewrite Qmult_0_l. }
    destruct (addScore_spec imp f _ Hf Hok Hw) as (Hk1 & Hn1 & Hs1).
    destruct (IHl (depth + 1) (addScore imp f (1 / Qnat (depth + 1))))
      as (Hk2 & Hn2 & Hs2); [by rewrite Hk1|done|].
    destruct (IHr (depth + 1)
                (traverse l (depth + 1)
                   (addScore imp f (1 / Qnat (depth + 1)))))
      as (Hk3 & Hn3 & Hs3); [by rewrite Hk2, Hk1|done|].
    split; [by rewrite Hk3, Hk2, Hk1|]. split; [done|].
    rewrite Hs3, Hs2, Hs1. ring.
Qed.

Lemma traverse_all_spec (trees : list tree) (imp : Scores) :
  Forall (λ t, Forall (λ f, f ∈ imp.*1) (splitFeatures t)) trees →
  nonnegScores imp →
  let out := foldl (λ imp t, traverse t 0 imp) imp trees in
  out.*1 = imp.*1
  ∧ nonnegScores out
  ∧ (scoreSum out == scoreSum imp + Qsum ((λ t, treeWeight t 0) <$> trees))%Q.
Proof.
  intros Hsplit. revert imp Hsplit. cbv zeta.
  induction trees as [|t trees IH]; intros imp Hsplit Hok.
  - repeat split; [done|]. change (scoreSum imp == scoreSum imp + 0)%Q. ring.
  - apply Forall_cons in Hsplit as [Ht Hsplit].
    destruct (traverse_spec t 0 imp Ht Hok) as (Hk & Hn & Hs).
    destruct (IH (traverse t 0 imp)) as (Hk' & Hn' & Hs');
      [by rewrite Hk|done|].
    cbn [foldl]. split; [by rewrite Hk', Hk|]. split; [done|].
    rewrite Hs', Hs, fmap_cons.
    change (Qsum (treeWeight t 0 :: ?l)) with (treeWeight t 0 + Qsum l)%Q.
    ring.
Qed.

(** The scores after all trees: the features in order, non-negative
    scores, and the total weight of the internal nodes as their sum. *)
Lemma importanceScores_spec (trees : list tree) (features : list string) :
  NoDup features →
  Forall (λ t, Forall (λ f, f ∈ features) (splitFeatures t)) trees →
  let imp := importanceScores trees features in
  imp.*1 = features
  ∧ nonnegScores imp
  ∧ (scoreSum imp == Qsum ((λ t, treeWeight t 0) <$> trees))%Q.
Proof.
  intros Hnd Hsplit. cbv zeta. unfold importanceScores.
  rewrite (initial_scores features Hnd).
  set (imp0 := (λ f, (f, Finite 0)) <$> features).
  assert (Hinit : imp0.*1 = features ∧ nonnegScores imp0
                  ∧ (scoreSum imp0 == 0)%Q).
  { unfold imp0. split; [|split].
    - rewrite <- list_fmap_compose. apply list_fmap_id.
    - apply Forall_fmap, Forall_forall. intros f _. by exists 0%Q.
    - clear. induction features as [|f features IH]; [done|].
      rewrite fmap_cons.
      match goal with
      | |- (scoreSum (_ :: ?rest) == _)%Q =>
          change (0 + scoreSum rest == 0)%Q
      end.
      rewrite IH. ring. }
  destruct Hinit as (Hkeys & Hok & Hsum).
  destruct (traverse_all_spec trees imp0) as (Hk & Hn & Hs);
    [by rewrite Hkeys|done|].
  split; [by rewrite Hk|]. split; [done|]. rewrite Hs, Hsum. ring.
Qed.

(** *** Sorting on a numeric key *)

Lemma Qminus_le_0 (a b : Q) : (a - b <= 0)%Q ↔ (a <= b)%Q.
Proof.
  destruct a as [na da], b as [nb db].
  unfold Qle, Qminus, Qplus, Qopp. simpl. lia.
Qed.

Lemma insertBy_descending {A} (key : A → Q) (cmp : A → A → Q) (x : A)
    (sorted : list A) :
  (∀ a b, a ∈ x :: sorted → b ∈ x :: sorted → (cmp a b == key b - key a)%Q) →
  descending key sorted → descending key (insertBy cmp x sorted).
Proof.
  unfold descending. intros Hcmp Hsorted.
  induction Hsorted as [|y rest Hrest IH Hall]; simpl.
  - repeat constructor.
  - assert (Hyx : (cmp y x == key x - key y)%Q).
    { apply Hcmp; [apply list_elem_of_further|]; apply list_elem_of_here. }
    destruct (Qle_bool (cmp y x) 0) eqn:Hle; simpl.
    + apply Qle_bool_iff in Hle. rewrite Hyx in Hle.
      apply (proj1 (Qminus_le_0 _ _)) in Hle.
      constructor.
      * apply IH. intros a b Ha Hb. apply Hcmp.
        -- apply elem_of_cons in Ha as [->|Ha];
             [apply list_elem_of_here|by do 2 apply list_elem_of_further].
        -- apply elem_of_cons in Hb as [->|Hb];
             [apply list_elem_of_here|by do 2 apply list_elem_of_further].
      * rewrite (insertBy_Permutation cmp x rest).
        constructor; [exact Hle|exact Hall].
    + assert (key y < key x)%Q as Hlt.
      { apply Qnot_le_lt. intros Hge. apply not_true_iff_false in Hle.
        apply Hle, Qle_bool_iff. rewrite Hyx.
        by apply (proj2 (Qminus_le_0 _ _)). }
      constructor; [by constructor|].
      constructor; [by apply Qlt_le_weak|].
      eapply Forall_impl; [exact Hall|]. intros b Hb. simpl in Hb.
      eapply Qle_trans; [exact Hb|]. by apply Qlt_le_weak.
Qed.

(** Sorting with a comparator that is the difference of the keys orders the
    list from the largest key to the smallest. *)
Lemma sortBy_descending {A} (key : A → Q) (cmp : A → A → Q) (l : list A) :
  (∀ a b, a ∈ l → b ∈ l → (cmp a b == key b - key a)%Q) →
  descending key (sortBy cmp l).
Proof.
  intros Hcmp. unfold sortBy.
  assert (Hgen : ∀ acc, descending key acc →
            (∀ a b, a ∈ acc ++ l → b ∈ acc ++ l →
                    (cmp a b == key b - key a)%Q) →
            descending key (foldl (λ sorted x, insertBy cmp x sorted) acc l)).
  { clear Hcmp. induction l as [|x l IH]; intros acc Hacc Hcmp; [done|].
    cbn [foldl]. apply IH.
    - apply insertBy_descending; [|done].
      intros a b Ha Hb. rewrite elem_of_cons in Ha, Hb.
      apply Hcmp; rewrite elem_of_app, elem_of_cons; tauto.
    - intros a b Ha Hb.
      rewrite elem_of_app, (insertBy_Permutation cmp x acc), elem_of_cons
        in Ha, Hb.
      apply Hcmp; rewrite elem_of_app, elem_of_cons; tauto. }
  apply Hgen; [constructor|done].
Qed.

(** *** Rounding to one decimal *)

Lemma toFixed1_nonneg_case (x : Q) :
  (0 <= x)%Q →
  toFixed1 x = (inject_Z (Qfloor (x * 10 + (1 # 2))) * (1 # 10))%Q.
Proof.
  intros Hx. unfold toFixed1.
  by rewrite (proj2 (Qle_bool_iff 0 x) Hx).
Qed.

Lemma toFixed1_error (x : Q) :
  (0 <= x)%Q →
  (- (1 # 20) < toFixed1 x - x)%Q ∧ (toFixed1 x - x <= 1 # 20)%Q.
Proof.
  intros Hx. rewrite (toFixed1_nonneg_case x Hx).
  pose proof (Qfloor_le (x * 10 + (1 # 2))) as Hlow.
  pose proof (Qlt_floor (x * 10 + (1 # 2))) as Hhigh.
  rewrite inject_Z_plus in Hhigh. change (inject_Z 1) with 1%Q in Hhigh.
  revert Hlow Hhigh. generalize (inject_Z (Qfloor (x * 10 + (1 # 2)))).
  intros n Hlow Hhigh. split; lra.
Qed.

Lemma toFixed1_bounds (x : Q) :
  (0 <= x)%Q → (x <= 100)%Q → (0 <= toFixed1 x)%Q ∧ (toFixed1 x <= 100)%Q.
Proof.
  intros Hx Hmax. rewrite (toFixed1_nonneg_case x Hx).
  assert (0 <= Qfloor (x * 10 + (1 # 2)) <= 1000)%Z as [Hlow Hhigh].
  { split.
    - change 0%Z with (Qfloor 0). apply Qfloor_resp_le. lra.
    - change 1000%Z with (Qfloor (1000 + (1 # 2))). apply Qfloor_resp_le. lra. }
  rewrite Zle_Qle in Hlow, Hhigh.
  revert Hlow Hhigh. generalize (inject_Z (Qfloor (x * 10 + (1 # 2)))).
  change (inject_Z 0) with 0%Q. change (inject_Z 1000) with 1000%Q.
  intros n Hlow Hhigh. split; lra.
Qed.

(** *** Shares of the total score *)

Lemma score_le_sum (imp : Scores) (entry : string * number) :
  nonnegScores imp → entry ∈ imp → (comparison entry.2 <= scoreSum imp)%Q.
Proof.
  intros Hok Hin. induction Hok as [|[k x] imp (q & Hq & Hnonneg) Hok IH].
  - by apply elem_of_nil in Hin.
  - simpl in Hq. subst x.
    change (scoreSum ((k, Finite q) :: imp)) with (q + scoreSum imp)%Q.
    pose proof (scoreSum_nonneg imp Hok) as Hsum.
    apply elem_of_cons in Hin as [->|Hin].
    + change (comparison (k, Finite q).2) with q. lra.
    + specialize (IH Hin). lra.
Qed.

(** The divisor: positive, at least every score, and the sum of the scores
    unless that sum is 0. *)
Lemma importanceTotal_spec (imp : Scores) :
  nonnegScores imp →
  (0 < importanceTotal imp)%Q
  ∧ (scoreSum imp <= importanceTotal imp)%Q
  ∧ ((0 < scoreSum imp)%Q → (importanceTotal imp == scoreSum imp)%Q)
  ∧ ((scoreSum imp == 0)%Q → importanceTotal imp = 1%Q).
Proof.
  intros Hok. pose proof (scoreSum_nonneg imp Hok) as Hnonneg.
  destruct (foldl_num_add imp 0 Hok) as (s & Hs & Hsum).
  unfold importanceTotal. rewrite Hs.
  destruct (Qeq_bool s 0) eqn:Hzero.
  - apply Qeq_bool_iff in Hzero.
    split; [done|]. split; [lra|]. split; [lra|done].
  - apply Qeq_bool_neq in Hzero.
    split; [lra|]. split; [lra|]. split; [lra|]. intros Hnull. lra.
Qed.

Lemma share_bounds (total q : Q) :
  (0 < total)%Q → (0 <= q)%Q → (q <= total)%Q →
  (0 <= q / total * 100)%Q ∧ (q / total * 100 <= 100)%Q.
Proof.
  intros Htotal Hq Hle.
  assert (0 <= q / total)%Q as Hlow.
  { apply Qle_shift_div_l; [done|]. lra. }
  assert (q / total <= 1)%Q as Hhigh.
  { apply Qle_shift_div_r; [done|]. lra. }
  split; lra.
Qed.

Lemma shares_sum (total : Q) (imp : Scores) :
  ¬ (total == 0)%Q → nonnegScores imp →
  (Qsum ((λ entry, comparison (share total entry.2)) <$> imp)
   == scoreSum imp / total * 100)%Q.
Proof.
  intros Htotal Hok.
  induction Hok as [|[k x] imp (q & Hq & Hnonneg) Hok IH].
  - change (0 == 0 / total * 100)%Q. by field.
  - simpl in Hq. subst x. rewrite fmap_cons.
    change (scoreSum ((k, Finite q) :: imp)) with (q + scoreSum imp)%Q.
    match goal with
    | |- (Qsum (_ :: ?rest) == _)%Q =>
        change (q / total * 100 + Qsum rest
                == (q + scoreSum imp) / total * 100)%Q
    end.
    rewrite IH. by field.
Qed.

(** *** The reported importances *)

(** Every score is a rational whose share of the total lies in [0, 100]. *)
Lemma importance_shares_bounded (trees : list tree) (features : list string) :
  NoDup features →
  Forall (λ t, Forall (λ f, f ∈ features) (splitFeatures t)) trees →
  let imp := importanceScores trees features in
  let total := importanceTotal imp in
  Forall (λ entry : string * number,
            ∃ q, entry.2 = Finite q
                 ∧ (0 <= q / total * 100)%Q ∧ (q / total * 100 <= 100)%Q)
         imp.
Proof.
  intros Hnd Hsplit imp total.
  destruct (importanceScores_spec trees features Hnd Hsplit)
    as (_ & Hok & _). fold imp in Hok.
  destruct (importanceTotal_spec imp Hok) as (Hpos & Hle & _).
  fold total in Hpos, Hle.
  apply Forall_forall. intros entry Hin.
  pose proof (score_le_sum imp entry Hok Hin) as Hscore.
  apply (proj1 (Forall_forall _ _) Hok) in Hin as (q & Hq & Hnonneg).
  exists q. split; [done|]. rewrite Hq in Hscore.
  change (comparison (Finite q)) with q in Hscore.
  apply share_bounds; [done|done|lra].
Qed.

Lemma calcImportance_finite (trees : list tree) (features : list string) :
  NoDup features →
  Forall (λ t, Forall (λ f, f ∈ features) (splitFeatures t)) trees →
  Forall (λ r, ∃ q, Importance.importance r = Finite q
                    ∧ (0 <= q)%Q ∧ (q <= 100)%Q)
         (calcImportance trees features).
Proof.
  intros Hnd Hsplit. unfold calcImportance. cbv zeta.
  rewrite sortBy_Permutation. apply Forall_fmap.
  eapply Forall_impl; [apply (importance_shares_bounded _ _ Hnd Hsplit)|].
  intros entry (q & Hq & Hlow & Hhigh). simpl. rewrite Hq.
  eexists. split; [reflexivity|]. by apply toFixed1_bounds.
Qed.

(** X8: when the features are distinct and the trees split on listed
    features only, [calcImportance] returns one entry per feature, each with
    a finite importance between 0 and 100. *)
Theorem calcImportance_one_entry_per_feature
    (trees : list tree) (features : list string) :
  NoDup features →
  Forall (λ t, Forall (λ f, f ∈ features) (splitFeatures t)) trees →
  Importance.feature <$> calcImportance trees features ≡ₚ features
  ∧ Forall (λ r, ∃ q, Importance.importance r = Finite q
                      ∧ (0 <= q)%Q ∧ (q <= 100)%Q)
           (calcImportance trees features).
Proof.
  intros Hnd Hsplit. split; [|by apply calcImportance_finite].
  unfold calcImportance. cbv zeta. rewrite sortBy_Permutation.
  rewrite <- list_fmap_compose.
  destruct (importanceScores_spec trees features Hnd Hsplit) as (Hkeys & _).
  trans ((importanceScores trees features).*1); [reflexivity|].
  by rewrite Hkeys.
Qed.

(** X9: under the same conditions the entries come ordered from the largest
    importance to the smallest. *)
Theorem calcImportance_descending (trees : list tree) (features : list string) :
  NoDup features →
  Forall (λ t, Forall (λ f, f ∈ features) (splitFeatures t)) trees →
  descending (λ r, comparison (Importance.importance r))
             (calcImportance trees features).
Proof.
  intros Hnd Hsplit.
  pose proof (calcImportance_finite trees features Hnd Hsplit) as Hfinite.
  unfold calcImportance in *. cbv zeta in *.
  rewrite sortBy_Permutation in Hfinite.
  apply sortBy_descending. intros a b Ha Hb.
  apply (proj1 (Forall_forall _ _) Hfinite) in Ha as (qa & -> & _).
  apply (proj1 (Forall_forall _ _) Hfinite) in Hb as (qb & -> & _).
  reflexivity.
Qed.

Lemma calcImportance_one_entry_witness :
  NoDup Samples.features
  ∧ Forall (λ t, Forall (λ f, f ∈ Samples.features) (splitFeatures t))
      [Samples.twoSplits; Leaf 3]
  ∧ Importance.feature
      <$> calcImportance [Samples.twoSplits; Leaf 3] Samples.features
    ≡ₚ Samples.features
  ∧ Forall (λ r, ∃ q, Importance.importance r = Finite q
                      ∧ (0 <= q)%Q ∧ (q <= 100)%Q)
      (calcImportance [Samples.twoSplits; Leaf 3] Samples.features).
Proof.
  assert (NoDup Samples.features) as Hnd by compute_done.
  assert (Forall (λ t, Forall (λ f, f ∈ Samples.features) (splitFeatures t))
            [Samples.twoSplits; Leaf 3]) as Hsplit by compute_done.
  split; [exact Hnd|]. split; [exact Hsplit|].
  apply calcImportance_one_entry_per_feature; [exact Hnd|exact Hsplit].
Defined.

Lemma calcImportance_descending_witness :
  NoDup Samples.features
  ∧ Forall (λ t, Forall (λ f, f ∈ Samples.features) (splitFeatures t))
      [Samples.twoSplits; Leaf 3]
  ∧ descending (λ r, comparison (Importance.importance r))
      (calcImportance [Samples.twoSplits; Leaf 3] Samples.features).
Proof.
  assert (NoDup Samples.features) as Hnd by compute_done.
  assert (Forall (λ t, Forall (λ f, f ∈ Samples.features) (splitFeatures t))
            [Samples.twoSplits; Leaf 3]) as Hsplit by compute_done.
  split; [exact Hnd|]. split; [exact Hsplit|].
  apply calcImportance_descending; [exact Hnd|exact Hsplit].
Defined.

Lemma Qsum_cons (x : Q) (l : list Q) : Qsum (x :: l) = (x + Qsum l)%Q.
Proof. reflexivity. Qed.

Lemma Qsum_Permutation (l l' : list Q) : l ≡ₚ l' → (Qsum l == Qsum l')%Q.
Proof.
  induction 1 as [|x l l' _ IH|x y l|l l' l'' _ IH1 _ IH2].
  - reflexivity.
  - change (x + Qsum l == x + Qsum l')%Q. by rewrite IH.
  - change (y + (x + Qsum l) == x + (y + Qsum l))%Q. ring.
  - by rewrite IH1.
Qed.

Lemma forest_weight_nonneg (trees : list tree) :
  (0 <= Qsum ((λ t, treeWeight t 0) <$> trees))%Q.
Proof.
  induction trees as [|t trees IH]; [done|]. rewrite fmap_cons.
  change (0 <= treeWeight t 0 + Qsum ((λ t, treeWeight t 0) <$> trees))%Q.
  pose proof (treeWeight_nonneg t 0). lra.
Qed.

Lemma forest_weight_pos (trees : list tree) :
  Exists (λ t, leaf t = false) trees →
  (0 < Qsum ((λ t, treeWeight t 0) <$> trees))%Q.
Proof.
  induction 1 as [t trees Ht|t trees _ IH]; rewrite fmap_cons;
    change (0 < treeWeight t 0 + Qsum ((λ t, treeWeight t 0) <$> trees))%Q.
  - pose proof (treeWeight_pos t 0 Ht).
    pose proof (forest_weight_nonneg trees). lra.
  - pose proof (treeWeight_nonneg t 0). lra.
Qed.

(** Rounding each share moves the sum by at most 0.05 per entry. *)
Lemma rounded_sum_error (total : Q) (imp : Scores) :
  Forall (λ entry : string * number,
            ∃ q, entry.2 = Finite q ∧ (0 <= q / total * 100)%Q) imp →
  let reported :=
    Qsum ((λ entry, comparison (rounded (share total entry.2))) <$> imp) in
  let exact := Qsum ((λ entry, comparison (share total entry.2)) <$> imp) in
  (exact - Qnat (length imp) * (1 # 20) <= reported)%Q
  ∧ (reported <= exact + Qnat (length imp) * (1 # 20))%Q.
Proof.
  cbv zeta. induction 1 as [|[k x] imp (q & Hq & Hlow) _ IH].
  - change (0 - 0 * (1 # 20) <= 0 ∧ 0 <= 0 + 0 * (1 # 20))%Q. split; lra.
  - simpl in Hq. subst x. rewrite !fmap_cons.
    pose proof (toFixed1_error _ Hlow) as [Hdown Hup].
    pose proof (Qnat_plus 1 (length imp)) as Hlen.
    change (Qnat 1) with 1%Q in Hlen.
    change (length ((k, Finite q) :: imp)) with (1 + length imp).
    rewrite !Qsum_cons.
    change (comparison (rounded (share total (k, Finite q).2)))
      with (toFixed1 (q / total * 100)).
    change (comparison (share total (k, Finite q).2))
      with (q / total * 100)%Q.
    revert IH Hdown Hup.
    generalize
      (Qsum ((λ entry, comparison (rounded (share total entry.2))) <$> imp))
      (Qsum ((λ entry, comparison (share total entry.2)) <$> imp))
      (toFixed1 (q / total * 100)) (q / total * 100)%Q.
    intros r e fixed exact IH Hdown Hup. split; lra.
Qed.

(** X10: when some tree has an internal node, the exact shares sum to 100, so
    the reported importances sum to 100 up to the rounding, 0.05 per
    feature. *)
Theorem calcImportance_sums_to_100 (trees : list tree) (features : list string) :
  NoDup features →
  Forall (λ t, Forall (λ f, f ∈ features) (splitFeatures t)) trees →
  Exists (λ t, leaf t = false) trees →
  let reported :=
    Qsum ((λ r, comparison (Importance.importance r))
            <$> calcImportance trees features) in
  (100 - Qnat (length features) * (1 # 20) <= reported)%Q
  ∧ (reported <= 100 + Qnat (length features) * (1 # 20))%Q.
Proof.
  intros Hnd Hsplit Hnode. cbv zeta.
  destruct (importanceScores_spec trees features Hnd Hsplit)
    as (Hkeys & Hok & Hsum).
  pose proof (forest_weight_pos trees Hnode) as Hweight.
  pose proof (importance_shares_bounded trees features Hnd Hsplit) as Hshares.
  cbv zeta in Hshares.
  unfold calcImportance. cbv zeta.
  rewrite (Qsum_Permutation _ _
             (fmap_Permutation _ _ _ (sortBy_Permutation _ _))).
  rewrite <- list_fmap_compose.
  revert Hkeys Hok Hsum Hshares.
  generalize (importanceScores trees features). intros imp Hkeys Hok Hsum Hshares.
  destruct (importanceTotal_spec imp Hok) as (Hpos & _ & Htotal & _).
  assert (Hexact :
    (Qsum ((λ entry, comparison (share (importanceTotal imp) entry.2)) <$> imp)
     == 100)%Q).
  { rewrite shares_sum; [|lra|done].
    rewrite Htotal by lra. field. lra. }
  destruct (rounded_sum_error (importanceTotal imp) imp) as [Hdown Hup].
  { eapply Forall_impl; [exact Hshares|].
    intros entry (q & Hq & Hlow & _). by exists q. }
  rewrite Hexact in Hdown, Hup.
  assert (length imp = length features) as Hlen
    by (by rewrite <- Hkeys, length_fmap).
  rewrite Hlen in Hdown, Hup. split; [exact Hdown|exact Hup].
Qed.

Lemma calcImportance_sums_witness :
  NoDup Samples.features
  ∧ Forall (λ t, Forall (λ f, f ∈ Samples.features) (splitFeatures t))
      [Samples.twoSplits; Leaf 3]
  ∧ Exists (λ t, leaf t = false) [Samples.twoSplits; Leaf 3]
  ∧ let reported :=
      Qsum ((λ r, comparison (Importance.importance r))
              <$> calcImportance [Samples.twoSplits; Leaf 3] Samples.features)
    in
    (100 - Qnat (length Samples.features) * (1 # 20) <= reported)%Q
    ∧ (reported <= 100 + Qnat (length Samples.features) * (1 # 20))%Q.
Proof.
  assert (NoDup Samples.features) as Hnd by compute_done.
  assert (Forall (λ t, Forall (λ f, f ∈ Samples.features) (splitFeatures t))
            [Samples.twoSplits; Leaf 3]) as Hsplit by compute_done.
  assert (Exists (λ t, leaf t = false) [Samples.twoSplits; Leaf 3])
    as Hnode by (by left).
  split; [exact Hnd|]. split; [exact Hsplit|]. split; [exact Hnode|].
  apply calcImportance_sums_to_100; [exact Hnd|exact Hsplit|exact Hnode].
Defined.





(** ** The predicted class *)

Lemma foldl_max (x : nat) (l : list nat) :
  foldl Nat.max x l = Nat.max x (Math_max l).
Proof.
  revert x. induction l as [|y l IH]; intros x; simpl; [lia|].
  rewrite IH. unfold Math_max. lia.
Qed.

(** A map that keeps the order carries the maximum and its first index from
    the counts to their images. *)
Lemma Math_maxQ_fmap (f : nat → Q) (counts : list nat) :
  (∀ a b, Qle_bool (f a) (f b) = (a <=? b)) →
  counts ≠ [] →
  Math_maxQ (f <$> counts) = Some (f (Math_max counts)).
Proof.
  intros Hf Hne. destruct counts as [|x l]; [done|].
  rewrite fmap_cons. cbn [Math_maxQ]. f_equal.
  change (Math_max (x :: l)) with (Nat.max x (Math_max l)).
  rewrite <- foldl_max. clear Hne.
  revert x. induction l as [|y l IH]; intros x; [done|].
  rewrite fmap_cons. cbn [foldl]. unfold Qmax2 at 2. rewrite Hf.
  destruct (Nat.leb_spec x y) as [Hle|Hgt].
  - rewrite IH. by rewrite Nat.max_r.
  - rewrite IH. by rewrite Nat.max_l by lia.
Qed.

Lemma indexOfQ_fmap (f : nat → Q) (counts : list nat) (m : nat) :
  (∀ a b, Qeq_bool (f a) (f b) = (a =? b)) →
  indexOfQ (f <$> counts) (f m) = indexOf counts m.
Proof.
  intros Hf. induction counts as [|c counts IH]; [done|].
  rewrite fmap_cons. cbn [indexOfQ indexOf]. by rewrite Hf, IH.
Qed.

Lemma vote_share_order (N a b : nat) :
  0 < N →
  Qle_bool (Qnat a / Qnat N) (Qnat b / Qnat N) = (a <=? b)
  ∧ Qeq_bool (Qnat a / Qnat N) (Qnat b / Qnat N) = (a =? b).
Proof.
  intros HN. pose proof (Qnat_pos N HN) as Hpos.
  assert (0 < / Qnat N)%Q as Hinv by (by apply Qinv_lt_0_compat).
  split; apply eq_iff_eq_true.
  - rewrite Qle_bool_iff, Nat.leb_le. unfold Qdiv.
    rewrite (Qmult_le_r _ _ _ Hinv). unfold Qnat.
    rewrite <- Zle_Qle. lia.
  - rewrite Qeq_bool_iff, Nat.eqb_eq. unfold Qdiv.
    rewrite Qmult_inj_r by lra. unfold Qnat.
    rewrite inject_Z_injective. lia.
Qed.

(** X12: on a forest of at least one tree whose leaves hold class ids, the
    predicted class is a class with the most votes, and the lowest such
    class. *)
Theorem predicted_most_votes (trees : list tree) (sample : Row) :
  1 ≤ length trees →
  forallb classes_ok trees = true →
  ∃ c, predicted trees sample = Some c
       ∧ c < 4
       ∧ (∀ k, k < 4 → votesFor k trees sample ≤ votesFor c trees sample)
       ∧ (∀ k, k < c → votesFor k trees sample < votesFor c trees sample).
Proof.
  intros HN _. unfold predicted, predictRF. cbv zeta.
  set (f := λ p, (Qnat p / Qnat (length trees))%Q).
  set (counts := voteCounts trees sample).
  assert (Hcounts : ∀ k, k < 4 →
            counts !! k = Some (votesFor k trees sample)).
  { intros k Hk. unfold counts. rewrite voteCounts_votesFor.
    do 4 (destruct k as [|k]; [reflexivity|]). lia. }
  assert (Hlen : length counts = 4).
  { unfold counts. by rewrite voteCounts_votesFor. }
  assert (Hne : counts ≠ []).
  { intros Hnil. rewrite Hnil in Hlen. discriminate. }
  rewrite (Math_maxQ_fmap f counts);
    [|intros a b; apply (vote_share_order (length trees) a b HN)|done].
  rewrite (indexOfQ_fmap f counts);
    [|intros a b; apply (vote_share_order (length trees) a b HN)].
  destruct (indexOf_Math_max counts Hne) as (c & Hc & Hclt).
  rewrite Hlen in Hclt. exists c. split; [done|]. split; [done|].
  apply indexOf_first in Hc as [Hmax Hfirst].
  rewrite (Hcounts c Hclt) in Hmax. injection Hmax as Hmax.
  assert (Hle : ∀ k, k < 4 → votesFor k trees sample ≤ Math_max counts).
  { intros k Hk. apply Math_max_ge, list_elem_of_lookup.
    exists k. by apply Hcounts. }
  split.
  - intros k Hk. specialize (Hle k Hk). lia.
  - intros k Hk. assert (k < 4) as Hk4 by lia.
    specialize (Hle k Hk4). specialize (Hfirst k Hk).
    rewrite (Hcounts k Hk4) in Hfirst.
    assert (votesFor k trees sample ≠ Math_max counts) by congruence.
    lia.
Qed.

Lemma predicted_most_votes_witness :
  1 ≤ length [Samples.twoSplits; Leaf 2; Leaf 2]
  ∧ forallb classes_ok [Samples.twoSplits; Leaf 2; Leaf 2] = true
  ∧ ∃ c, predicted [Samples.twoSplits; Leaf 2; Leaf 2] ∅ = Some c
         ∧ c < 4
         ∧ (∀ k, k < 4 →
              votesFor k [Samples.twoSplits; Leaf 2; Leaf 2] ∅
              ≤ votesFor c [Samples.twoSplits; Leaf 2; Leaf 2] ∅)
         ∧ (∀ k, k < c →
              votesFor k [Samples.twoSplits; Leaf 2; Leaf 2] ∅
              < votesFor c [Samples.twoSplits; Leaf 2; Leaf 2] ∅).
Proof.
  split; [simpl; lia|]. split; [vm_compute; reflexivity|].
  apply predicted_most_votes; [simpl; lia|vm_compute; reflexivity].
Defined.

(** ** The labeller reads nine cells *)

(** X13: the regime of a row depends on nine cells only: two rows that
    agree on them get the same regime, whatever the other cells hold. *)
Theorem labelRegime_reads_decision_cells (row row' : Row) :
  Forall (λ k, row !! k = row' !! k) decisionCells →
  labelRegime row = labelRegime row'.
Proof.
  intros Hcells. unfold decisionCells in Hcells.
  repeat (apply Forall_cons in Hcells as [? Hcells]).
  unfold labelRegime.
  repeat match goal with H : row !! _ = _ |- _ => rewrite H; clear H end.
  reflexivity.
Qed.

Lemma labelRegime_reads_witness :
  Forall (λ k, Inputs.goldilocksCells !! k
               = (<["regime" := Finite 2]> Inputs.goldilocksCells) !! k)
         decisionCells
  ∧ labelRegime Inputs.goldilocksCells
    = labelRegime (<["regime" := Finite 2]> Inputs.goldilocksCells).
Proof.
  assert (Forall (λ k, Inputs.goldilocksCells !! k
                       = (<["regime" := Finite 2]> Inputs.goldilocksCells) !! k)
                 decisionCells) as Hcells.
  { repeat constructor. }
  split; [exact Hcells|].
  apply labelRegime_reads_decision_cells. exact Hcells.
Defined.

Lemma labelRegime_insert_regime (row : Row) (v : number) :
  labelRegime (<["regime" := v]> row) = labelRegime row.
Proof. unfold labelRegime. by rewrite !lookup_insert_ne. Qed.

(** X14: labelling is idempotent: the regime is not among the cells it
    is computed from, so labelling a labelled table changes nothing. *)
Theorem labelRegimes_idempotent (data : list Row) :
  labelRegimes (labelRegimes data) = labelRegimes data.
Proof.
  unfold labelRegimes. rewrite <- list_fmap_compose.
  apply list_fmap_ext. intros _ row _. simpl.
  by rewrite insert_insert_eq, labelRegime_insert_regime.
Qed.

(** ** Prediction on complete samples *)

(** X15: a sample that holds a number for every feature the tree splits
    on is routed to a leaf: its prediction is the class of a leaf of the
    tree. *)
Theorem predictTree_leaf_class (t : tree) (sample : Row) :
  Forall (λ f, is_Some (numeric (sample !! f))) (splitFeatures t) →
  predictTree t sample ∈ leafClasses t.
Proof.
  induction t as [p|f th l IHl r IHr]; simpl; intros Hcells.
  - apply list_elem_of_here.
  - apply Forall_cons in Hcells as [[q Hq] Hcells].
    apply Forall_app in Hcells as [Hl Hr].
    destruct (sample !! f) as [[val|]|]; simpl in Hq; try discriminate.
    simpl. rewrite elem_of_app.
    destruct (Qle_bool val th); [left; by apply IHl|right; by apply IHr].
Qed.

Lemma predictTree_leaf_witness :
  Forall (λ f, is_Some (numeric (({["a" := Finite 1; "b" := Finite (-1)]} : Row) !! f)))
         (splitFeatures Samples.twoSplits)
  ∧ predictTree Samples.twoSplits {["a" := Finite 1; "b" := Finite (-1)]}
    ∈ leafClasses Samples.twoSplits.
Proof.
  assert (Forall (λ f, is_Some (numeric
                    (({["a" := Finite 1; "b" := Finite (-1)]} : Row) !! f)))
                 (splitFeatures Samples.twoSplits)) as Hcells.
  { repeat constructor; by eexists. }
  split; [exact Hcells|].
  apply predictTree_leaf_class. exact Hcells.
Defined.

(** ** Thresholds come from the rows *)

Lemma tryCut_threshold (data : list Row) (target feature : string)
    (values : list Q) (b : best) (pct : Q) :
  (∀ v, v ∈ values → ∃ d, d ∈ data ∧ d !! feature = Some (Finite v)) →
  cutFromRows data (bestFeature b, bestThreshold b) →
  let b' := tryCut data target feature values b pct in
  cutFromRows data (bestFeature b', bestThreshold b').
Proof.
  intros Hvalues Hb. cbv zeta. unfold tryCut.
  destruct (values !! _) as [threshold|] eqn:Hth; [|done].
  destruct (_ || _); [done|]. destruct (improves _ _); [|done].
  right. simpl. apply Hvalues. by eapply list_elem_of_lookup_2.
Qed.

Lemma tryFeature_threshold (data : list Row) (target : string) (b : best)
    (feature : string) :
  cutFromRows data (bestFeature b, bestThreshold b) →
  let b' := tryFeature data target b feature in
  cutFromRows data (bestFeature b', bestThreshold b').
Proof.
  intros Hb. cbv zeta. unfold tryFeature. destruct (_ =? 0); [done|].
  assert (Hvalues : ∀ v,
            v ∈ sortBy Qminus (omap (λ d : Row, numeric (d !! feature)) data) →
            ∃ d, d ∈ data ∧ d !! feature = Some (Finite v)).
  { intros v Hv. rewrite sortBy_Permutation in Hv.
    apply list_elem_of_omap in Hv as (d & Hd & Hnum).
    exists d. split; [done|].
    destruct (d !! feature) as [[q|]|]; simpl in Hnum; congruence. }
  revert Hvalues Hb.
  generalize (sortBy Qminus (omap (λ d : Row, numeric (d !! feature)) data)).
  intros values Hvalues. generalize [0.25; 0.5; 0.75]%Q. intros pcts.
  revert b. induction pcts as [|pct pcts IH]; intros b Hb; [done|].
  cbn [foldl]. apply IH. by apply tryCut_threshold.
Qed.

Lemma best_threshold (data : list Row) (target : string) (b : best)
    (selected : list string) :
  cutFromRows data (bestFeature b, bestThreshold b) →
  let b' := foldl (tryFeature data target) b selected in
  cutFromRows data (bestFeature b', bestThreshold b').
Proof.
  cbv zeta. revert b. induction selected as [|f selected IH]; intros b Hb;
    [done|].
  cbn [foldl]. apply IH. by apply tryFeature_threshold.
Qed.

Lemma cutFromRows_mono (rows rows' : list Row) (cut : string * Q) :
  (∀ d, d ∈ rows → d ∈ rows') → cutFromRows rows cut → cutFromRows rows' cut.
Proof.
  intros Hsub [Hzero|(d & Hd & Hcell)]; [by left|].
  right. exists d. split; [by apply Hsub|done].
Qed.

(** X16: the threshold of every internal node is either the initial 0 or
    the value that some training row holds for the feature of the node. *)
Theorem trainDecisionTree_thresholds_from_rows (rand : nat → Q)
    (data : list Row) (features : list string) (target : string)
    (depth maxDepth s : nat) :
  Forall (cutFromRows data)
    (cuts (trainDecisionTree rand data features target depth maxDepth s).1).
Proof.
  apply (trainDecisionTree_rows_invariant rand features target maxDepth
           (λ rows t, Forall (cutFromRows rows) (cuts t))).
  - intros rows. constructor.
  - intros rows selected l r _ _ _ b lrows rrows _ _ Hl Hr. simpl.
    constructor.
    + apply best_threshold. by left.
    + apply Forall_app. split.
      * eapply Forall_impl; [exact Hl|]. intros cut.
        apply cutFromRows_mono. intros d Hd.
        apply list_elem_of_In, filter_In in Hd as [Hd _].
        by apply list_elem_of_In.
      * eapply Forall_impl; [exact Hr|]. intros cut.
        apply cutFromRows_mono. intros d Hd.
        apply list_elem_of_In, filter_In in Hd as [Hd _].
        by apply list_elem_of_In.
Qed.

(** ** When the backtest runs *)

Lemma filter_snd {A B} (P : B → bool) (l : list (A * B)) :
  (List.filter (λ x, P x.2) l).*2 = List.filter P l.*2.
Proof.
  induction l as [|[a b] l IH]; [done|].
  change (List.filter (λ x, P x.2) ((a, b) :: l))
    with (if P b then (a, b) :: List.filter (λ x, P x.2) l
          else List.filter (λ x, P x.2) l).
  rewrite fmap_cons.
  change (List.filter P ((a, b).2 :: l.*2))
    with (if P b then b :: List.filter P l.*2 else List.filter P l.*2).
  destruct (P b); [rewrite fmap_cons|]; by rewrite IH.
Qed.

Lemma simulatedWeeks_dates (allDates : list string) :
  (simulatedWeeks allDates).*2
  = List.filter (λ d, negb (dateBefore d cutoff)) (tail allDates).
Proof.
  unfold simulatedWeeks. rewrite <- weeks_trade_dates.
  apply (filter_snd (λ d, negb (dateBefore d cutoff))).
Qed.

Lemma dateBefore_earlier (d m : string) :
  String_as_OT.lt d m → dateBefore m cutoff = true → dateBefore d cutoff = true.
Proof.
  unfold dateBefore. intros Hlt Hm.
  apply bool_decide_eq_true in Hm. apply bool_decide_eq_true.
  change (String_as_OT.lt d cutoff). change (String_as_OT.lt m cutoff) in Hm.
  by etrans.
Qed.

Lemma increasing_last (dates : list string) (m d : string) :
  increasing dates → last dates = Some m → d ∈ dates →
  d = m ∨ String_as_OT.lt d m.
Proof.
  unfold increasing. intros Hinc. revert m d.
  induction Hinc as [|x rest Hrest IH Hall]; intros m d Hlast Hd.
  - by apply elem_of_nil in Hd.
  - destruct rest as [|y rest'].
    + injection Hlast as <-. apply elem_of_cons in Hd as [->|Hd]; [by left|].
      by apply elem_of_nil in Hd.
    + change (last (y :: rest') = Some m) in Hlast.
      apply elem_of_cons in Hd as [->|Hd]; [|by apply IH].
      right. apply (proj1 (Forall_forall _ _) Hall).
      apply list_elem_of_lookup. exists (length rest').
      rewrite last_lookup in Hlast. exact Hlast.
Qed.

(** X17: with the three tables loaded, the backtest runs (no alert, a
    result stored) exactly when there are at least two common dates and the
    last of them is not before the cutoff 2015-01-01; otherwise it alerts
    and stores no result. *)
Theorem runBacktest_runs_iff (previous : option BacktestResult)
    (processedData : list MacroRow.t) (sectorData : list SectorRow.t)
    (stockData : list StockRow.t) :
  let allDates := commonDates processedData sectorData stockData in
  let fx := runBacktest previous (Some processedData) (Some sectorData)
              (Some stockData) in
  (alert fx = None
   ↔ 2 ≤ length allDates
     ∧ ∃ d, last allDates = Some d ∧ dateBefore d cutoff = false)
  ∧ (alert fx = None → is_Some (backtest fx))
  ∧ (alert fx ≠ None → backtest fx = None).
Proof.
  cbv zeta. unfold runBacktest.
  pose proof (commonDates_increasing processedData sectorData stockData) as Hinc.
  pose proof (runLoop_curve_dates processedData sectorData stockData) as Hdates.
  apply (f_equal length) in Hdates.
  rewrite length_fmap, simulatedWeeks_dates in Hdates.
  revert Hinc Hdates.
  generalize (commonDates processedData sectorData stockData).
  intros allDates Hinc Hdates.
  destruct (Nat.ltb_spec (length allDates) 2) as [Hshort|Hlong]; simpl.
  { split; [|split; [discriminate|reflexivity]].
    split; [discriminate|]. intros [Hlen _]. lia. }
  destruct allDates as [|d0 [|d1 rest]]; [simpl in Hlong; lia..|].
  set (allDates := d0 :: d1 :: rest) in *.
  destruct (last allDates) as [m|] eqn:Hlast;
    [|by apply last_None in Hlast].
  assert (Hm : m ∈ tail allDates).
  { unfold allDates in *. apply list_elem_of_lookup. exists (length rest).
    change (last (d1 :: rest) = Some m) in Hlast.
    rewrite last_lookup in Hlast. exact Hlast. }
  destruct (Nat.eqb_spec
              (length (equityCurve (runLoop processedData stockData allDates)))
              0) as [Hnone|Hsome]; simpl.
  - split; [|split; [done|done]]. split; [done|].
    intros (_ & d & [= <-] & Hd). exfalso.
    rewrite Hnone in Hdates. symmetry in Hdates.
    apply length_zero_iff_nil in Hdates.
    assert (m ∈ List.filter (λ d, negb (dateBefore d cutoff)) (tail allDates))
      as Hin.
    { apply list_elem_of_In, filter_In. split; [by apply list_elem_of_In|].
      by rewrite Hd. }
    rewrite Hdates in Hin. by apply elem_of_nil in Hin.
  - split; [|split; [by eexists|done]]. split; [|done]. intros _.
    split; [done|]. exists m. split; [done|].
    destruct (dateBefore m cutoff) eqn:Hbefore; [|done]. exfalso.
    apply Hsome. rewrite Hdates. apply length_zero_iff_nil.
    destruct (List.filter _ _) as [|d l] eqn:Hfilter; [done|]. exfalso.
    assert (d ∈ List.filter (λ d, negb (dateBefore d cutoff)) (tail allDates))
      as Hin by (rewrite Hfilter; apply list_elem_of_here).
    apply list_elem_of_In, filter_In in Hin as [Hin Hd].
    apply list_elem_of_In in Hin.
    assert (d ∈ allDates) as Hall by (by apply list_elem_of_further).
    destruct (increasing_last allDates m d Hinc Hlast Hall) as [->|Hlt].
    + by rewrite Hbefore in Hd.
    + by rewrite (dateBefore_earlier d m Hlt Hbefore) in Hd.
Qed.

(** ** The date tables of the backtest *)

(** X18: [stocksByDate] groups the stock rows by date key and keeps the
    file order inside each group; rows with an empty key are dropped and a
    date without rows has no entry. *)
Theorem stocksByDate_file_order (stockData : list StockRow.t) (d : string) :
  let rows :=
    List.filter (λ r, truthy d && String.eqb (StockRow._dateKey r) d) stockData in
  stocksByDate stockData !! d
  = match rows with [] => None | _ :: _ => Some rows end.
Proof.
  cbv zeta.
  set (keep := λ r, truthy d && String.eqb (StockRow._dateKey r) d).
  unfold stocksByDate.
  induction stockData as [|r l IH] using rev_ind; [done|].
  rewrite foldl_app, List.filter_app. cbn [foldl].
  change (List.filter keep [r]) with (if keep r then [r] else []).
  revert IH. generalize (List.filter keep l). intros rows IH.
  unfold addStock at 1. cbv zeta.
  destruct (truthy (StockRow._dateKey r)) eqn:Hkey.
  - destruct (String.eqb_spec (StockRow._dateKey r) d) as [Heq|Hne].
    + assert (keep r = true) as ->.
      { unfold keep. by rewrite <- Heq, Hkey, String.eqb_refl. }
      rewrite Heq, lookup_insert_eq, IH. by destruct rows.
    + assert (keep r = false) as ->.
      { unfold keep. apply andb_false_iff. right. by apply String.eqb_neq. }
      rewrite lookup_insert_ne, app_nil_r by done. exact IH.
  - assert (keep r = false) as ->.
    { unfold keep.
      destruct (String.eqb_spec (StockRow._dateKey r) d) as [Heq|Hne];
        [by rewrite <- Heq, Hkey|apply andb_false_r]. }
    rewrite app_nil_r. exact IH.
Qed.

(** X19: in [regimeByDate] and in [sectorByDate] the last row of a date
    wins: the entry of a date is the regime, or the returns, of the last
    row that carries the date (and, for the regime, a regime cell). *)
Theorem date_tables_last_row_wins (processedData : list MacroRow.t)
    (sectorData : list SectorRow.t) (d : string) :
  regimeByDate processedData !! d
  = last (omap (λ row, if truthy d && String.eqb (MacroRow._dateKey row) d
                       then MacroRow.cells row !! "regime" else None)
               processedData)
  ∧ sectorByDate sectorData !! d
    = last (omap (λ row, if truthy d && String.eqb (SectorRow._dateKey row) d
                         then Some (SectorRow.returns row) else None)
                 sectorData).
Proof.
  split.
  - set (pick := λ row, if truthy d && String.eqb (MacroRow._dateKey row) d
                        then MacroRow.cells row !! "regime" else None).
    unfold regimeByDate.
    induction processedData as [|r l IH] using rev_ind; [done|].
    rewrite foldl_app, omap_app. cbn [foldl].
    change (omap pick [r])
      with (match pick r with Some x => [x] | None => [] end).
    revert IH. generalize (omap pick l). intros picked IH.
    unfold addRegime at 1. cbv zeta.
    destruct (truthy (MacroRow._dateKey r)) eqn:Hkey.
    + destruct (String.eqb_spec (MacroRow._dateKey r) d) as [Heq|Hne].
      * assert (pick r = MacroRow.cells r !! "regime") as ->.
        { unfold pick. by rewrite <- Heq, Hkey, String.eqb_refl. }
        destruct (MacroRow.cells r !! "regime") as [regime|].
        -- by rewrite Heq, lookup_insert_eq, last_snoc.
        -- rewrite app_nil_r. exact IH.
      * assert (pick r = None) as ->.
        { unfold pick. apply String.eqb_neq in Hne. rewrite Hne.
          by rewrite andb_false_r. }
        rewrite app_nil_r.
        destruct (MacroRow.cells r !! "regime") as [regime|];
          [rewrite lookup_insert_ne by done|]; exact IH.
    + assert (pick r = None) as ->.
      { unfold pick.
        destruct (String.eqb_spec (MacroRow._dateKey r) d) as [Heq|Hne];
          [by rewrite <- Heq, Hkey|by rewrite andb_false_r]. }
      rewrite app_nil_r. exact IH.
  - set (pick := λ row, if truthy d && String.eqb (SectorRow._dateKey row) d
                        then Some (SectorRow.returns row) else None).
    unfold sectorByDate.
    induction sectorData as [|r l IH] using rev_ind; [done|].
    rewrite foldl_app, omap_app. cbn [foldl].
    change (omap pick [r])
      with (match pick r with Some x => [x] | None => [] end).
    revert IH. generalize (omap pick l). intros picked IH.
    unfold addSector at 1.
    destruct (truthy (SectorRow._dateKey r)) eqn:Hkey.
    + destruct (String.eqb_spec (SectorRow._dateKey r) d) as [Heq|Hne].
      * assert (pick r = Some (SectorRow.returns r)) as ->.
        { unfold pick. by rewrite <- Heq, Hkey, String.eqb_refl. }
        by rewrite Heq, lookup_insert_eq, last_snoc.
      * assert (pick r = None) as ->.
        { unfold pick. apply String.eqb_neq in Hne. rewrite Hne.
          by rewrite andb_false_r. }
        rewrite app_nil_r, lookup_insert_ne by done. exact IH.
    + assert (pick r = None) as ->.
      { unfold pick.
        destruct (String.eqb_spec (SectorRow._dateKey r) d) as [Heq|Hne];
          [by rewrite <- Heq, Hkey|by rewrite andb_false_r]. }
      rewrite app_nil_r. exact IH.
Qed.

(** ** Ranking the stocks of a sector *)

Lemma descending_app {A} (key : A → Q) (l1 l2 : list A) (a b : A) :
  descending key (l1 ++ l2) → a ∈ l1 → b ∈ l2 → (key b <= key a)%Q.
Proof.
  unfold descending. induction l1 as [|x l1 IH]; intros Hsorted Ha Hb.
  - by apply elem_of_nil in Ha.
  - rewrite <- app_comm_cons in Hsorted.
    apply StronglySorted_inv in Hsorted as [Hrest Hall].
    apply elem_of_cons in Ha as [->|Ha]; [|by apply IH].
    apply (proj1 (Forall_forall _ _) Hall). rewrite elem_of_app. by right.
Qed.

Lemma filter_none {A} (f : A → bool) (l : list A) :
  Forall (λ a, f a = false) l → List.filter f l = [].
Proof.
  induction 1 as [|a l Ha _ IH]; [done|]. simpl. by rewrite Ha.
Qed.

(** Insertion keeps the order of arrival among the entries of one key. *)
Lemma insertBy_stable {A} (key : A → Q) (cmp : A → A → Q) (x : A)
    (sorted : list A) (k : Q) :
  (∀ a b, a ∈ x :: sorted → b ∈ x :: sorted → (cmp a b == key b - key a)%Q) →
  descending key sorted →
  List.filter (λ a, Qeq_bool (key a) k) (insertBy cmp x sorted)
  = List.filter (λ a, Qeq_bool (key a) k) (sorted ++ [x]).
Proof.
  unfold descending. intros Hcmp Hsorted.
  induction Hsorted as [|y rest Hrest IH Hall].
  - reflexivity.
  - assert (Hyx : (cmp y x == key x - key y)%Q).
    { apply Hcmp; [apply list_elem_of_further|]; apply list_elem_of_here. }
    cbn [insertBy]. destruct (Qle_bool (cmp y x) 0) eqn:Hle; cbn [negb].
    + rewrite <- app_comm_cons. cbn [List.filter]. rewrite IH; [done|].
      intros a b Ha Hb. rewrite elem_of_cons in Ha, Hb.
      apply Hcmp; rewrite !elem_of_cons; tauto.
    + assert (key y < key x)%Q as Hlt.
      { apply Qnot_le_lt. intros Hge. apply not_true_iff_false in Hle.
        apply Hle, Qle_bool_iff. rewrite Hyx.
        by apply (proj2 (Qminus_le_0 _ _)). }
      rewrite List.filter_app.
      change (List.filter (λ a, Qeq_bool (key a) k) [x])
        with (if Qeq_bool (key x) k then [x] else []).
      change (List.filter (λ a, Qeq_bool (key a) k) (x :: y :: rest))
        with (if Qeq_bool (key x) k
              then x :: List.filter (λ a, Qeq_bool (key a) k) (y :: rest)
              else List.filter (λ a, Qeq_bool (key a) k) (y :: rest)).
      destruct (Qeq_bool (key x) k) eqn:Hk; [|by rewrite app_nil_r].
      apply Qeq_bool_iff in Hk.
      rewrite (filter_none (λ a, Qeq_bool (key a) k) (y :: rest)); [done|].
      assert (Hsmall : ∀ a, (key a <= key y)%Q → Qeq_bool (key a) k = false).
      { intros a Ha. apply not_true_iff_false. intros Heq.
        apply Qeq_bool_iff in Heq. lra. }
      constructor; [apply Hsmall, Qle_refl|].
      eapply Forall_impl; [exact Hall|]. intros a Ha. by apply Hsmall.
Qed.

(** The sort is stable: the entries of one key keep their order. *)
Lemma sortBy_stable {A} (key : A → Q) (cmp : A → A → Q) (l : list A) (k : Q) :
  (∀ a b, a ∈ l → b ∈ l → (cmp a b == key b - key a)%Q) →
  List.filter (λ a, Qeq_bool (key a) k) (sortBy cmp l)
  = List.filter (λ a, Qeq_bool (key a) k) l.
Proof.
  intros Hcmp. unfold sortBy.
  assert (Hgen : ∀ acc, descending key acc →
            (∀ a b, a ∈ acc ++ l → b ∈ acc ++ l →
                    (cmp a b == key b - key a)%Q) →
            List.filter (λ a, Qeq_bool (key a) k)
              (foldl (λ sorted x, insertBy cmp x sorted) acc l)
            = List.filter (λ a, Qeq_bool (key a) k) (acc ++ l)).
  { clear Hcmp. induction l as [|x l IH]; intros acc Hacc Hcmp.
    - by rewrite app_nil_r.
    - cbn [foldl].
      assert (Hhere : ∀ a b, a ∈ x :: acc → b ∈ x :: acc →
                (cmp a b == key b - key a)%Q).
      { intros a b Ha Hb. rewrite elem_of_cons in Ha, Hb.
        apply Hcmp; rewrite elem_of_app, elem_of_cons; tauto. }
      rewrite IH.
      + rewrite List.filter_app, (insertBy_stable key cmp x acc k Hhere Hacc).
        rewrite <- List.filter_app, <- app_assoc. reflexivity.
      + by apply insertBy_descending.
      + intros a b Ha Hb.
        rewrite elem_of_app, (insertBy_Permutation cmp x acc), elem_of_cons
          in Ha, Hb.
        apply Hcmp; rewrite elem_of_app, elem_of_cons; tauto. }
  apply (Hgen []); [constructor|done].
Qed.

(** The first five of a list sorted on a key: the whole list is ordered
    from the largest key down, entries of equal key in their original
    order, and the first five are as many as there are, up to five. *)
Lemma first_five {A} (key : A → Q) (cmp : A → A → Q) (pool : list A) :
  (∀ a b, a ∈ pool → b ∈ pool → (cmp a b == key b - key a)%Q) →
  let chosen := take 5 (sortBy cmp pool) in
  let rest := drop 5 (sortBy cmp pool) in
  chosen ++ rest ≡ₚ pool
  ∧ length chosen = Nat.min 5 (length pool)
  ∧ descending key (chosen ++ rest)
  ∧ (∀ k, List.filter (λ a, Qeq_bool (key a) k) (chosen ++ rest)
          = List.filter (λ a, Qeq_bool (key a) k) pool)
  ∧ ∀ a b, a ∈ chosen → b ∈ rest → (key b <= key a)%Q.
Proof.
  intros Hcmp. cbv zeta. rewrite take_drop.
  split; [apply sortBy_Permutation|].
  split; [rewrite length_take; by rewrite (sortBy_Permutation cmp pool)|].
  split; [by apply sortBy_descending|].
  split; [intros k; by apply sortBy_stable|].
  intros a b. apply descending_app. rewrite take_drop.
  by apply sortBy_descending.
Qed.

Lemma finite_comparison (x : number) :
  isFinite x = true → x = Finite (comparison x).
Proof. by destruct x. Qed.

Lemma Qeq_bool_opp (a k : Q) : Qeq_bool (- a) (- k) = Qeq_bool a k.
Proof.
  apply eq_iff_eq_true. rewrite !Qeq_bool_iff. split; intros Heq; lra.
Qed.

(** X20: in each sector the stocks with a finite return on the ranking
    date are ranked and the first five are kept (all of them when there are
    fewer).  On the long side the ranking runs from the largest return to
    the smallest, on the short side from the smallest to the largest, in
    both cases with stocks of equal return in file order; so no stock left
    out ranks before a stock kept.  The candidates are the stocks kept whose
    ticker has a return today, in rank order. *)
Theorem sectorCandidates_first_five (rankStocks : list StockRow.t)
    (today : gmap string Q) (sector : string) :
  let pool :=
    List.filter (λ s, String.eqb (StockRow.sector_etf s) sector
                      && isFinite (StockRow.ret s)) rankStocks in
  let candidate := λ s,
    (λ rToday,
       Candidate.Make (StockRow.stock_ticker s) (StockRow.sector_etf s) rToday)
    <$> today !! StockRow.stock_ticker s in
  let return_ := λ s, comparison (StockRow.ret s) in
  (∃ chosen rest,
     chosen ++ rest ≡ₚ pool
     ∧ length chosen = Nat.min 5 (length pool)
     ∧ StronglySorted (λ a b, (return_ b <= return_ a)%Q) (chosen ++ rest)
     ∧ (∀ k, List.filter (λ s, Qeq_bool (return_ s) k) (chosen ++ rest)
             = List.filter (λ s, Qeq_bool (return_ s) k) pool)
     ∧ (∀ a b, a ∈ chosen → b ∈ rest → (return_ b <= return_ a)%Q)
     ∧ sectorCandidates rankStocks today bestFirst sector
       = omap candidate chosen)
  ∧ (∃ chosen rest,
       chosen ++ rest ≡ₚ pool
       ∧ length chosen = Nat.min 5 (length pool)
       ∧ StronglySorted (λ a b, (return_ a <= return_ b)%Q) (chosen ++ rest)
       ∧ (∀ k, List.filter (λ s, Qeq_bool (return_ s) k) (chosen ++ rest)
               = List.filter (λ s, Qeq_bool (return_ s) k) pool)
       ∧ (∀ a b, a ∈ chosen → b ∈ rest → (return_ a <= return_ b)%Q)
       ∧ sectorCandidates rankStocks today worstFirst sector
         = omap candidate chosen).
Proof.
  cbv zeta.
  set (pool := List.filter _ rankStocks).
  assert (Hfinite : ∀ s, s ∈ pool →
            StockRow.ret s = Finite (comparison (StockRow.ret s))).
  { intros s Hs. apply list_elem_of_In, filter_In in Hs as [_ Hs].
    apply andb_prop in Hs as [_ Hs]. by apply finite_comparison. }
  split.
  - destruct (first_five (λ s, comparison (StockRow.ret s)) bestFirst pool)
      as (Hperm & Hlen & Hsorted & Hstable & Hrank).
    { intros a b Ha Hb. unfold bestFirst.
      rewrite (Hfinite a Ha), (Hfinite b Hb). reflexivity. }
    exists (take 5 (sortBy bestFirst pool)), (drop 5 (sortBy bestFirst pool)).
    split; [done|]. split; [done|]. split; [exact Hsorted|].
    split; [exact Hstable|]. split; [done|]. reflexivity.
  - destruct (first_five (λ s, (- comparison (StockRow.ret s))%Q) worstFirst pool)
      as (Hperm & Hlen & Hsorted & Hstable & Hrank).
    { intros a b Ha Hb. unfold worstFirst.
      rewrite (Hfinite a Ha), (Hfinite b Hb).
      change (comparison (Finite ?x - Finite ?y)%num) with (x - y)%Q.
      change (comparison (Finite ?x)) with x. ring. }
    exists (take 5 (sortBy worstFirst pool)), (drop 5 (sortBy worstFirst pool)).
    split; [done|]. split; [done|]. split.
    { revert Hsorted. unfold descending.
      generalize (take 5 (sortBy worstFirst pool)
                  ++ drop 5 (sortBy worstFirst pool)).
      intros l Hsorted.
      induction Hsorted as [|a l Hl IH Hall]; constructor; [done|].
      eapply Forall_impl; [exact Hall|]. intros b Hb. simpl in Hb. lra. }
    split.
    { intros k. specialize (Hstable (- k)%Q).
      assert (Hext : ∀ l,
                List.filter (λ s, Qeq_bool (comparison (StockRow.ret s)) k) l
                = List.filter
                    (λ s, Qeq_bool (- comparison (StockRow.ret s)) (- k)) l).
      { intros l. apply List.filter_ext. intros s. symmetry.
        apply Qeq_bool_opp. }
      rewrite !Hext. exact Hstable. }
    split; [|reflexivity].
    intros a b Ha Hb. specialize (Hrank a b Ha Hb). simpl in Hrank. lra.
Qed.

(** ** Bounded weekly returns *)

Lemma Qsum_app (l k : list Q) : (Qsum (l ++ k) == Qsum l + Qsum k)%Q.
Proof.
  induction l as [|x l IH].
  - change (Qsum k == 0 + Qsum k)%Q. ring.
  - change (x + Qsum (l ++ k) == x + Qsum l + Qsum k)%Q. rewrite IH. ring.
Qed.

Lemma Qsum_abs_bound (bound : Q) (l : list Q) :
  Forall (λ x, (Qabs x <= bound)%Q) l →
  (Qabs (Qsum l) <= Qnat (length l) * bound)%Q.
Proof.
  induction 1 as [|x l Hx Hl IH].
  - change (Qabs 0 <= 0 * bound)%Q. rewrite Qmult_0_l. apply Qle_refl.
  - rewrite Qsum_cons.
    change (length (x :: l)) with (1 + length l).
    rewrite Qnat_plus. change (Qnat 1) with 1%Q.
    rewrite Qmult_plus_distr_l, Qmult_1_l.
    pose proof (Qabs_triangle x (Qsum l)) as Htri.
    revert IH Htri Hx.
    generalize (Qabs (x + Qsum l)) (Qabs (Qsum l)) (Qabs x)
               (Qnat (length l) * bound)%Q.
    intros total rest first m IH Htri Hx. lra.
Qed.

(** One book of equal weights [c] on returns within [bound]. *)
Lemma book_return_bound (c bound : Q) (book : list Position.t) :
  Forall (λ pos, Position.weight pos = c) book →
  Forall (λ pos, (Qabs (Position.stockRet pos) <= bound)%Q) book →
  (Qabs (Qsum ((λ pos, Position.weight pos * Position.stockRet pos) <$> book))
   <= Qnat (length book) * (Qabs c * bound))%Q.
Proof.
  intros Hw Hr.
  rewrite <- (length_fmap (λ pos, (Position.weight pos * Position.stockRet pos)%Q)).
  apply Qsum_abs_bound, Forall_fmap, Forall_forall. intros pos Hpos.
  apply (proj1 (Forall_forall _ _) Hw) in Hpos as Hc.
  apply (proj1 (Forall_forall _ _) Hr) in Hpos as Hb.
  unfold compose. cbv beta. rewrite Hc, Qabs_Qmult.
  apply Qmult_le_compat_nonneg.
  - split; [apply Qabs_nonneg|apply Qle_refl].
  - split; [apply Qabs_nonneg|done].
Qed.

Lemma half_book_bound (n : nat) (c bound : Q) :
  (0 <= bound)%Q → (Qabs c == 0.5 / Qnat n)%Q →
  (Qnat n * (Qabs c * bound) <= 0.5 * bound)%Q.
Proof.
  intros Hbound Hc. rewrite Hc. destruct n as [|n].
  - change (Qnat 0) with 0%Q. lra.
  - rewrite Qmult_assoc, Qnat_half by lia. apply Qle_refl.
Qed.

Lemma half_weight_abs (n : nat) : (Qabs (0.5 / Qnat n) == 0.5 / Qnat n)%Q.
Proof.
  apply Qabs_pos. apply Qmult_le_0_compat; [done|].
  apply Qinv_le_0_compat, Qnat_nonneg.
Qed.

(** The return of a balanced pair of books stays within the bound of the
    returns it is made of. *)
Lemma balancedBooks_return_bound (today : gmap string Q) (trade : Trade.t)
    (bound : Q) :
  balancedBooks today trade →
  (∀ ticker q, today !! ticker = Some q → (Qabs q <= bound)%Q) →
  (Qabs (Trade.weeklyRet trade) <= bound)%Q.
Proof.
  intros (Hn & Hl & Hs & _ & _ & Htoday & Hret & _) Hbound.
  assert (Hrets : Forall (λ pos, (Qabs (Position.stockRet pos) <= bound)%Q)
                    (Trade.longs trade ++ Trade.shorts trade)).
  { eapply Forall_impl; [exact Htoday|]. intros pos [Hpos _].
    by apply (Hbound (Position.ticker pos)). }
  assert (0 <= bound)%Q as Hnonneg.
  { destruct (Trade.longs trade ++ Trade.shorts trade) as [|pos book] eqn:Hbook.
    - apply (f_equal length) in Hbook. rewrite length_app in Hbook.
      simpl in Hbook. lia.
    - apply Forall_cons in Hrets as [Hpos _].
      eapply Qle_trans; [apply Qabs_nonneg|exact Hpos]. }
  apply Forall_app in Hrets as [Hlongs Hshorts].
  rewrite Hret, fmap_app, Qsum_app.
  pose proof (book_return_bound _ bound _ Hl Hlongs) as Hlong.
  pose proof (book_return_bound _ bound _ Hs Hshorts) as Hshort.
  pose proof (half_book_bound (length (Trade.longs trade)) _ bound Hnonneg
                (half_weight_abs _)) as Hhalf.
  assert (Qabs (- (0.5 / Qnat (length (Trade.shorts trade))))
          == 0.5 / Qnat (length (Trade.shorts trade)))%Q as Habs
    by (rewrite Qabs_opp; apply half_weight_abs).
  pose proof (half_book_bound (length (Trade.shorts trade)) _ bound Hnonneg
                Habs) as Hhalf'.
  eapply Qle_trans; [apply Qabs_triangle|].
  revert Hlong Hshort Hhalf Hhalf'.
  generalize
    (Qabs (Qsum ((λ pos, (Position.weight pos * Position.stockRet pos)%Q)
                   <$> Trade.longs trade)))
    (Qabs (Qsum ((λ pos, (Position.weight pos * Position.stockRet pos)%Q)
                   <$> Trade.shorts trade)))
    (Qnat (length (Trade.longs trade))
     * (Qabs (0.5 / Qnat (length (Trade.longs trade))) * bound))%Q
    (Qnat (length (Trade.shorts trade))
     * (Qabs (- (0.5 / Qnat (length (Trade.shorts trade)))) * bound))%Q.
  intros a b ua ub Hlong Hshort Hhalf Hhalf'. lra.
Qed.

(** X21: the weekly return of a traded week is a balanced average: when
    every return read today is within [bound] in absolute value, so is the
    weekly return. *)
Theorem weekTrade_return_bounded (processedData : list MacroRow.t)
    (stockData : list StockRow.t) (rankDate tradeDate : string)
    (trade : Trade.t) (bound : Q) :
  weekTrade processedData stockData rankDate tradeDate = Some trade →
  (∀ ticker q, todayRets stockData tradeDate !! ticker = Some q →
               (Qabs q <= bound)%Q) →
  (Qabs (Trade.weeklyRet trade) <= bound)%Q.
Proof.
  intros Htrade Hbound.
  apply weekTrade_spec in Htrade as (_ & _ & _ & Hbooks).
  by apply (balancedBooks_return_bound _ _ _ Hbooks).
Qed.

Lemma weekTrade_return_witness :
  ∃ trade,
    weekTrade Inputs.macro Inputs.stocks "2014-12-26" "2015-01-02" = Some trade
    ∧ (∀ ticker q,
         todayRets Inputs.stocks "2015-01-02" !! ticker = Some q →
         (Qabs q <= 0.05)%Q)
    ∧ (Qabs (Trade.weeklyRet trade) <= 0.05)%Q.
Proof.
  assert (Hbound : ∀ ticker q,
            todayRets Inputs.stocks "2015-01-02" !! ticker = Some q →
            (Qabs q <= 0.05)%Q).
  { intros ticker q Hq. apply elem_of_map_to_list in Hq. revert Hq.
    remember (map_to_list (todayRets Inputs.stocks "2015-01-02")) as l eqn:Hl.
    vm_compute in Hl. subst l. intros Hq.
    repeat (apply elem_of_cons in Hq as [[= -> ->]|Hq];
            [vm_compute; discriminate|]).
    by apply elem_of_nil in Hq. }
  eexists. split; [vm_compute; reflexivity|]. split; [exact Hbound|].
  apply (weekTrade_return_bounded Inputs.macro Inputs.stocks
           "2014-12-26" "2015-01-02"); [vm_compute; reflexivity|exact Hbound].
Defined.

(** ** Equity stays positive *)

Lemma stocksByDate_elem (stockData : list StockRow.t) (d : string)
    (rows : list StockRow.t) (r : StockRow.t) :
  stocksByDate stockData !! d = Some rows → r ∈ rows → r ∈ stockData.
Proof.
  unfold stocksByDate. revert rows.
  induction stockData as [|x l IH] using rev_ind; intros rows; [done|].
  rewrite foldl_app. cbn [foldl]. unfold addStock at 1. cbv zeta.
  rewrite elem_of_app.
  destruct (truthy (StockRow._dateKey x)); [|by left; eapply IH].
  destruct (decide (StockRow._dateKey x = d)) as [<-|Hne].
  - rewrite lookup_insert_eq. intros [= <-]. rewrite elem_of_app.
    intros [Hr|Hr]; [|right; exact Hr]. left.
    destruct (foldl addStock ∅ l !! StockRow._dateKey x) as [rows|] eqn:Hrows;
      [by eapply IH|by apply elem_of_nil in Hr].
  - rewrite lookup_insert_ne by done. left. by eapply IH.
Qed.

Lemma todayRets_from_rows (stockData : list StockRow.t) (d ticker : string)
    (q : Q) :
  todayRets stockData d !! ticker = Some q →
  ∃ row, row ∈ stockData ∧ StockRow.ret row = Finite q.
Proof.
  unfold todayRets, stockRetByDate. rewrite lookup_fmap.
  destruct (stocksByDate stockData !! d) as [rows|] eqn:Hrows; [|done].
  simpl.
  assert (Hin : ∀ r, r ∈ rows → r ∈ stockData)
    by (intros r; by apply (stocksByDate_elem stockData d rows)).
  clear Hrows. revert Hin.
  induction rows as [|x l IH] using rev_ind; intros Hin; [done|].
  rewrite foldl_app. cbn [foldl].
  assert (x ∈ stockData) as Hx by (apply Hin; rewrite elem_of_app; right; left).
  assert (Hl : ∀ r, r ∈ l → r ∈ stockData)
    by (intros r Hr; apply Hin; rewrite elem_of_app; by left).
  destruct (StockRow.ret x) as [qx|] eqn:Hret; simpl; [|by apply IH].
  destruct (truthy (StockRow.stock_ticker x)); [|by apply IH].
  destruct (decide (StockRow.stock_ticker x = ticker)) as [<-|Hne].
  - rewrite lookup_insert_eq. intros [= <-]. by exists x.
  - rewrite lookup_insert_ne by done. by apply IH.
Qed.

Lemma simulateWeek_solvent (processedData : list MacroRow.t)
    (stockData : list StockRow.t) (bound : Q) (st : LoopState)
    (week : string * string) :
  (0 <= bound)%Q → (bound < 1)%Q → returnsWithin bound stockData →
  solvent bound st →
  solvent bound (simulateWeek processedData stockData st week).
Proof.
  intros Hnonneg Hbound Hrows [Hequity Hcurve].
  destruct week as [rankDate tradeDate]. unfold simulateWeek.
  destruct (dateBefore tradeDate cutoff); [by split|].
  destruct (weekTrade processedData stockData rankDate tradeDate)
    as [trade|] eqn:Htrade.
  - apply weekTrade_spec in Htrade as (_ & _ & _ & Hbooks).
    assert (Qabs (Trade.weeklyRet trade) <= bound)%Q as Hret.
    { apply (balancedBooks_return_bound _ _ _ Hbooks). intros ticker q Hq.
      apply todayRets_from_rows in Hq as (row & Hrow & Hq).
      by apply (Hrows row). }
    assert (0 < equity st * (1 + Trade.weeklyRet trade))%Q as Hnext.
    { apply Qmult_lt_0_compat; [done|].
      apply Qabs_Qle_condition in Hret as [Hlow _]. lra. }
    split; [exact Hnext|]. cbn [equityCurve].
    apply Forall_app. split; [done|]. by repeat constructor.
  - split; [done|]. unfold zeroWeek. cbn [equityCurve].
    apply Forall_app. split; [done|]. repeat constructor; [done|].
    by rewrite Qabs_pos.
Qed.

(** X22: when every finite stock return is within a bound below 1 in
    absolute value (no stock loses or gains 100% in a week), every weekly
    return of the backtest is within that bound, and the equity is positive
    at every point of the curve and at the end. *)
Theorem runBacktest_equity_positive (previous : option BacktestResult)
    (processedData : list MacroRow.t) (sectorData : list SectorRow.t)
    (stockData : list StockRow.t) (result : BacktestResult) (bound : Q) :
  backtest (runBacktest previous (Some processedData) (Some sectorData)
              (Some stockData)) = Some result →
  (0 <= bound)%Q → (bound < 1)%Q → returnsWithin bound stockData →
  (0 < finalValue result)%Q
  ∧ Forall (λ pt, (0 < Point.equity pt)%Q ∧ (Qabs (Point.ret pt) <= bound)%Q)
           (resultCurve result).
Proof.
  intros Hrun Hnonneg Hbound Hrows.
  apply runBacktest_result in Hrun as (-> & -> & _).
  unfold runLoop.
  assert (Hinit : solvent bound (Loop initialCapital [] [] ∅))
    by (split; [done|constructor]).
  revert Hinit. generalize (Loop initialCapital [] [] ∅).
  generalize (weeks (commonDates processedData sectorData stockData)).
  intros ws. induction ws as [|week ws IH]; intros st Hst; [exact Hst|].
  cbn [foldl]. apply IH. by apply simulateWeek_solvent.
Qed.

(** ** Statistics *)

(** X23: the win rate is a fraction between 0 and 1; it is 0 on an empty
    list of weeks. *)
Theorem winRate_fraction (weeklyReturns : list Q) :
  (0 <= winRate weeklyReturns)%Q ∧ (winRate weeklyReturns <= 1)%Q
  ∧ (weeklyReturns = [] → winRate weeklyReturns = 0%Q).
Proof.
  unfold winRate. split; [|split].
  - apply Qmult_le_0_compat; [apply Qnat_nonneg|].
    apply Qinv_le_0_compat, Qnat_nonneg.
  - assert (length (List.filter (λ r, negb (Qle_bool r 0)) weeklyReturns)
            ≤ length weeklyReturns) as Hwins.
    { apply sublist_length, List_filter_sublist. }
    destruct weeklyReturns as [|r l]; [done|].
    change (length (r :: l) =? 0)%nat with false. cbv iota.
    revert Hwins. generalize (List.filter (λ r, negb (Qle_bool r 0)) (r :: l)).
    intros wins Hwins.
    apply Qle_shift_div_r; [apply Qnat_pos; simpl; lia|].
    rewrite Qmult_1_l. unfold Qnat. rewrite <- Zle_Qle. lia.
  - by intros ->.
Qed.

Lemma drawdownStep_spec (acc : Drawdown) (pt : Point.t) :
  (0 < peak acc)%Q → (0 < Point.equity pt)%Q →
  let acc' := drawdownStep acc pt in
  (peak acc' = peak acc ∧ (Point.equity pt <= peak acc)%Q
   ∨ peak acc' = Point.equity pt ∧ (peak acc < Point.equity pt)%Q)
  ∧ ∃ d, (Point.equity pt == (1 + d) * peak acc')%Q
         ∧ (-1 < d)%Q ∧ (d <= 0)%Q
         ∧ (maxDD acc' = maxDD acc ∧ (maxDD acc <= d)%Q
            ∨ maxDD acc' = d ∧ (d < maxDD acc)%Q).
Proof.
  intros Hpeak Hequity. cbv zeta. unfold drawdownStep. cbn [peak maxDD].
  set (peak' := if negb (Qle_bool (Point.equity pt) (peak acc))
                then Point.equity pt else peak acc).
  assert (Hcases : peak' = peak acc ∧ (Point.equity pt <= peak acc)%Q
                   ∨ peak' = Point.equity pt ∧ (peak acc < Point.equity pt)%Q).
  { unfold peak'. destruct (Qle_bool (Point.equity pt) (peak acc)) eqn:Hle.
    - left. split; [done|]. by apply Qle_bool_iff.
    - right. split; [done|]. apply Qnot_le_lt. intros Hge.
      apply Qle_bool_iff in Hge. congruence. }
  split; [exact Hcases|].
  assert (0 < peak')%Q as Hpos by (destruct Hcases as [[-> _]|[-> _]]; done).
  assert (Point.equity pt <= peak')%Q as Hle.
  { destruct Hcases as [[-> Hle]|[-> _]]; [done|apply Qle_refl]. }
  exists ((Point.equity pt - peak') / peak')%Q.
  split; [field; lra|]. split; [apply Qlt_shift_div_l; [done|lra]|].
  split; [apply Qle_shift_div_r; [done|lra]|].
  destruct (Qle_bool (maxDD acc) ((Point.equity pt - peak') / peak')) eqn:Hdd.
  - left. split; [done|]. by apply Qle_bool_iff.
  - right. split; [done|]. apply Qnot_le_lt. intros Hge.
    apply Qle_bool_iff in Hge. congruence.
Qed.

Lemma levelsBefore_positive (curve : list Point.t) (j : nat) (x : Q) :
  Forall (λ pt, (0 < Point.equity pt)%Q) curve →
  x ∈ levelsBefore curve j → (0 < x)%Q.
Proof.
  intros Hpos Hx. unfold levelsBefore in Hx.
  apply elem_of_cons in Hx as [->|Hx]; [done|].
  apply list_elem_of_fmap in Hx as (pt & -> & Hpt).
  apply (proj1 (Forall_forall _ _) Hpos).
  by apply (subseteq_take j curve).
Qed.

Lemma drawdown_invariant (curve : list Point.t) :
  Forall (λ pt, (0 < Point.equity pt)%Q) curve →
  drawdownOf curve (drawdown curve).
Proof.
  unfold drawdown.
  induction curve as [|pt curve IH] using rev_ind; intros Hpos.
  - unfold drawdownOf, levelsBefore. cbn.
    split; [apply list_elem_of_here|].
    split; [intros x Hx; apply elem_of_cons in Hx as [->|Hx];
            [apply Qle_refl|by apply elem_of_nil in Hx]|].
    split; [done|]. split; [done|]. split; [done|]. by left.
  - apply Forall_app in Hpos as [Hcurve Hpt].
    apply Forall_cons in Hpt as [Hpt _].
    specialize (IH Hcurve).
    destruct IH as (Hpeak & Hmax & Hlow & Hhigh & Hbound & Htight).
    rewrite foldl_app. cbn [foldl].
    set (acc := foldl drawdownStep (Dd initialCapital 0) curve) in *.
    assert (0 < peak acc)%Q as Hpeakpos
      by (by apply (levelsBefore_positive curve (length curve))).
    destruct (drawdownStep_spec acc pt Hpeakpos Hpt)
      as (Hpeak' & d & Hd & Hdlow & Hdhigh & Hdd).
    set (acc' := drawdownStep acc pt) in *.
    assert (Hlevels : ∀ x, x ∈ levelsBefore (curve ++ [pt]) (length (curve ++ [pt]))
                           ↔ x ∈ levelsBefore curve (length curve)
                             ∨ x = Point.equity pt).
    { intros x. unfold levelsBefore.
      rewrite !firstn_all, fmap_app, app_comm_cons, elem_of_app.
      cbn. rewrite elem_of_cons, (elem_of_cons []), elem_of_nil. tauto. }
    assert (Hold : ∀ j, j ≤ length curve →
              levelsBefore (curve ++ [pt]) j = levelsBefore curve j).
    { intros j Hj. unfold levelsBefore. by rewrite take_app_le. }
    assert (peak acc <= peak acc')%Q as Hmono.
    { destruct Hpeak' as [[-> _]|[-> Hlt]]; [apply Qle_refl|lra]. }
    assert (maxDD acc' <= maxDD acc)%Q as Hdmono.
    { destruct Hdd as [[-> _]|[-> Hlt]]; [apply Qle_refl|lra]. }
    assert (maxDD acc' <= d)%Q as Hdle.
    { destruct Hdd as [[-> Hle]|[-> _]]; [done|apply Qle_refl]. }
    assert (-1 < maxDD acc')%Q as Hlow'.
    { destruct Hdd as [[-> _]|[-> _]]; done. }
    split; [|split; [|split; [|split; [|split]]]].
    + apply Hlevels. destruct Hpeak' as [[-> _]|[-> _]]; [by left|by right].
    + intros x Hx. apply Hlevels in Hx as [Hx| ->].
      * specialize (Hmax x Hx). lra.
      * destruct Hpeak' as [[-> Hle]|[-> _]]; [done|apply Qle_refl].
    + exact Hlow'.
    + lra.
    + intros j pj x Hj Hx.
      apply lookup_app_Some in Hj as [Hj|[Hlen Hj]].
      * assert (j < length curve) as Hlt by (by eapply lookup_lt_Some).
        rewrite Hold in Hx by lia.
        specialize (Hbound j pj x Hj Hx).
        pose proof (levelsBefore_positive curve j x Hcurve Hx) as Hxpos.
        nra.
      * destruct (j - length curve) as [|k] eqn:Hk; [|done].
        injection Hj as <-. assert (j = length curve) as -> by lia.
        rewrite Hold in Hx by lia.
        pose proof (levelsBefore_positive curve _ x Hcurve Hx) as Hxpos.
        specialize (Hmax x Hx).
        assert (0 < peak acc')%Q as Hpos' by lra.
        nra.
    + destruct Hdd as [[Heq Hle]|[Heq Hlt]].
      * rewrite Heq. destruct Htight as [Hzero|(j & pj & x & Hj & Hx & Hfall)];
          [by left|].
        right. exists j, pj, x.
        assert (j < length curve) as Hlt by (by eapply lookup_lt_Some).
        split; [by apply lookup_app_l_Some|].
        split; [by rewrite Hold by lia|done].
      * right. exists (length curve), pt, (peak acc).
        split; [by rewrite list_lookup_middle|].
        split; [by rewrite Hold by lia|].
        rewrite Heq. destruct Hpeak' as [[Hsame _]|[Hnew Hup]].
        -- by rewrite <- Hsame.
        -- exfalso. rewrite Hnew in Hd. nra.
Qed.

(** X24: along a curve of positive equities the drawdown statistic lies in
    (-1, 0], no point of the curve has fallen from an earlier level (the
    initial capital or an earlier equity) by a larger fraction, and unless
    it is 0 some point has fallen from an earlier level by exactly that
    fraction. *)
Theorem maxDD_largest_fall (curve : list Point.t) :
  Forall (λ pt, (0 < Point.equity pt)%Q) curve →
  let dd := maxDD (drawdown curve) in
  (-1 < dd)%Q ∧ (dd <= 0)%Q
  ∧ (∀ j pj x, curve !! j = Some pj → x ∈ levelsBefore curve j →
               ((1 + dd) * x <= Point.equity pj)%Q)
  ∧ ((dd == 0)%Q
     ∨ ∃ j pj x, curve !! j = Some pj ∧ x ∈ levelsBefore curve j
                 ∧ (Point.equity pj == (1 + dd) * x)%Q).
Proof.
  intros Hpos. cbv zeta.
  by destruct (drawdown_invariant curve Hpos) as (_ & _ & ? & ? & ? & ?).
Qed.

Lemma maxDD_largest_fall_witness :
  let curve :=
    [ Point.Make "2015-01-02" 1100000 0.1;
      Point.Make "2015-01-09" 990000 (-0.1);
      Point.Make "2015-01-16" 1039500 0.05 ] in
  Forall (λ pt, (0 < Point.equity pt)%Q) curve
  ∧ let dd := maxDD (drawdown curve) in
    (-1 < dd)%Q ∧ (dd <= 0)%Q
    ∧ (∀ j pj x, curve !! j = Some pj → x ∈ levelsBefore curve j →
                 ((1 + dd) * x <= Point.equity pj)%Q)
    ∧ ((dd == 0)%Q
       ∨ ∃ j pj x, curve !! j = Some pj ∧ x ∈ levelsBefore curve j
                   ∧ (Point.equity pj == (1 + dd) * x)%Q).
Proof.
  cbv zeta.
  assert (Forall (λ pt, (0 < Point.equity pt)%Q)
            [ Point.Make "2015-01-02" 1100000 0.1;
              Point.Make "2015-01-09" 990000 (-0.1);
              Point.Make "2015-01-16" 1039500 0.05 ]) as Hpos
    by (repeat constructor).
  split; [exact Hpos|]. by apply maxDD_largest_fall.
Defined.

Lemma runBacktest_equity_witness :
  ∃ result,
    backtest (runBacktest None (Some Inputs.macro) (Some Inputs.sectors)
                (Some Inputs.stocks)) = Some result
    ∧ (0 <= 0.05)%Q ∧ (0.05 < 1)%Q ∧ returnsWithin 0.05 Inputs.stocks
    ∧ (0 < finalValue result)%Q
    ∧ Forall (λ pt, (0 < Point.equity pt)%Q ∧ (Qabs (Point.ret pt) <= 0.05)%Q)
             (resultCurve result).
Proof.
  assert (returnsWithin 0.05 Inputs.stocks) as Hrows.
  { intros row q Hrow Hq. unfold Inputs.stocks in Hrow.
    repeat (apply elem_of_cons in Hrow as [->|Hrow];
            [injection Hq as <-; vm_compute; discriminate|]).
    by apply elem_of_nil in Hrow. }
  eexists. split; [vm_compute; reflexivity|].
  split; [vm_compute; discriminate|]. split; [vm_compute; reflexivity|].
  split; [exact Hrows|].
  apply (runBacktest_equity_positive None Inputs.macro Inputs.sectors
           Inputs.stocks);
    [vm_compute; reflexivity|vm_compute; discriminate|vm_compute; reflexivity
    |exact Hrows].
Defined.

(** ** Common dates, trade dates and the final value *)

Lemma elem_of_keys {A} (m : gmap string A) (d : string) :
  d ∈ (map_to_list m).*1 ↔ is_Some (m !! d).
Proof.
  rewrite list_elem_of_fmap. split.
  - intros ([k x] & -> & Hin). apply elem_of_map_to_list in Hin. by exists x.
  - intros [x Hx]. exists (d, x). split; [done|]. by apply elem_of_map_to_list.
Qed.

(** X25: the common dates are exactly the dates that have an entry in all
    three tables (a regime, a row of sector returns, at least one stock
    row), each once, in increasing order. *)
Theorem commonDates_exact (processedData : list MacroRow.t)
    (sectorData : list SectorRow.t) (stockData : list StockRow.t) :
  let allDates := commonDates processedData sectorData stockData in
  increasing allDates
  ∧ ∀ d, d ∈ allDates
         ↔ is_Some (regimeByDate processedData !! d)
           ∧ is_Some (sectorByDate sectorData !! d)
           ∧ is_Some (stocksByDate stockData !! d).
Proof.
  cbv zeta. split; [apply commonDates_increasing|].
  intros d. unfold commonDates.
  rewrite sortBy_Permutation, list_elem_of_In, filter_In, <- list_elem_of_In.
  rewrite elem_of_keys, andb_true_iff, !bool_decide_eq_true. tauto.
Qed.

(** X26: the trade dates handed to the interface are the dates that have a
    trade record, each once, in increasing order, and each is a date of the
    equity curve. *)
Theorem tradeDates_sorted_keys (previous : option BacktestResult)
    (processedData : list MacroRow.t) (sectorData : list SectorRow.t)
    (stockData : list StockRow.t) (result : BacktestResult) :
  backtest (runBacktest previous (Some processedData) (Some sectorData)
              (Some stockData)) = Some result →
  increasing (tradeDates result)
  ∧ (∀ d, d ∈ tradeDates result ↔ is_Some (resultTrades result !! d))
  ∧ (∀ d, d ∈ tradeDates result → d ∈ Point.date <$> resultCurve result).
Proof.
  intros Hrun.
  apply runBacktest_result in Hrun as (Hcurve & _ & Htrades & Hdates).
  rewrite Hdates, Hcurve, Htrades.
  assert (Hkeys : ∀ d,
            d ∈ sortBy compareText
                  (map_to_list
                     (tradesByDate
                        (runLoop processedData stockData
                           (commonDates processedData sectorData stockData)))).*1
            ↔ is_Some
                (tradesByDate
                   (runLoop processedData stockData
                      (commonDates processedData sectorData stockData)) !! d)).
  { intros d. by rewrite sortBy_Permutation, elem_of_keys. }
  split; [apply sortBy_text_increasing, NoDup_fst_map_to_list|].
  split; [exact Hkeys|].
  intros d Hd. apply Hkeys in Hd as [trade Htrade].
  apply runLoop_trades_origin in Htrade as (rankDate & Hweek & _).
  rewrite runLoop_curve_dates. apply list_elem_of_fmap.
  by exists (rankDate, d).
Qed.

Lemma compounds_product (previous : Q) (curve : list Point.t) :
  compounds previous curve →
  (default previous (Point.equity <$> last curve)
   == previous * Qprod ((λ pt, 1 + Point.ret pt) <$> curve))%Q.
Proof.
  revert previous. induction curve as [|p rest IH]; intros previous Hcomp.
  - change (previous == previous * 1)%Q. ring.
  - destruct Hcomp as [Hp Hrest]. specialize (IH _ Hrest).
    assert (default previous (Point.equity <$> last (p :: rest))
            = default (Point.equity p) (Point.equity <$> last rest)) as ->.
    { destruct rest as [|p' rest']; [done|].
      change (last (p :: p' :: rest')) with (last (p' :: rest')).
      by destruct (last (p' :: rest')) eqn:Hlast;
        [|apply last_None in Hlast]. }
    rewrite IH, Hp, fmap_cons.
    change (Qprod ((1 + Point.ret p)%Q :: ?l))
      with ((1 + Point.ret p) * Qprod l)%Q.
    ring.
Qed.

(** X27: the final value is the equity of the last point of the curve, and
    it is the initial capital multiplied by (1 + weekly return) over the
    weeks of the curve; the total return is that product minus 1. *)
Theorem finalValue_product (previous : option BacktestResult)
    (processedData : list MacroRow.t) (sectorData : list SectorRow.t)
    (stockData : list StockRow.t) (result : BacktestResult) :
  backtest (runBacktest previous (Some processedData) (Some sectorData)
              (Some stockData)) = Some result →
  let growth := Qprod ((λ pt, 1 + Point.ret pt)%Q <$> resultCurve result) in
  Some (finalValue result) = Point.equity <$> last (resultCurve result)
  ∧ (finalValue result == initialCapital * growth)%Q
  ∧ (totalReturn (finalValue result) == growth - 1)%Q.
Proof.
  intros Hrun. cbv zeta.
  assert (resultCurve result ≠ []) as Hne.
  { unfold runBacktest in Hrun.
    destruct (_ <? 2)%nat; [done|].
    destruct (Nat.eqb_spec
                (length (equityCurve
                   (runLoop processedData stockData
                      (commonDates processedData sectorData stockData)))) 0)
      as [|Hlen]; [done|].
    injection Hrun as <-. simpl. intros Hnil. by rewrite Hnil in Hlen. }
  apply runBacktest_result in Hrun as (Hcurve & Hfinal & _).
  pose proof (runLoop_consistent processedData sectorData stockData)
    as (Hequity & _ & Hcomp).
  rewrite <- Hcurve, <- Hfinal in *.
  apply compounds_product in Hcomp. rewrite <- Hequity in Hcomp.
  split.
  - rewrite Hequity. destruct (last (resultCurve result)) eqn:Hlast; [done|].
    by apply last_None in Hlast.
  - split; [exact Hcomp|]. unfold totalReturn. rewrite Hcomp.
    unfold initialCapital. field.
Qed.

Lemma tradeDates_sorted_witness :
  ∃ result,
    backtest (runBacktest None (Some Inputs.macro) (Some Inputs.sectors)
                (Some Inputs.stocks)) = Some result
    ∧ increasing (tradeDates result)
    ∧ (∀ d, d ∈ tradeDates result ↔ is_Some (resultTrades result !! d))
    ∧ (∀ d, d ∈ tradeDates result → d ∈ Point.date <$> resultCurve result).
Proof.
  eexists. split; [vm_compute; reflexivity|].
  apply (tradeDates_sorted_keys None Inputs.macro Inputs.sectors Inputs.stocks).
  vm_compute. reflexivity.
Defined.

Lemma finalValue_product_witness :
  ∃ result,
    backtest (runBacktest None (Some Inputs.macro) (Some Inputs.sectors)
                (Some Inputs.stocks)) = Some result
    ∧ let growth := Qprod ((λ pt, 1 + Point.ret pt)%Q <$> resultCurve result) in
      Some (finalValue result) = Point.equity <$> last (resultCurve result)
      ∧ (finalValue result == initialCapital * growth)%Q
      ∧ (totalReturn (finalValue result) == growth - 1)%Q.
Proof.
  eexists. split; [vm_compute; reflexivity|].
  apply (finalValue_product None Inputs.macro Inputs.sectors Inputs.stocks).
  vm_compute. reflexivity.
Defined.

(** ** Sectors of the two books *)

Lemma omap_length_le {A B} (f : A → option B) (l : list A) :
  length (omap f l) ≤ length l.
Proof.
  induction l as [|x l IH]; [done|].
  change (omap f (x :: l))
    with (match f x with Some y => y :: omap f l | None => omap f l end).
  destruct (f x); simpl; lia.
Qed.

Lemma sectorCandidates_sector (rankStocks : list StockRow.t)
    (today : gmap string Q) (order : StockRow.t → StockRow.t → Q)
    (sector : string) :
  length (sectorCandidates rankStocks today order sector) ≤ 5
  ∧ Forall (λ c, Candidate.sector_etf c = sector)
           (sectorCandidates rankStocks today order sector).
Proof.
  unfold sectorCandidates. cbv zeta. split.
  - etrans; [apply omap_length_le|].
    rewrite length_take. lia.
  - apply Forall_forall. intros c Hc.
    apply list_elem_of_omap in Hc as (s & Hs & Hc).
    apply (subseteq_take 5) in Hs. rewrite sortBy_Permutation in Hs.
    apply list_elem_of_In, filter_In in Hs as [_ Hs].
    apply andb_prop in Hs as [Hs _]. apply String.eqb_eq in Hs.
    destruct (today !! StockRow.stock_ticker s); [|done].
    injection Hc as <-. exact Hs.
Qed.

Lemma bookCandidates_sectors (rankStocks : list StockRow.t)
    (today : gmap string Q) (order : StockRow.t → StockRow.t → Q)
    (sectors : list string) :
  length (bookCandidates rankStocks today order sectors) ≤ 5 * length sectors
  ∧ Forall (λ c, Candidate.sector_etf c ∈ sectors)
           (bookCandidates rankStocks today order sectors).
Proof.
  unfold bookCandidates. induction sectors as [|sector sectors [IHlen IHin]].
  - split; [done|constructor].
  - rewrite fmap_cons.
    change (mjoin (?l :: ?ls)) with (l ++ mjoin ls).
    destruct (sectorCandidates_sector rankStocks today order sector)
      as [Hlen Hin].
    split.
    + rewrite length_app. simpl. lia.
    + apply Forall_app. split.
      * eapply Forall_impl; [exact Hin|]. intros c ->. apply list_elem_of_here.
      * eapply Forall_impl; [exact IHin|]. intros c Hc.
        by apply list_elem_of_further.
Qed.

(** With distinct sectors in the list, a book holds at most five
    candidates of any one sector. *)
Lemma bookCandidates_per_sector (rankStocks : list StockRow.t)
    (today : gmap string Q) (order : StockRow.t → StockRow.t → Q)
    (sectors : list string) (sector : string) :
  NoDup sectors →
  length (List.filter (λ c, String.eqb (Candidate.sector_etf c) sector)
            (bookCandidates rankStocks today order sectors)) ≤ 5.
Proof.
  unfold bookCandidates. induction 1 as [|σ sectors Hfresh _ IH].
  - simpl. lia.
  - rewrite fmap_cons.
    change (mjoin (?l :: ?ls)) with (l ++ mjoin ls).
    rewrite List.filter_app, length_app.
    destruct (sectorCandidates_sector rankStocks today order σ) as [Hlen Hin].
    destruct (bookCandidates_sectors rankStocks today order sectors)
      as [_ Hrest].
    unfold bookCandidates in Hrest.
    destruct (String.eqb_spec σ sector) as [->|Hne].
    + rewrite (filter_none _ (mjoin _)).
      * pose proof (sublist_length _ _
                      (List_filter_sublist
                         (λ c, String.eqb (Candidate.sector_etf c) sector)
                         (sectorCandidates rankStocks today order sector))).
        simpl. lia.
      * eapply Forall_impl; [exact Hrest|]. intros c Hc.
        apply String.eqb_neq. intros Heq. apply Hfresh. by rewrite <- Heq.
    + rewrite (filter_none _ (sectorCandidates _ _ _ _)); [simpl; lia|].
      eapply Forall_impl; [exact Hin|]. intros c ->.
      by apply String.eqb_neq.
Qed.

Lemma positions_per_sector (weight : Q) (candidates : list Candidate.t)
    (sector : string) :
  length (List.filter (λ pos, String.eqb (Position.sector_etf pos) sector)
            (positions weight candidates))
  = length (List.filter (λ c, String.eqb (Candidate.sector_etf c) sector)
              candidates).
Proof.
  unfold positions. induction candidates as [|c candidates IH]; [done|].
  rewrite fmap_cons. cbn [List.filter Position.sector_etf].
  destruct (String.eqb (Candidate.sector_etf c) sector); simpl; by rewrite IH.
Qed.

(** The long and short lists of a regime share no sector and list no
    sector twice. *)
Lemma configFor_disjoint (regime : number) (config : Config.t) :
  configFor regime = Some config →
  Forall (λ sector, sector ∉ Config.short config) (Config.long config)
  ∧ NoDup (Config.long config) ∧ NoDup (Config.short config).
Proof.
  unfold configFor. destruct (arrayIndex (Some regime)) as [k|]; [|done].
  simpl.
  do 4 (destruct k as [|k]; [intros [= <-]; repeat split; compute_done|]).
  done.
Qed.

Lemma positions_sectors (weight : Q) (candidates : list Candidate.t)
    (sectors : list string) :
  Forall (λ c, Candidate.sector_etf c ∈ sectors) candidates →
  Forall (λ pos, Position.sector_etf pos ∈ sectors) (positions weight candidates).
Proof.
  intros Hin. unfold positions. apply Forall_fmap.
  eapply Forall_impl; [exact Hin|]. by intros c Hc.
Qed.

(** X28: in a traded week every long position is in a sector of the long
    list of the regime and every short position in a sector of its short
    list; each book holds at most five positions in any one sector, hence
    at most five times the number of listed sectors in all; the two lists
    share no sector, so no sector is held long and short in the same
    week. *)
Theorem weekTrade_books_by_sector (processedData : list MacroRow.t)
    (stockData : list StockRow.t) (rankDate tradeDate : string)
    (trade : Trade.t) :
  weekTrade processedData stockData rankDate tradeDate = Some trade →
  ∃ config,
    configFor (Trade.regime trade) = Some config
    ∧ Forall (λ pos, Position.sector_etf pos ∈ Config.long config)
             (Trade.longs trade)
    ∧ Forall (λ pos, Position.sector_etf pos ∈ Config.short config)
             (Trade.shorts trade)
    ∧ (∀ sector,
         length (List.filter
                   (λ pos, String.eqb (Position.sector_etf pos) sector)
                   (Trade.longs trade)) ≤ 5
         ∧ length (List.filter
                     (λ pos, String.eqb (Position.sector_etf pos) sector)
                     (Trade.shorts trade)) ≤ 5)
    ∧ length (Trade.longs trade) ≤ 5 * length (Config.long config)
    ∧ length (Trade.shorts trade) ≤ 5 * length (Config.short config)
    ∧ ∀ long short, long ∈ Trade.longs trade → short ∈ Trade.shorts trade →
                    Position.sector_etf long ≠ Position.sector_etf short.
Proof.
  intros Htrade.
  apply weekTrade_candidates in Htrade as (config & Hconfig & Hbooks).
  exists config. split; [exact Hconfig|].
  unfold weekCandidates in Hbooks. cbv zeta in Hbooks.
  destruct Hbooks as [Hlongs Hshorts].
  destruct (configFor_disjoint _ _ Hconfig) as (Hdisj & Hndl & Hnds).
  destruct (bookCandidates_sectors
              (default [] (stocksByDate stockData !! rankDate))
              (todayRets stockData tradeDate) bestFirst (Config.long config))
    as [Hnl Hl].
  destruct (bookCandidates_sectors
              (default [] (stocksByDate stockData !! rankDate))
              (todayRets stockData tradeDate) worstFirst (Config.short config))
    as [Hns Hs].
  assert (Hlin : Forall (λ pos, Position.sector_etf pos ∈ Config.long config)
                   (Trade.longs trade))
    by (rewrite Hlongs; by apply positions_sectors).
  assert (Hsin : Forall (λ pos, Position.sector_etf pos ∈ Config.short config)
                   (Trade.shorts trade))
    by (rewrite Hshorts; by apply positions_sectors).
  split; [exact Hlin|]. split; [exact Hsin|].
  split.
  { intros sector. rewrite Hlongs, Hshorts, !positions_per_sector.
    split; by apply bookCandidates_per_sector. }
  split; [rewrite Hlongs; unfold positions; by rewrite length_fmap|].
  split; [rewrite Hshorts; unfold positions; by rewrite length_fmap|].
  intros long short Hlong Hshort Hsame.
  apply (proj1 (Forall_forall _ _) Hlin) in Hlong.
  apply (proj1 (Forall_forall _ _) Hsin) in Hshort.
  apply (proj1 (Forall_forall _ _) Hdisj) in Hlong.
  apply Hlong. by rewrite Hsame.
Qed.

Lemma weekTrade_books_witness :
  ∃ trade,
    weekTrade Inputs.macro Inputs.stocks "2014-12-26" "2015-01-02" = Some trade
    ∧ ∃ config,
        configFor (Trade.regime trade) = Some config
        ∧ Forall (λ pos, Position.sector_etf pos ∈ Config.long config)
                 (Trade.longs trade)
        ∧ Forall (λ pos, Position.sector_etf pos ∈ Config.short config)
                 (Trade.shorts trade)
        ∧ (∀ sector,
             length (List.filter
                       (λ pos, String.eqb (Position.sector_etf pos) sector)
                       (Trade.longs trade)) ≤ 5
             ∧ length (List.filter
                         (λ pos, String.eqb (Position.sector_etf pos) sector)
                         (Trade.shorts trade)) ≤ 5)
        ∧ length (Trade.longs trade) ≤ 5 * length (Config.long config)
        ∧ length (Trade.shorts trade) ≤ 5 * length (Config.short config)
        ∧ ∀ long short,
            long ∈ Trade.longs trade → short ∈ Trade.shorts trade →
            Position.sector_etf long ≠ Position.sector_etf short.
Proof.
  eexists. split; [vm_compute; reflexivity|].
  apply (weekTrade_books_by_sector Inputs.macro Inputs.stocks
           "2014-12-26" "2015-01-02").
  vm_compute. reflexivity.
Defined.
